(** * telebot-gemini: message delivery and media-group aggregation

    A shallow embedding of the delivery and aggregation core of the bot
    ([markdown_utils.py] and the media-group / long-message parts of
    [bot_handlers.py]) together with the properties of its specification.

    Python [str] values are modelled as lists of characters ([list ascii],
    i.e. texts whose code points are below 256); Python [int]s as [Z];
    dictionaries as stdpp's [gmap]. *)

From Stdlib Require Import ZArith Lia Ascii String DecimalString.
From stdpp Require Import gmap strings list.

Open Scope Z_scope.
Open Scope nat_scope.

(** ** Python strings *)

Module Str.

Abbreviation str := (list ascii).

(** A literal: [lit "abc"] is the Python string ['abc']. *)
Definition lit (s : string) : str := list_ascii_of_string s.

Definition newline : ascii := ascii_of_nat 10.

(** [str.isspace] on one character, for code points below 256:
    TAB..CR, FS..US, SPACE, NEL and NBSP. *)
Definition isspace (c : ascii) : bool :=
  let n := nat_of_ascii c in
  ((9 <=? n) && (n <=? 13)) || ((28 <=? n) && (n <=? 32))
  || (n =? 133) || (n =? 160).

(** [s.lstrip()], [s.rstrip()], [s.strip()]. *)
Fixpoint lstrip (s : str) : str :=
  match s with
  | c :: rest => if isspace c then lstrip rest else s
  | [] => []
  end.

Definition rstrip (s : str) : str := reverse (lstrip (reverse s)).

Definition strip (s : str) : str := rstrip (lstrip s).

(** [s.split('\n')]: the pieces between newlines; never an empty list. *)
Fixpoint split_newline (s : str) : list str :=
  match s with
  | [] => [[]]
  | c :: rest =>
      if bool_decide (c = newline) then [] :: split_newline rest
      else match split_newline rest with
           | line :: lines => (c :: line) :: lines
           | [] => [[c]]
           end
  end.

(** [''.join(parts)]. *)
Definition join (parts : list str) : str := concat parts.

(** Truthiness of a string: [if s:]. *)
Definition truthy (s : str) : bool :=
  match s with [] => false | _ => true end.

(** Truthiness of an optional string ([None] and [''] are both falsy). *)
Definition truthy_opt (o : option str) : bool :=
  match o with Some s => truthy s | None => false end.

Definition blank (s : str) : Prop := Forall (fun c => isspace c = true) s.

End Str.

Import Str.

(** ** markdown_utils.py *)

Module MarkdownUtils.

Definition backtick : ascii := "`"%char.

Definition single_char_symbols : list ascii :=
  ["*"%char; "`"%char; "~"%char].

(** The one element of [multi_char_symbols]. *)
Definition fence : str := [backtick; backtick; backtick].

(** [if stack and stack[-1] == symbol: stack.pop() else: stack.append(symbol)].
    The head of the list is the top of the stack (the last element of the
    Python list). *)
Definition toggle (symbol : str) (stack : list str) : list str :=
  match stack with
  | top :: below =>
      if bool_decide (top = symbol) then below else symbol :: stack
  | [] => [symbol]
  end.

(** One iteration of the [while i < len(text)] loop when the text from [i]
    on does not start with the fence. *)
Definition single_step (char : ascii) (stack : list str) : list str :=
  if bool_decide (char ∈ single_char_symbols) then toggle [char] stack
  else stack.

(** The [while i < len(text)] loop; [text] is [text[i:]].  The test
    [text[i:i+3] == '```'] holds when three characters are left and all
    three are backticks; the index then advances by three, otherwise by
    one. *)
Fixpoint scan (text : str) (stack : list str) (result : list str)
  {struct text} : list str * list str :=
  match text with
  | [] => (stack, result)
  | char :: rest =>
      match rest with
      | c2 :: c3 :: rest3 =>
          if bool_decide ([char; c2; c3] = fence)
          then scan rest3 (toggle fence stack) (result ++ [fence])
          else scan rest (single_step char stack) (result ++ [[char]])
      | _ => scan rest (single_step char stack) (result ++ [[char]])
      end
  end.

(** The delimiters left open by [text], in pop order. *)
Definition unclosed (text : str) : list str := fst (scan text [] []).

Definition ensure_valid_markdown (text : str) : str :=
  match text with
  | [] => []
  | _ =>
      let '(stack, result) := scan text [] [] in
      (* while stack: result.append(stack.pop()) *)
      join (result ++ stack)
  end.

Definition delimiter_tokens : list str :=
  [lit "*"; lit "`"; lit "~"; lit "```"].

(** A stack entry that is not a backtick token: [*] or [~]. *)
Definition plain_token (tok : str) : Prop :=
  ∃ c, tok = [c] ∧ c ≠ backtick ∧ c ∈ single_char_symbols.

End MarkdownUtils.

Import MarkdownUtils.

(** ** bot_handlers.py: the chunk splitter of [send_long_message] *)

Module Splitter.

(** [for k in range(0, len(line), limit): chunks.append(line[k:k + limit])]
    for a positive [limit]; [line] is [line[k:]] and [fuel] bounds the
    number of slices. *)
Fixpoint slices_from (fuel limit : nat) (line : str) : list str :=
  match fuel with
  | O => []
  | S fuel =>
      match line with
      | [] => []
      | _ => take limit line :: slices_from fuel limit (drop limit line)
      end
  end.

(** The forced slicing of one over-long line.  [range] raises [ValueError]
    for a zero step ([None]) and is empty for a negative one. *)
Definition forced_slices (limit : Z) (line : str) : option (list str) :=
  if (limit =? 0)%Z then None
  else if (limit <? 0)%Z then Some []
  else Some (slices_from (length line) (Z.to_nat limit) line).

(** [('\n' if i < len(lines) - 1 else '')]. *)
Definition line_end (n i : nat) : str :=
  if bool_decide (i < n - 1) then [newline] else [].

(** The body of [for i, line in enumerate(lines)]; the state is
    [(chunks, current_chunk)] and [n] is [len(lines)]. *)
Definition split_line (limit : Z) (n i : nat) (line : str)
    (st : list str * str) : option (list str * str) :=
  let '(chunks, current_chunk) := st in
  if (limit <? Z.of_nat (length line))%Z then
    let '(chunks, current_chunk) :=
      if truthy current_chunk
      then (chunks ++ [strip current_chunk], [])
      else (chunks, current_chunk) in
    slices ← forced_slices limit line;
    Some (chunks ++ slices, current_chunk)
  else if (Z.of_nat (length current_chunk + length line + 1) <=? limit)%Z
  then Some (chunks, current_chunk ++ line ++ line_end n i)
  else Some (chunks ++ [strip current_chunk], line ++ line_end n i).

Fixpoint split_lines (limit : Z) (n i : nat) (lines : list str)
    (st : list str * str) : option (list str * str) :=
  match lines with
  | [] => Some st
  | line :: rest =>
      st' ← split_line limit n i line st;
      split_lines limit n (S i) rest st'
  end.

(** Lines 776-800 of [bot_handlers.py]: the list [chunks] built from
    [text_to_send]; [None] when the slicing raises. *)
Definition split_text (limit : Z) (text_to_send : str) : option (list str) :=
  let lines := split_newline text_to_send in
  '(chunks, current_chunk) ←
    split_lines limit (length lines) 0 lines ([], []);
  Some (if truthy (strip current_chunk)
        then chunks ++ [strip current_chunk]
        else chunks).

(** A text is rebuilt from a sequence of chunks by putting whitespace
    (possibly none) before, between and after them. *)
Inductive rebuilds : list str → str → Prop :=
| rebuilds_nil (gap : str) : blank gap → rebuilds [] gap
| rebuilds_cons (gap chunk : str) (chunks : list str) (text : str) :
    blank gap → rebuilds chunks text →
    rebuilds (chunk :: chunks) (gap ++ chunk ++ text).

(** A chunk within the limit. *)
Definition fits (limit : Z) (chunk : str) : Prop :=
  (Z.of_nat (length chunk) <= limit)%Z.

(** The lines of a text with their line ends, from line [i] on. *)
Fixpoint unsplit (n i : nat) (lines : list str) : str :=
  match lines with
  | [] => []
  | line :: rest => line ++ line_end n i ++ unsplit n (S i) rest
  end.

End Splitter.

Import Splitter.

(** ** The outside world: transport, AI backend, file download *)

Module World.

Inductive ParseMode := MARKDOWN | MARKDOWN_V2 | HTML.

Global Instance ParseMode_eq_dec : EqDecision ParseMode.
Proof. solve_decision. Defined.

(** The arguments of one [context.bot.send_message] call. *)
Record send_request := {
  req_chat_id : Z;
  req_text : str;
  req_reply_to_message_id : option Z;
  req_parse_mode : option ParseMode;
}.

(** What a [send_message] call does: it returns, or raises [RetryAfter],
    [BadRequest] (with its message), some other [TelegramError], or some
    other exception. *)
Inductive send_outcome :=
| Delivered
| RaiseRetryAfter (retry_after : Z)
| RaiseBadRequest (message : str)
| RaiseTelegramError
| RaiseException.

(** The argument of [asyncio.sleep]: the delay named by the provider, or
    the fixed 0.7 s between two chunks. *)
Inductive delay := provider_delay (retry_after : Z) | pacing_delay.

(** One element of a multimodal prompt: a text, or inline image data. *)
Inductive prompt_part :=
| TextPart (text : str)
| ImagePart (data : str).

(** What [generate_multimodal_response] does: it returns a reply (possibly
    [None]) or raises. *)
Inductive generate_outcome :=
| Reply (text : option str)
| GenerateRaises.

(** The calls made to the outside world, in the order they are made.  A
    [SendMessage] records the ordinal of the chunk it is made for ([None]
    for a notice). *)
Inductive event :=
| SendMessage (ordinal : option nat) (req : send_request)
| Sleep (d : delay)
| SendChatAction (chat_id : Z)
| GetFile (file_id : str)
| Generate (chat_id : Z) (prompt_parts : list prompt_part)
    (text_prompt_for_history : str).

Abbreviation trace := (list event).

(** The outside world answers each call from what has happened so far.
    [chat_action] tells whether [send_chat_action] returns ([true]) or
    raises. *)
Record world := {
  transport : trace → send_request → send_outcome;
  download : trace → str → option str;
  generate : trace → Z → list prompt_part → str → generate_outcome;
  chat_action : trace → Z → bool;
}.

(** [s.lower()] on code points below 256. *)
Definition lower_char (c : ascii) : ascii :=
  let n := nat_of_ascii c in
  if ((65 <=? n) && (n <=? 90))
     || ((192 <=? n) && (n <=? 222) && negb (n =? 215))
  then ascii_of_nat (n + 32) else c.

Definition lower (s : str) : str := map lower_char s.

Fixpoint startswith (s prefix : str) : bool :=
  match prefix, s with
  | [], _ => true
  | p :: prefix, c :: s => bool_decide (p = c) && startswith s prefix
  | _ :: _, [] => false
  end.

(** [needle in hay]. *)
Fixpoint contains (needle hay : str) : bool :=
  startswith hay needle ||
  match hay with
  | [] => false
  | _ :: hay => contains needle hay
  end.

End World.

Import World.

(** ** bot_handlers.py: the delivery loop of [send_long_message] *)

Module Delivery.

Section Engine.

Variable w : world.

(** [getattr(config, 'TELEGRAM_MAX_MESSAGE_LENGTH', 4096)]. *)
Variable TELEGRAM_MAX_MESSAGE_LENGTH : Z.

Variable chat_id : Z.
Variable reply_to_message_id : option Z.

Definition max_retries_markdown_fail : nat := 1.

Definition notice_bad_request : str :=
  lit "Maaf, terjadi kesalahan saat mengirim balasan (BadRequest).".
Definition notice_telegram_error : str :=
  lit "Maaf, terjadi kesalahan Telegram saat mengirim balasan.".
Definition notice_unexpected : str :=
  lit "Maaf, terjadi kesalahan tak terduga saat mengirim balasan.".

(** [await context.bot.send_message(...)]. *)
Definition send_message (ordinal : option nat) (req : send_request)
    (tr : trace) : send_outcome * trace :=
  (transport w tr req, tr ++ [SendMessage ordinal req]).

Definition sleep (d : delay) (tr : trace) : trace := tr ++ [Sleep d].

(** [try: await context.bot.send_message(chat_id=chat_id, text=...)
     except: pass]. *)
Definition send_notice (text : str) (tr : trace) : trace :=
  snd (send_message None
         {| req_chat_id := chat_id; req_text := text;
            req_reply_to_message_id := None; req_parse_mode := None |}
         tr).

(** ["can't parse entities" in str(e_bad_request).lower()]. *)
Definition cant_parse_entities (message : str) : bool :=
  contains (lit "can't parse entities") (lower message).

(** Lines 815-826: the text and the format a chunk is first sent in. *)
Definition prepare_chunk (parse_mode : option ParseMode) (chunk_text : str)
    : str * option ParseMode :=
  if bool_decide (parse_mode = Some MARKDOWN) then
    let text_for_current_chunk := ensure_valid_markdown chunk_text in
    if negb (truthy (strip text_for_current_chunk))
       && truthy (strip chunk_text)
    then (chunk_text, None)
    else (text_for_current_chunk, parse_mode)
  else (chunk_text, parse_mode).

(** One iteration of [for attempt in range(max_retries_markdown_fail + 1)]
    for chunk [i]: the [try] and its [except] clauses.  The boolean says
    whether the iteration ends in [break]; the state is
    [(text_for_current_chunk, current_parse_mode)]. *)
Definition send_attempt (i attempt : nat) (chunk_text : str)
    (st : str * option ParseMode) (tr : trace)
    : bool * (str * option ParseMode) * trace :=
  let '(text_for_current_chunk, current_parse_mode) := st in
  let current_reply_id :=
    if i =? 0 then reply_to_message_id else None in
  let '(outcome, tr) :=
    send_message (Some i)
      {| req_chat_id := chat_id; req_text := text_for_current_chunk;
         req_reply_to_message_id := current_reply_id;
         req_parse_mode := current_parse_mode |} tr in
  match outcome with
  | Delivered => (true, st, tr)
  | RaiseRetryAfter retry_after =>
      (false, st, sleep (provider_delay retry_after) tr)
  | RaiseBadRequest message =>
      if cant_parse_entities message
         && bool_decide (current_parse_mode = Some MARKDOWN)
         && (attempt <? max_retries_markdown_fail)
      then (false, (chunk_text, None), tr)
      else (true, st,
            if i =? 0 then send_notice notice_bad_request tr else tr)
  | RaiseTelegramError =>
      (true, st,
       if i =? 0 then send_notice notice_telegram_error tr else tr)
  | RaiseException =>
      (true, st,
       if (i =? 0) && bool_decide (reply_to_message_id = None)
       then send_notice notice_unexpected tr else tr)
  end.

(** [for attempt in range(max_retries_markdown_fail + 1)]. *)
Fixpoint attempt_loop (attempts : list nat) (i : nat) (chunk_text : str)
    (st : str * option ParseMode) (tr : trace) : trace :=
  match attempts with
  | [] => tr
  | attempt :: attempts =>
      let '(break, st, tr) := send_attempt i attempt chunk_text st tr in
      if break then tr else attempt_loop attempts i chunk_text st tr
  end.

(** The body of [for i, chunk_text in enumerate(chunks)]; [n] is
    [len(chunks)]. *)
Definition send_chunk (parse_mode : option ParseMode) (n i : nat)
    (chunk_text : str) (tr : trace) : trace :=
  if negb (truthy chunk_text) then tr
  else
    let tr :=
      attempt_loop (seq 0 (max_retries_markdown_fail + 1)) i chunk_text
        (prepare_chunk parse_mode chunk_text) tr in
    if (1 <? n) && (i <? n - 1) then sleep pacing_delay tr else tr.

Fixpoint send_chunks (parse_mode : option ParseMode) (n i : nat)
    (chunks : list str) (tr : trace) : trace :=
  match chunks with
  | [] => tr
  | chunk_text :: rest =>
      send_chunks parse_mode n (S i) rest
        (send_chunk parse_mode n i chunk_text tr)
  end.

(** [limit = TELEGRAM_MAX_MESSAGE_LENGTH - 20]. *)
Definition limit : Z := (TELEGRAM_MAX_MESSAGE_LENGTH - 20)%Z.

(** Lines 763-775: the text and format to deliver, or [None] for the
    early [return]. *)
Definition choose_text (text_to_send : str) (parse_mode : option ParseMode)
    (original_text_if_markdown_fails : option str)
    : option (str * option ParseMode) :=
  if truthy text_to_send then Some (text_to_send, parse_mode)
  else match original_text_if_markdown_fails with
       | Some original =>
           if truthy original && truthy (strip original)
           then Some (original, None) else None
       | None => None
       end.

(** [send_long_message]; the boolean is [false] when the call raises
    (the [ValueError] of a zero slicing step). *)
Definition send_long_message (text_to_send : str)
    (parse_mode : option ParseMode)
    (original_text_if_markdown_fails : option str)
    (tr : trace) : bool * trace :=
  match choose_text text_to_send parse_mode
          original_text_if_markdown_fails with
  | None => (true, tr)
  | Some (text_to_send, parse_mode) =>
      match split_text limit text_to_send with
      | None => (false, tr)
      | Some chunks =>
          (true, send_chunks parse_mode (length chunks) 0 chunks tr)
      end
  end.

End Engine.

(** *** Vocabulary of the statements about the delivery loop *)

(** The request chunk [i] is sent with. *)
Definition chunk_request (chat_id : Z) (reply_to_message_id : option Z)
    (i : nat) (text : str) (mode : option ParseMode) : send_request :=
  {| req_chat_id := chat_id; req_text := text;
     req_reply_to_message_id := if i =? 0 then reply_to_message_id else None;
     req_parse_mode := mode |}.

(** The call that sends an error notice. *)
Definition notice_event (chat_id : Z) (text : str) : event :=
  SendMessage None
    {| req_chat_id := chat_id; req_text := text;
       req_reply_to_message_id := None; req_parse_mode := None |}.

(** What follows the second, last send of chunk [i], by its outcome. *)
Definition last_attempt_events (chat_id : Z) (reply_to_message_id : option Z)
    (i : nat) (outcome : send_outcome) : list event :=
  match outcome with
  | Delivered => []
  | RaiseRetryAfter retry_after => [Sleep (provider_delay retry_after)]
  | RaiseBadRequest _ =>
      if i =? 0 then [notice_event chat_id notice_bad_request] else []
  | RaiseTelegramError =>
      if i =? 0 then [notice_event chat_id notice_telegram_error] else []
  | RaiseException =>
      if (i =? 0) && bool_decide (reply_to_message_id = None)
      then [notice_event chat_id notice_unexpected] else []
  end.

(** The pause after chunk [i] of [n]. *)
Definition pacing_events (n i : nat) : list event :=
  if (1 <? n) && (i <? n - 1) then [Sleep pacing_delay] else [].

(** A call respects the reply discipline when a chunk send carries the
    reply reference exactly if its ordinal is 0, and is a send of that chunk
    (raw or rebalanced); notices carry no reference. *)
Definition reply_discipline (reply_to_message_id : option Z)
    (chunks : list str) (ev : event) : Prop :=
  match ev with
  | SendMessage (Some i) req =>
      req_reply_to_message_id req
      = (if i =? 0 then reply_to_message_id else None) ∧
      ∃ chunk_text, chunks !! i = Some chunk_text ∧ chunk_text ≠ [] ∧
        (req_text req = chunk_text
         ∨ req_text req = ensure_valid_markdown chunk_text)
  | SendMessage None req => req_reply_to_message_id req = None
  | _ => True
  end.

(** A transport that delivers every message. *)
Definition reliable (w : world) : Prop :=
  ∀ tr req, transport w tr req = Delivered.

(** Worlds used in the examples: the transport answers by the number of
    calls made so far; nothing is downloaded or generated; the chat action
    returns. *)
Definition scripted (script : list send_outcome) : world :=
  {| transport := fun tr _ => default Delivered (script !! length tr);
     download := fun _ _ => None;
     generate := fun _ _ _ _ => GenerateRaises;
     chat_action := fun _ _ => true |}.

End Delivery.

Import Delivery.

(** ** bot_handlers.py: the media-group buffer *)

Module Aggregator.

(** One entry of a buffered media group (the dictionary appended by
    [handle_photo_message]). *)
Record img_detail := {
  file_id : str;
  caption_for_ai : option str;
  original_caption : option str;
  message_id : Z;
  is_reply_to_bot : bool;
  trigger_command_used_info : option str;
}.

(** A job of the job queue, scheduled by [run_once].  The name
    [f"process_media_group_{chat_id}_{media_group_id_str}"] determines the
    pair it is built from, so the pair stands for the name. *)
Record job := {
  job_name : Z * str;
  job_user_id : Z;
}.

(** [context.bot_data] and the job queue.  The keys
    [f"notified_overflow_{chat_id}_{media_group_id_str}"], which are only
    ever set to [True], are kept as the set of their pairs. *)
Record bot_state := {
  media_groups : option (gmap Z (gmap str (list img_detail)));
  notified_overflow : gset (Z * str);
  jobs : list job;
}.

Definition initial_state : bot_state :=
  {| media_groups := None; notified_overflow := ∅; jobs := [] |}.

(** [groups[chat_id][media_group_id_str]], when both keys are there. *)
Definition lookup_group (groups : gmap Z (gmap str (list img_detail)))
    (chat_id : Z) (media_group_id_str : str) : option (list img_detail) :=
  chat_groups ← groups !! chat_id;
  chat_groups !! media_group_id_str.

(** [bot_data['media_groups'][chat_id][media_group_id_str]], when all three
    keys are there. *)
Definition group_items (st : bot_state) (chat_id : Z)
    (media_group_id_str : str) : option (list img_detail) :=
  groups ← media_groups st;
  lookup_group groups chat_id media_group_id_str.

(** No list of the buffer holds two entries of one message. *)
Definition no_duplicates (st : bot_state) : Prop :=
  ∀ c g imgs, group_items st c g = Some imgs → NoDup (message_id <$> imgs).

(** An album photo as the examples use it. *)
Definition album_photo (id : Z) (caption trigger : option str) : img_detail :=
  {| file_id := lit "photo"; caption_for_ai := caption;
     original_caption := caption; message_id := id;
     is_reply_to_bot := false; trigger_command_used_info := trigger |}.

Section Handlers.

Variable w : world.

(** Values of [config.py]. *)
Variable TELEGRAM_MAX_MESSAGE_LENGTH : Z.
Variable MAX_IMAGE_INPUT : Z.
Variable DEFAULT_PROMPT_FOR_IMAGE_IF_NO_CAPTION : str.

(** [str(n)] for an integer. *)
Definition str_of_int (n : Z) : str :=
  lit (DecimalString.NilZero.string_of_int (Z.to_int n)).

Definition overflow_notice : str :=
  lit "Anda mengirim terlalu banyak gambar dalam satu album. Hanya "
  ++ str_of_int MAX_IMAGE_INPUT
  ++ lit " gambar pertama yang akan diproses.".

(** [any(img['message_id'] == message.message_id for img in ...)]. *)
Definition is_duplicate (msg_id : Z) (imgs : list img_detail) : bool :=
  existsb (fun img => bool_decide (message_id img = msg_id)) imgs.

(** The entry a group holds after a photo arrives for it. *)
Definition after_arrival (img : img_detail) (old : list img_detail)
    : list img_detail :=
  if negb (is_duplicate (message_id img) old)
     && (Z.of_nat (length old) <? MAX_IMAGE_INPUT)%Z
  then old ++ [img] else old.

(** Lines 334-339: the three [if ... not in ...] creations. *)
Definition ensure_group (chat_id : Z) (media_group_id_str : str)
    (st : bot_state) : gmap Z (gmap str (list img_detail)) :=
  let groups := default ∅ (media_groups st) in
  let chat_groups := default ∅ (groups !! chat_id) in
  let chat_groups :=
    match chat_groups !! media_group_id_str with
    | Some _ => chat_groups
    | None => <[media_group_id_str := []]> chat_groups
    end in
  <[chat_id := chat_groups]> groups.

(** Lines 381-393: drop the pending jobs of that name, schedule one. *)
Definition reschedule (chat_id : Z) (media_group_id_str : str)
    (user_id : Z) (queue : list job) : list job :=
  filter (fun j => job_name j ≠ (chat_id, media_group_id_str)) queue
  ++ [{| job_name := (chat_id, media_group_id_str);
         job_user_id := user_id |}].

(** The media-group branch of [handle_photo_message] (lines 329-396) for
    a photo the bot responds to; [img] is the entry built from the
    message.  The boolean is [false] when the handler raises. *)
Definition add_to_media_group (chat_id : Z) (media_group_id_str : str)
    (user_id : Z) (img : img_detail) (st : bot_state) (tr : trace)
    : bool * bot_state * trace :=
  let groups := ensure_group chat_id media_group_id_str st in
  let chat_groups := default ∅ (groups !! chat_id) in
  let current_images_in_group :=
    default [] (chat_groups !! media_group_id_str) in
  let duplicate := is_duplicate (message_id img) current_images_in_group in
  let room :=
    (Z.of_nat (length current_images_in_group) <? MAX_IMAGE_INPUT)%Z in
  let scheduled (groups : gmap Z (gmap str (list img_detail)))
      (notified : gset (Z * str)) :=
    {| media_groups := Some groups;
       notified_overflow := notified;
       jobs := reschedule chat_id media_group_id_str user_id (jobs st) |} in
  if negb duplicate && room then
    let chat_groups :=
      <[media_group_id_str := current_images_in_group ++ [img]]>
        chat_groups in
    (true, scheduled (<[chat_id := chat_groups]> groups)
             (notified_overflow st), tr)
  else if negb duplicate then
    if bool_decide ((chat_id, media_group_id_str) ∈ notified_overflow st)
    then (true, scheduled groups (notified_overflow st), tr)
    else
      let req :=
        {| req_chat_id := chat_id; req_text := overflow_notice;
           req_reply_to_message_id := Some (message_id img);
           req_parse_mode := None |} in
      let tr' := tr ++ [SendMessage None req] in
      match transport w tr req with
      | Delivered =>
          (true,
           scheduled groups
             ({[ (chat_id, media_group_id_str) ]} ∪ notified_overflow st),
           tr')
      | _ =>
          (false,
           {| media_groups := Some groups;
              notified_overflow := notified_overflow st;
              jobs := jobs st |}, tr')
      end
  else (true, scheduled groups (notified_overflow st), tr).

(** Lines 458-469: take the group out of the buffer, drop the
    dictionaries it leaves empty, forget the overflow flag. *)
Definition pop_media_group (chat_id : Z) (media_group_id_str : str)
    (st : bot_state) : option (list img_detail) * bot_state :=
  let '(data, groups) :=
    match media_groups st with
    | Some groups =>
        match groups !! chat_id with
        | Some chat_groups =>
            match chat_groups !! media_group_id_str with
            | Some imgs =>
                let chat_groups := delete media_group_id_str chat_groups in
                let groups :=
                  if bool_decide (chat_groups = ∅)
                  then delete chat_id groups
                  else <[chat_id := chat_groups]> groups in
                (Some imgs,
                 if bool_decide (groups = ∅) then None else Some groups)
            | None => (None, Some groups)
            end
        | None => (None, Some groups)
        end
    | None => (None, None)
    end in
  (data,
   {| media_groups := groups;
      notified_overflow :=
        notified_overflow st ∖ {[ (chat_id, media_group_id_str) ]};
      jobs := jobs st |}).

Definition triggered (img : img_detail) : bool :=
  truthy_opt (trigger_command_used_info img) || is_reply_to_bot img.

(** Lines 480-510: the text prompt of the group. *)
Definition choose_prompt (imgs : list img_detail) : str :=
  let final_text_prompt : option str :=
    match List.find triggered imgs with
    | Some img => caption_for_ai img
    | None => None
    end in
  let final_text_prompt : option str :=
    match final_text_prompt with
    | None =>
        match List.find (fun img => truthy_opt (caption_for_ai img)) imgs
        with
        | Some img => caption_for_ai img
        | None => None
        end
    | Some _ => final_text_prompt
    end in
  match final_text_prompt with
  | Some prompt =>
      if truthy prompt then prompt
      else DEFAULT_PROMPT_FOR_IMAGE_IF_NO_CAPTION
  | None => DEFAULT_PROMPT_FOR_IMAGE_IF_NO_CAPTION
  end.

(** Lines 520-540: download the images, skipping those that fail. *)
Fixpoint download_images (imgs : list img_detail)
    (prompt_parts : list prompt_part) (images_processed_count : Z)
    (tr : trace) : list prompt_part * Z * trace :=
  match imgs with
  | [] => (prompt_parts, images_processed_count, tr)
  | img :: rest =>
      if (MAX_IMAGE_INPUT <=? images_processed_count)%Z
      then (prompt_parts, images_processed_count, tr)
      else
        let tr' := tr ++ [GetFile (file_id img)] in
        match download w tr (file_id img) with
        | Some image_bytes =>
            download_images rest (prompt_parts ++ [ImagePart image_bytes])
              (images_processed_count + 1)%Z tr'
        | None =>
            download_images rest prompt_parts images_processed_count tr'
        end
  end.

(** [try: send_message(chat_id, text, reply_to_message_id=...)
     except <caught>: send_message(chat_id, text)].  The boolean is
    [false] when an exception escapes. *)
Definition send_or_resend (caught : send_outcome → bool) (chat_id : Z)
    (text : str) (reply_to : option Z) (tr : trace) : bool * trace :=
  let req :=
    {| req_chat_id := chat_id; req_text := text;
       req_reply_to_message_id := reply_to; req_parse_mode := None |} in
  let tr1 := tr ++ [SendMessage None req] in
  match transport w tr req with
  | Delivered => (true, tr1)
  | failure =>
      if caught failure then
        let req' :=
          {| req_chat_id := chat_id; req_text := text;
             req_reply_to_message_id := None; req_parse_mode := None |} in
        let tr2 := tr1 ++ [SendMessage None req'] in
        match transport w tr1 req' with
        | Delivered => (true, tr2)
        | _ => (false, tr2)
        end
      else (false, tr1)
  end.

Definition any_exception (o : send_outcome) : bool := true.
Definition is_bad_request (o : send_outcome) : bool :=
  match o with RaiseBadRequest _ => true | _ => false end.

Definition apology_no_image : str :=
  lit "Maaf, saya gagal memproses gambar-gambar yang Anda kirim dalam album ini.".
Definition apology_no_reply : str :=
  lit "Maaf, saya tidak bisa memproses gambar-gambar ini saat ini (tidak ada respons AI).".
Definition apology_internal : str :=
  lit "Terjadi kesalahan internal saat memproses album gambar Anda.".

(** Lines 477-600: everything the callback does with the items it took
    out of the buffer.  The chat action of line 477 is outside every [try]:
    when it raises, the callback ends there. *)
Definition process_items (chat_id : Z) (imgs : list img_detail)
    (tr : trace) : bool * trace :=
  if negb (chat_action w tr chat_id)
  then (false, tr ++ [SendChatAction chat_id])
  else
  let tr := tr ++ [SendChatAction chat_id] in
  let final_text_prompt := choose_prompt imgs in
  let first_message_id_in_group := message_id <$> head imgs in
  let '(prompt_parts, images_processed_count, tr) :=
    download_images imgs [TextPart final_text_prompt] 0%Z tr in
  if (images_processed_count =? 0)%Z then
    send_or_resend any_exception chat_id apology_no_image
      first_message_id_in_group tr
  else
    let tr1 :=
      tr ++ [Generate chat_id prompt_parts final_text_prompt] in
    let '(ok, tr2) :=
      match generate w tr chat_id prompt_parts final_text_prompt with
      | Reply (Some gemini_reply_raw) =>
          if truthy gemini_reply_raw then
            send_long_message w TELEGRAM_MAX_MESSAGE_LENGTH chat_id
              first_message_id_in_group
              (ensure_valid_markdown gemini_reply_raw) (Some MARKDOWN)
              (Some gemini_reply_raw) tr1
          else
            send_or_resend is_bad_request chat_id apology_no_reply
              first_message_id_in_group tr1
      | Reply None =>
          send_or_resend is_bad_request chat_id apology_no_reply
            first_message_id_in_group tr1
      | GenerateRaises => (false, tr1)
      end in
    if ok then (true, tr2)
    else
      send_or_resend is_bad_request chat_id apology_internal
        first_message_id_in_group tr2.

(** [process_media_group_callback] for the job data
    [(media_group_id_str, chat_id)]. *)
Definition process_media_group_callback (chat_id : Z)
    (media_group_id_str : str) (st : bot_state) (tr : trace)
    : bool * bot_state * trace :=
  let '(media_group_images_data, st) :=
    pop_media_group chat_id media_group_id_str st in
  match media_group_images_data with
  | None | Some [] => (true, st, tr)
  | Some imgs =>
      let '(ok, tr) := process_items chat_id imgs tr in
      (ok, st, tr)
  end.

(** What happens to the buffer over time: photos of media groups arrive
    and timers fire. *)
Inductive step :=
| Arrive (chat_id : Z) (media_group_id_str : str) (user_id : Z)
    (img : img_detail)
| Fire (chat_id : Z) (media_group_id_str : str).

Definition run_step (s : step) (st : bot_state) (tr : trace)
    : bot_state * trace :=
  match s with
  | Arrive chat_id media_group_id_str user_id img =>
      let '(_, st, tr) :=
        add_to_media_group chat_id media_group_id_str user_id img st tr in
      (st, tr)
  | Fire chat_id media_group_id_str =>
      (* the job leaves the queue and its callback runs *)
      let st :=
        {| media_groups := media_groups st;
           notified_overflow := notified_overflow st;
           jobs := filter
             (fun j => job_name j ≠ (chat_id, media_group_id_str))
             (jobs st) |} in
      let '(_, st, tr) :=
        process_media_group_callback chat_id media_group_id_str st tr in
      (st, tr)
  end.

Fixpoint run (steps : list step) (st : bot_state) (tr : trace)
    : bot_state * trace :=
  match steps with
  | [] => (st, tr)
  | s :: steps => let '(st, tr) := run_step s st tr in run steps st tr
  end.

End Handlers.

End Aggregator.

Import Aggregator.

(** ** bot_handlers.py: which messages the bot answers *)

Module Routing.

(** [telegram.constants.ChatType]. *)
Inductive ChatType := SENDER | PRIVATE | GROUP | SUPERGROUP | CHANNEL.

Global Instance ChatType_eq_dec : EqDecision ChatType.
Proof. solve_decision. Defined.

(** [chat_type in [ChatType.GROUP, ChatType.SUPERGROUP]]. *)
Definition in_group (chat_type : ChatType) : bool :=
  bool_decide (chat_type = GROUP) || bool_decide (chat_type = SUPERGROUP).

(** [s[n].isspace()] for an index known to be within [s]. *)
Definition isspace_at (s : str) (n : nat) : bool :=
  match s !! n with Some c => isspace c | None => false end.

Section Triggers.

(** [config.GROUP_TRIGGER_COMMANDS]. *)
Variable GROUP_TRIGGER_COMMANDS : list str.

(** [handle_message], lines 78-98: the loop over the trigger commands for a
    text message of a group; the result is
    [(actual_message_to_process, trigger_command_used)] of the iteration
    that ends in [break], or [None] when the loop runs to its end. *)
Fixpoint match_trigger (commands : list str) (user_message msg_lower : str)
    : option (str * str) :=
  match commands with
  | [] => None
  | trigger_command_config :: commands =>
      let trigger := lower trigger_command_config in
      if startswith msg_lower trigger then
        if length msg_lower =? length trigger
        then Some ([], trigger_command_config)
        else if (length trigger <? length msg_lower)
                && isspace_at msg_lower (length trigger)
        then Some (strip (drop (length trigger) user_message),
                   trigger_command_config)
        else match_trigger commands user_message msg_lower
      else match_trigger commands user_message msg_lower
  end.

(** [handle_message], lines 64-103: [(should_respond,
    actual_message_to_process, trigger_command_used)] for a message with a
    text; [replies_to_bot] is [message.reply_to_message and
    message.reply_to_message.from_user.id == bot_id]. *)
Definition route_message (chat_type : ChatType) (replies_to_bot : bool)
    (user_message : str) : bool * str * option str :=
  if bool_decide (chat_type = PRIVATE) then (true, user_message, None)
  else if in_group chat_type then
    if replies_to_bot then (true, user_message, None)
    else
      match match_trigger GROUP_TRIGGER_COMMANDS user_message
              (lower user_message) with
      | Some (actual_message_to_process, trigger_command_used) =>
          (true, actual_message_to_process, Some trigger_command_used)
      | None => (false, user_message, None)
      end
  else (false, user_message, None).

(** What [handle_message] does with a message, up to the call of the AI
    backend (lines 52-126). *)
Inductive text_decision :=
| NoReply
| AskForQuestion (trigger_command_used : str)
| EmptyIgnored
| AskGemini (actual_message_to_process : str).

Definition handle_message_decision (chat_type : ChatType)
    (replies_to_bot : bool) (user_message : option str) : text_decision :=
  match user_message with
  | None => NoReply
  | Some user_message =>
      if negb (truthy user_message) then NoReply
      else
        let '(should_respond, actual_message_to_process,
              trigger_command_used) :=
          route_message chat_type replies_to_bot user_message in
        if negb should_respond then NoReply
        else if negb (truthy actual_message_to_process)
                && in_group chat_type && truthy_opt trigger_command_used
        then AskForQuestion (default [] trigger_command_used)
        else if negb (truthy actual_message_to_process)
                && negb (in_group chat_type
                         && truthy_opt trigger_command_used)
        then EmptyIgnored
        else AskGemini actual_message_to_process
  end.

(** [handle_photo_message], lines 292-308: the loop over the trigger
    commands for a captioned photo of a group.  The first command that is a
    prefix of the caption ends the loop, whether or not it is followed by
    the end of the caption or by whitespace; the result is [(should_respond,
    actual_caption_to_process, trigger_command_used_info)]. *)
Fixpoint match_photo_trigger (commands : list str)
    (caption caption_lower : str) : bool * option str * option str :=
  match commands with
  | [] => (false, Some caption, None)
  | trigger_command_config :: commands =>
      let trigger := lower trigger_command_config in
      if startswith caption_lower trigger then
        if (length caption_lower =? length trigger)
           || isspace_at caption_lower (length trigger)
        then (true, Some (strip (drop (length trigger) caption)),
              Some trigger_command_config)
        else (false, Some caption, None)
      else match_photo_trigger commands caption caption_lower
  end.

(** [handle_photo_message], lines 277-316: [(should_respond,
    actual_caption_to_process, trigger_command_used_info)]. *)
Definition route_photo (chat_type : ChatType) (replies_to_bot : bool)
    (caption : option str) : bool * option str * option str :=
  if bool_decide (chat_type = PRIVATE) then (true, caption, None)
  else if in_group chat_type then
    if replies_to_bot then (true, caption, None)
    else
      match caption with
      | Some caption_text =>
          if truthy caption_text
          then match_photo_trigger GROUP_TRIGGER_COMMANDS caption_text
                 (lower caption_text)
          else (false, caption, None)
      | None => (false, caption, None)
      end
  else (false, caption, None).

End Triggers.

(** The fields of a photo message the handler reads. *)
Record photo_message := {
  photo_chat_id : Z;
  photo_chat_type : ChatType;
  photo_user_id : Z;
  photo_message_id : Z;
  photo_file_id : str;
  photo_caption : option str;
  photo_media_group_id : option str;
  photo_replies_to_bot : bool;
}.

Section PhotoHandler.

Variable w : world.

(** Values of [config.py]. *)
Variable GROUP_TRIGGER_COMMANDS : list str.
Variable IMAGE_UNDERSTANDING_ENABLED : bool.
Variable MAX_IMAGE_INPUT : Z.
Variable DEFAULT_PROMPT_FOR_IMAGE_IF_NO_CAPTION : str.

Definition apology_single_no_reply : str :=
  lit "Maaf, saya tidak bisa memproses gambar ini saat ini.".
Definition apology_single_error : str :=
  lit "Terjadi kesalahan saat memproses gambar Anda.".

(** [await message.reply_text(text, parse_mode=..., quote=True)]. *)
Definition reply_quoting (msg : photo_message) (text : str)
    (mode : option ParseMode) (tr : trace) : send_outcome * trace :=
  let req :=
    {| req_chat_id := photo_chat_id msg; req_text := text;
       req_reply_to_message_id := Some (photo_message_id msg);
       req_parse_mode := mode |} in
  (transport w tr req, tr ++ [SendMessage None req]).

(** Lines 405-410: the text prompt of a single photo. *)
Definition single_photo_prompt (actual_caption_to_process : option str)
    : str :=
  match actual_caption_to_process with
  | Some text_prompt =>
      if truthy text_prompt then text_prompt
      else DEFAULT_PROMPT_FOR_IMAGE_IF_NO_CAPTION
  | None => DEFAULT_PROMPT_FOR_IMAGE_IF_NO_CAPTION
  end.

(** Lines 398-446: a photo that is not part of a media group.  The boolean
    is [false] when an exception escapes the handler: the chat action of
    line 399, which is outside the [try], raised, or the last reply
    failed. *)
Definition handle_single_photo (msg : photo_message)
    (actual_caption_to_process : option str) (tr : trace) : bool * trace :=
  if negb (chat_action w tr (photo_chat_id msg))
  then (false, tr ++ [SendChatAction (photo_chat_id msg)])
  else
  let tr := tr ++ [SendChatAction (photo_chat_id msg)] in
  let failed (tr : trace) : bool * trace :=
    let '(outcome, tr) := reply_quoting msg apology_single_error None tr in
    (match outcome with Delivered => true | _ => false end, tr) in
  let tr1 := tr ++ [GetFile (photo_file_id msg)] in
  match download w tr (photo_file_id msg) with
  | None => failed tr1
  | Some image_bytes =>
      let text_prompt := single_photo_prompt actual_caption_to_process in
      let prompt_parts :=
        (if truthy text_prompt then [TextPart text_prompt] else [])
        ++ [ImagePart image_bytes] in
      let tr2 :=
        tr1 ++ [Generate (photo_chat_id msg) prompt_parts text_prompt] in
      let answered (text : str) (mode : option ParseMode) : bool * trace :=
        let '(outcome, tr) := reply_quoting msg text mode tr2 in
        match outcome with
        | Delivered => (true, tr)
        | _ => failed tr
        end in
      match generate w tr1 (photo_chat_id msg) prompt_parts text_prompt with
      | Reply (Some gemini_reply_raw) =>
          if truthy gemini_reply_raw
          then answered (ensure_valid_markdown gemini_reply_raw)
                 (Some MARKDOWN)
          else answered apology_single_no_reply None
      | Reply None => answered apology_single_no_reply None
      | GenerateRaises => failed tr2
      end
  end.

(** [handle_photo_message]. *)
Definition handle_photo_message (msg : photo_message) (st : bot_state)
    (tr : trace) : bool * bot_state * trace :=
  if negb IMAGE_UNDERSTANDING_ENABLED then (true, st, tr)
  else
    let '(should_respond, actual_caption_to_process,
          trigger_command_used_info) :=
      route_photo GROUP_TRIGGER_COMMANDS (photo_chat_type msg)
        (photo_replies_to_bot msg) (photo_caption msg) in
    if negb should_respond then (true, st, tr)
    else
      (* [if message.media_group_id:] is false for [None] and for [''] *)
      if truthy_opt (photo_media_group_id msg) then
        let media_group_id_str := default [] (photo_media_group_id msg) in
        add_to_media_group w MAX_IMAGE_INPUT (photo_chat_id msg)
          media_group_id_str (photo_user_id msg)
          {| file_id := photo_file_id msg;
             caption_for_ai := actual_caption_to_process;
             original_caption := photo_caption msg;
             message_id := photo_message_id msg;
             is_reply_to_bot := photo_replies_to_bot msg;
             trigger_command_used_info := trigger_command_used_info |}
          st tr
      else
        let '(ok, tr) :=
          handle_single_photo msg actual_caption_to_process tr in
        (ok, st, tr).

End PhotoHandler.

(** The fields of a text message the handler reads. *)
Record text_message := {
  text_chat_id : Z;
  text_chat_type : ChatType;
  text_message_id : Z;
  text_text : option str;
  text_replies_to_bot : bool;
}.

Section TextHandler.

Variable w : world.

(** [config.GROUP_TRIGGER_COMMANDS]. *)
Variable GROUP_TRIGGER_COMMANDS : list str.

(** [Message.reply_text] called without [quote]: whether the library makes
    the message a reply to the one it answers is decided by the library from
    the type of the chat and the defaults of the bot. *)
Variable quote_by_default : ChatType → bool.

Definition ask_for_question (trigger_command_used : str) : str :=
  lit "Mohon sertakan pertanyaan Anda setelah `" ++ trigger_command_used
  ++ lit "` atau periksa /help.".
Definition sorry_fallback : str :=
  lit "Maaf, saya kesulitan mengirim balasan. Silakan coba lagi.".
Definition sorry_send : str :=
  lit "Maaf, terjadi kesalahan saat mengirim balasan.".
Definition sorry_unexpected : str :=
  lit "Maaf, terjadi kesalahan tak terduga saat mengirim balasan.".
Definition sorry_internal : str :=
  lit "Maaf, terjadi kesalahan internal saat memproses permintaan Anda.".

(** [await message.reply_text(text, parse_mode=...)]. *)
Definition reply_text (msg : text_message) (text : str)
    (mode : option ParseMode) (tr : trace) : send_outcome * trace :=
  let req :=
    {| req_chat_id := text_chat_id msg; req_text := text;
       req_reply_to_message_id :=
         if quote_by_default (text_chat_type msg)
         then Some (text_message_id msg) else None;
       req_parse_mode := mode |} in
  (transport w tr req, tr ++ [SendMessage None req]).

(** A [reply_text] that no [try] surrounds: the handler ends with it, and
    raises when it raises. *)
Definition last_reply (msg : text_message) (text : str)
    (mode : option ParseMode) (tr : trace) : bool * trace :=
  let '(outcome, tr) := reply_text msg text mode tr in
  (match outcome with Delivered => true | _ => false end, tr).

(** Lines 144-181: the reply of the AI backend is sent in Markdown; when
    the provider cannot parse it, the raw reply is sent as plain text. *)
Definition send_reply (msg : text_message) (gemini_reply_raw : str)
    (tr : trace) : bool * trace :=
  let gemini_reply_markdown := ensure_valid_markdown gemini_reply_raw in
  let '(outcome, tr) :=
    reply_text msg gemini_reply_markdown (Some MARKDOWN) tr in
  match outcome with
  | Delivered => (true, tr)
  | RaiseBadRequest e =>
      if cant_parse_entities e then
        let gemini_reply_plain := gemini_reply_raw in
        let '(outcome, tr) := reply_text msg gemini_reply_plain None tr in
        match outcome with
        | Delivered => (true, tr)
        | _ => last_reply msg sorry_fallback None tr
        end
      else last_reply msg sorry_send None tr
  | _ => last_reply msg sorry_unexpected None tr
  end.

(** Lines 133-187: the call of the AI backend and the reply.  The chat
    action and the call of the backend are outside every [try]: when one
    raises, the handler ends there.  The prompt for the history is [None]
    in the source when the text is empty; it is the empty text here. *)
Definition ask_gemini (msg : text_message)
    (actual_message_to_process : str) (tr : trace) : bool * trace :=
  let chat_id := text_chat_id msg in
  if negb (chat_action w tr chat_id)
  then (false, tr ++ [SendChatAction chat_id])
  else
  let tr := tr ++ [SendChatAction chat_id] in
  let text_parts :=
    if truthy actual_message_to_process
    then [TextPart actual_message_to_process] else [] in
  let text_prompt_for_history :=
    if truthy actual_message_to_process
    then actual_message_to_process else [] in
  let tr1 := tr ++ [Generate chat_id text_parts text_prompt_for_history] in
  match generate w tr chat_id text_parts text_prompt_for_history with
  | Reply (Some gemini_reply_raw) =>
      if truthy gemini_reply_raw then send_reply msg gemini_reply_raw tr1
      else last_reply msg sorry_internal None tr1
  | Reply None => last_reply msg sorry_internal None tr1
  | GenerateRaises => (false, tr1)
  end.

(** [handle_message].  The boolean is [false] when an exception escapes
    the handler. *)
Definition handle_message (msg : text_message) (tr : trace)
    : bool * trace :=
  match handle_message_decision GROUP_TRIGGER_COMMANDS (text_chat_type msg)
          (text_replies_to_bot msg) (text_text msg) with
  | NoReply => (true, tr)
  | AskForQuestion trigger_command_used =>
      last_reply msg (ask_for_question trigger_command_used)
        (Some MARKDOWN) tr
  | EmptyIgnored => (true, tr)
  | AskGemini actual_message_to_process =>
      ask_gemini msg actual_message_to_process tr
  end.

End TextHandler.

End Routing.

Import Routing.

(** ** Counting the calls of a trace *)

Module Observations.

Definition is_notice (ev : event) : bool :=
  match ev with SendMessage None _ => true | _ => false end.

Definition is_send_of (i : nat) (ev : event) : bool :=
  match ev with SendMessage (Some j) _ => i =? j | _ => false end.

Definition is_generate (ev : event) : bool :=
  match ev with Generate _ _ _ => true | _ => false end.

Definition is_get_file (ev : event) : bool :=
  match ev with GetFile _ => true | _ => false end.

Definition is_provider_sleep (ev : event) : bool :=
  match ev with Sleep (provider_delay _) => true | _ => false end.

Definition is_image_part (part : prompt_part) : bool :=
  match part with ImagePart _ => true | TextPart _ => false end.

(** How many elements of a list pass a test. *)
Definition count {A : Type} (test : A → bool) (l : list A) : nat :=
  length (List.filter test l).

(** The texts handed to the transport, in order. *)
Definition sent_texts (evs : list event) : list str :=
  omap (fun ev =>
          match ev with
          | SendMessage _ req => Some (req_text req)
          | _ => None
          end) evs.

(** The reply references handed to the transport. *)
Definition reply_references (evs : list event) : list (option Z) :=
  omap (fun ev =>
          match ev with
          | SendMessage _ req => Some (req_reply_to_message_id req)
          | _ => None
          end) evs.

(** The characters the balancer reacts to. *)
Definition is_delimiter (c : ascii) : bool :=
  bool_decide (c ∈ single_char_symbols).

(** The characters of the tokens on a stack. *)
Definition weight (stack : list str) : nat := length (join stack).

(** The events a call adds to the trace it starts from. *)
Definition added (before after : trace) : list event :=
  drop (length before) after.

(** The requests the delivery loop may make for chunk [i]: the chunk as it
    is first prepared, or the raw chunk in plain format. *)
Definition chunk_send_form (chat_id : Z) (reply_to_message_id : option Z)
    (mode : option ParseMode) (chunks : list str) (i : nat)
    (req : send_request) : Prop :=
  ∃ chunk_text, chunks !! i = Some chunk_text ∧ chunk_text ≠ [] ∧
    (req = chunk_request chat_id reply_to_message_id i
             (prepare_chunk mode chunk_text).1
             (prepare_chunk mode chunk_text).2
     ∨ req = chunk_request chat_id reply_to_message_id i chunk_text None).

(** The calls the delivery loop may make. *)
Definition delivery_event (chat_id : Z) (reply_to_message_id : option Z)
    (mode : option ParseMode) (chunks : list str) (ev : event) : Prop :=
  match ev with
  | SendMessage (Some i) req =>
      chunk_send_form chat_id reply_to_message_id mode chunks i req
  | SendMessage None req =>
      ∃ text, text ∈ [notice_bad_request; notice_telegram_error;
                      notice_unexpected] ∧
        ev = notice_event chat_id text
  | Sleep _ => True
  | _ => False
  end.

(** A call that answers the user: a message that replies to the given
    message or to none, or a sleep. *)
Definition reply_event (first : option Z) (ev : event) : Prop :=
  match ev with
  | SendMessage _ req =>
      req_reply_to_message_id req = first
      ∨ req_reply_to_message_id req = None
  | Sleep _ => True
  | _ => False
  end.

(** A message (in lower case) begins with a trigger command that is
    followed by the end of the message or by whitespace. *)
Definition addresses (msg_lower trigger : str) : bool :=
  startswith msg_lower trigger
  && ((length msg_lower =? length trigger)
      || isspace_at msg_lower (length trigger)).

(** A call that quotes a photo message: any message sent goes to the chat of
    the photo as a reply to it. *)
Definition quotes (msg : photo_message) (ev : event) : Prop :=
  match ev with
  | SendMessage ordinal req =>
      ordinal = None ∧ req_chat_id req = photo_chat_id msg ∧
      req_reply_to_message_id req = Some (photo_message_id msg)
  | _ => True
  end.

(** [msg.reply_text(text, parse_mode=mode, quote=True)] as an event. *)
Definition quote (msg : photo_message) (reply : str * option ParseMode)
    : event :=
  SendMessage None
    {| req_chat_id := photo_chat_id msg; req_text := reply.1;
       req_reply_to_message_id := Some (photo_message_id msg);
       req_parse_mode := reply.2 |}.

(** [msg.reply_text(text, parse_mode=mode)] as an event. *)
Definition answer (quote_by_default : ChatType → bool) (msg : text_message)
    (reply : str * option ParseMode) : event :=
  SendMessage None
    {| req_chat_id := text_chat_id msg; req_text := reply.1;
       req_reply_to_message_id :=
         if quote_by_default (text_chat_type msg)
         then Some (text_message_id msg) else None;
       req_parse_mode := reply.2 |}.

(** The replies [handle_message] may make to a reply [raw] of the AI
    backend, with their formats. *)
Definition reply_conversations (raw : str)
    : list (list (str * option ParseMode)) :=
  let markdown := (ensure_valid_markdown raw, Some MARKDOWN) in
  [ [markdown];
    [markdown; (raw, None)];
    [markdown; (raw, None); (sorry_fallback, None)];
    [markdown; (sorry_send, None)];
    [markdown; (sorry_unexpected, None)] ].

(** No download succeeds. *)
Definition no_download (w : world) : Prop :=
  ∀ tr file_id, download w tr file_id = None.

(** A world in which every message is delivered, the chat action returns,
    every download gives the same bytes and the AI backend gives the same
    answer. *)
Definition answering (reply : option str) : world :=
  {| transport := fun _ _ => Delivered;
     download := fun _ _ => Some (lit "jpeg");
     generate := fun _ _ _ _ => Reply reply;
     chat_action := fun _ _ => true |}.

End Observations.

Import Observations.

(** ** Facts about strings *)

Section StrFacts.

Lemma length_lstrip (s : str) : length (lstrip s) <= length s.
Proof.
  induction s as [|c s IH]; simpl; [lia|].
  destruct (isspace c); simpl; lia.
Qed.

Lemma length_strip (s : str) : length (strip s) <= length s.
Proof.
  unfold strip, rstrip. rewrite length_reverse.
  etransitivity; [apply length_lstrip|].
  rewrite length_reverse. apply length_lstrip.
Qed.

Lemma lstrip_blank (s : str) : blank s → lstrip s = [].
Proof.
  induction 1 as [|c s Hc _ IH]; simpl; [done|]. by rewrite Hc.
Qed.

(** What [lstrip] removes is whitespace. *)
Lemma lstrip_split (s : str) : ∃ gap, blank gap ∧ s = gap ++ lstrip s.
Proof.
  induction s as [|c s (gap & Hgap & IH)]; simpl.
  - exists []. split; [constructor|done].
  - destruct (isspace c) eqn:Hc.
    + exists (c :: gap). split; [by constructor|]. simpl. by f_equal.
    + exists []. split; [constructor|done].
Qed.

Lemma blank_app (s t : str) : blank s → blank t → blank (s ++ t).
Proof. apply Forall_app_2. Qed.

Lemma blank_reverse (s : str) : blank s → blank (reverse s).
Proof. apply Forall_reverse. Qed.

Lemma rstrip_split (s : str) : ∃ gap, blank gap ∧ s = rstrip s ++ gap.
Proof.
  destruct (lstrip_split (reverse s)) as (gap & Hgap & Heq).
  exists (reverse gap). split; [by apply blank_reverse|].
  unfold rstrip. rewrite <- reverse_app, <- Heq.
  by rewrite reverse_involutive.
Qed.

(** [strip] removes whitespace at both ends and nothing else. *)
Lemma strip_split (s : str) :
  ∃ before after, blank before ∧ blank after ∧ s = before ++ strip s ++ after.
Proof.
  destruct (lstrip_split s) as (before & Hb & Hs).
  destruct (rstrip_split (lstrip s)) as (after & Ha & Hl).
  exists before, after. repeat split; [done..|].
  unfold strip. by rewrite <- Hl.
Qed.

Lemma strip_empty_blank (s : str) : strip s = [] → blank s.
Proof.
  intros He. destruct (strip_split s) as (b & a & Hb & Ha & Hs).
  rewrite Hs, He. simpl. by apply blank_app.
Qed.

Lemma rstrip_snoc_space (s : str) (c : ascii) :
  isspace c = true → rstrip (s ++ [c]) = rstrip s.
Proof.
  intros Hc. unfold rstrip. rewrite reverse_app. simpl. by rewrite Hc.
Qed.

Lemma lstrip_snoc (s : str) (c : ascii) :
  lstrip (s ++ [c]) = lstrip s ++ [c] ∨ lstrip (s ++ [c]) = lstrip [c].
Proof.
  induction s as [|d s IH]; simpl; [by right|].
  destruct (isspace d); [done|by left].
Qed.

(** A trailing whitespace character never survives [strip]. *)
Lemma length_strip_snoc_space (s : str) (c : ascii) :
  isspace c = true → length (strip (s ++ [c])) <= length s.
Proof.
  intros Hc. unfold strip. destruct (lstrip_snoc s c) as [-> | ->].
  - rewrite rstrip_snoc_space by done.
    unfold rstrip. rewrite length_reverse.
    etransitivity; [apply length_lstrip|].
    rewrite length_reverse. apply length_lstrip.
  - simpl. rewrite Hc. simpl. lia.
Qed.

Lemma truthy_true (s : str) : truthy s = true ↔ s ≠ [].
Proof. destruct s; simpl; split; congruence. Qed.

Lemma truthy_false (s : str) : truthy s = false ↔ s = [].
Proof. destruct s; simpl; split; congruence. Qed.

End StrFacts.

(** ** The markup balancer *)

Section Balancer.

(** Unfolding of the loop in terms of the slice test. *)
Lemma scan_fence (rest3 : str) stack result :
  scan (fence ++ rest3) stack result
  = scan rest3 (toggle fence stack) (result ++ [fence]).
Proof. reflexivity. Qed.

Lemma scan_single (char : ascii) (rest : str) stack result :
  take 3 (char :: rest) ≠ fence →
  scan (char :: rest) stack result
  = scan rest (single_step char stack) (result ++ [[char]]).
Proof.
  intros Hne. destruct rest as [|c2 [|c3 rest3]]; try reflexivity.
  simpl. simpl in Hne. rewrite bool_decide_eq_false_2; done.
Qed.

(** Strong induction following the two ways the index advances. *)
Lemma scan_ind (P : str → Prop) :
  P [] →
  (∀ rest3, P rest3 → P (fence ++ rest3)) →
  (∀ char rest, take 3 (char :: rest) ≠ fence → P rest → P (char :: rest)) →
  ∀ text, P text.
Proof.
  intros Hnil Hfence Hsingle text.
  remember (length text) as n eqn:Hn.
  revert text Hn. induction (lt_wf n) as [n _ IH]. intros text ->.
  destruct text as [|char rest]; [done|].
  destruct (decide (take 3 (char :: rest) = fence)) as [Heq|Hne].
  - destruct rest as [|c2 [|c3 rest3]]; try discriminate.
    simpl in Heq. injection Heq as -> -> ->.
    apply (Hfence rest3), (IH (length rest3)); simpl; [lia|done].
  - apply Hsingle; [done|]. apply (IH (length rest)); simpl; [lia|done].
Qed.

(** The result list spells out the consumed text. *)
Lemma scan_result (text : str) : ∀ stack result,
  join (snd (scan text stack result)) = join result ++ text.
Proof.
  induction text as [|rest3 IH|char rest Hne IH] using scan_ind;
    intros stack result.
  - simpl. by rewrite app_nil_r.
  - rewrite scan_fence, IH. unfold join.
    rewrite concat_app. simpl. by rewrite <- app_assoc.
  - rewrite scan_single, IH by done. unfold join.
    rewrite concat_app. simpl. by rewrite <- app_assoc.
Qed.

Lemma toggle_tokens (symbol : str) stack :
  symbol ∈ delimiter_tokens →
  Forall (.∈ delimiter_tokens) stack →
  Forall (.∈ delimiter_tokens) (toggle symbol stack).
Proof.
  intros Hs Hst. unfold toggle. destruct stack as [|top below].
  - by constructor.
  - case_bool_decide.
    + by inversion Hst.
    + by constructor.
Qed.

Lemma single_step_tokens (char : ascii) stack :
  Forall (.∈ delimiter_tokens) stack →
  Forall (.∈ delimiter_tokens) (single_step char stack).
Proof.
  intros Hst. unfold single_step. case_bool_decide as Hin; [|done].
  apply toggle_tokens; [|done].
  unfold delimiter_tokens, lit. simpl.
  repeat (apply elem_of_cons in Hin as [->|Hin]);
    [| | |by apply elem_of_nil in Hin]; repeat constructor.
Qed.

Lemma scan_stack_tokens (text : str) : ∀ stack result,
  Forall (.∈ delimiter_tokens) stack →
  Forall (.∈ delimiter_tokens) (fst (scan text stack result)).
Proof.
  induction text as [|rest3 IH|char rest Hne IH] using scan_ind;
    intros stack result Hst.
  - done.
  - rewrite scan_fence. apply IH, toggle_tokens; [|done].
    unfold delimiter_tokens, lit, fence. simpl. set_solver.
  - rewrite scan_single by done. by apply IH, single_step_tokens.
Qed.

Lemma ensure_valid_markdown_eq (t : str) :
  ensure_valid_markdown t = t ++ join (unclosed t).
Proof.
  unfold ensure_valid_markdown, unclosed.
  destruct t as [|c t]; [done|].
  pose proof (scan_result (c :: t) [] []) as Hres.
  destruct (scan (c :: t) [] []) as [stack result]. simpl in *.
  unfold join in *. by rewrite concat_app, Hres.
Qed.

End Balancer.

(** ** Texts without backticks *)

Section PlainDelimiters.

Lemma scan_no_backtick (char : ascii) (rest : str) stack result :
  char ≠ backtick →
  scan (char :: rest) stack result
  = scan rest (single_step char stack) (result ++ [[char]]).
Proof.
  intros Hc. apply scan_single.
  destruct rest as [|c2 [|c3 rest3]]; simpl; unfold fence; congruence.
Qed.

Lemma single_step_plain (char : ascii) stack :
  char ≠ backtick →
  Forall plain_token stack → Forall plain_token (single_step char stack).
Proof.
  intros Hc Hst. unfold single_step. case_bool_decide as Hin; [|done].
  unfold toggle. destruct stack as [|top below].
  - constructor; [|done]. by exists char.
  - case_bool_decide.
    + by inversion Hst.
    + constructor; [|done]. by exists char.
Qed.

(** Scanning a backtick-free text and then a continuation is scanning the
    continuation from the stack the text leaves. *)
Lemma scan_app_plain (t u : str) : ∀ stack result,
  backtick ∉ t →
  Forall plain_token stack →
  ∃ stack' result',
    Forall plain_token stack' ∧
    fst (scan t stack result) = stack' ∧
    scan (t ++ u) stack result = scan u stack' result'.
Proof.
  induction t as [|c t IH]; intros stack result Hnb Hst.
  - by exists stack, result.
  - apply not_elem_of_cons in Hnb as [Hc Hnb].
    simpl app. rewrite !scan_no_backtick by done.
    apply IH; [done|]. by apply single_step_plain.
Qed.


(** A text without backticks leaves only plain tokens open. *)
Lemma unclosed_plain (t : str) :
  backtick ∉ t → Forall plain_token (unclosed t).
Proof.
  intros Hnb. unfold unclosed.
  destruct (scan_app_plain t [] [] [] Hnb)
    as (stack' & result' & Hplain & Hfst & _); [done|].
  by rewrite Hfst.
Qed.





End PlainDelimiters.

(** ** Properties of the markup balancer *)

(** C10: the output of the balancer is the input followed by the tokens of
    the delimiters still open at the end of the scan, in pop order; the
    input is a prefix of the output, which is never shorter. *)
Theorem balancer_output_is_input_plus_closers (t : str) :
  ensure_valid_markdown t = t ++ join (unclosed t) ∧
  Forall (.∈ delimiter_tokens) (unclosed t) ∧
  take (length t) (ensure_valid_markdown t) = t ∧
  length t <= length (ensure_valid_markdown t).
Proof.
  rewrite ensure_valid_markdown_eq. repeat split.
  - by apply scan_stack_tokens.
  - by rewrite take_app_length.
  - rewrite length_app. lia.
Qed.




(** ** The chunk splitter *)

Section SplitterFacts.

Variable limit : Z.
Hypothesis limit_pos : (0 < limit)%Z.

Lemma slices_from_fits (fuel : nat) : ∀ line,
  Forall (fits limit) (slices_from fuel (Z.to_nat limit) line).
Proof.
  induction fuel as [|fuel IH]; intros line; simpl; [constructor|].
  destruct line as [|c line]; constructor; [|apply IH].
  unfold fits. rewrite length_take. lia.
Qed.

Lemma slices_from_concat (fuel : nat) : ∀ line,
  length line <= fuel →
  concat (slices_from fuel (Z.to_nat limit) line) = line.
Proof.
  induction fuel as [|fuel IH]; intros line Hlen.
  - destruct line; simpl in *; [done|lia].
  - destruct line as [|c line]; [done|].
    cbn [slices_from concat]. rewrite IH.
    + apply take_drop.
    + rewrite length_drop. simpl in *. lia.
Qed.

Lemma forced_slices_pos (line : str) :
  forced_slices limit line
  = Some (slices_from (length line) (Z.to_nat limit) line).
Proof.
  unfold forced_slices.
  destruct (Z.eqb_spec limit 0); [lia|].
  destruct (Z.ltb_spec limit 0); [lia|done].
Qed.

Lemma line_end_blank (n i : nat) : blank (line_end n i).
Proof.
  unfold line_end. case_bool_decide; repeat constructor.
Qed.

Lemma fits_strip (s : str) : fits limit s → fits limit (strip s).
Proof. unfold fits. pose proof (length_strip s). lia. Qed.

Lemma fits_strip_line_end (n i : nat) (line : str) :
  fits limit line → fits limit (strip (line ++ line_end n i)).
Proof.
  unfold fits, line_end. intros Hfit. case_bool_decide.
  - pose proof (length_strip_snoc_space line newline eq_refl). lia.
  - rewrite app_nil_r. pose proof (length_strip line). lia.
Qed.

(** One line keeps every emitted chunk, and the trimmed pending chunk,
    within the limit; with a positive limit nothing is raised. *)
Lemma split_line_fits (n i : nat) (line : str) chunks current_chunk :
  Forall (fits limit) chunks → fits limit (strip current_chunk) →
  ∃ chunks' current_chunk',
    split_line limit n i line (chunks, current_chunk)
    = Some (chunks', current_chunk') ∧
    Forall (fits limit) chunks' ∧ fits limit (strip current_chunk').
Proof.
  intros Hchunks Hcur. unfold split_line.
  destruct (Z.ltb_spec limit (Z.of_nat (length line))) as [Hlong|Hshort].
  - rewrite forced_slices_pos. destruct (truthy current_chunk); simpl.
    + eexists _, _. split; [done|]. split; [|by unfold fits; simpl; lia].
      rewrite !Forall_app. repeat split; [done| |apply slices_from_fits].
      by repeat constructor.
    + eexists _, _. split; [done|]. split; [|done].
      rewrite Forall_app. split; [done|apply slices_from_fits].
  - destruct (Z.leb_spec
      (Z.of_nat (length current_chunk + length line + 1)) limit)
      as [Hroom|Hfull].
    + eexists _, _. split; [done|]. split; [done|].
      apply fits_strip. unfold fits, line_end.
      rewrite !length_app. case_bool_decide; simpl; lia.
    + eexists _, _. split; [done|]. split.
      * rewrite Forall_app. split; [done|]. by repeat constructor.
      * by apply fits_strip_line_end.
Qed.

Lemma split_lines_fits (n : nat) (lines : list str) :
  ∀ i chunks current_chunk,
  Forall (fits limit) chunks → fits limit (strip current_chunk) →
  ∃ chunks' current_chunk',
    split_lines limit n i lines (chunks, current_chunk)
    = Some (chunks', current_chunk') ∧
    Forall (fits limit) chunks' ∧ fits limit (strip current_chunk').
Proof.
  induction lines as [|line rest IH]; intros i chunks current Hc Hs.
  - by exists chunks, current.
  - destruct (split_line_fits n i line chunks current Hc Hs)
      as (chunks1 & current1 & Hstep & Hc1 & Hs1).
    cbn [split_lines]. rewrite Hstep. by apply IH.
Qed.

(** Every chunk of the splitter is within the limit. *)
Lemma split_text_fits (text : str) :
  ∃ chunks, split_text limit text = Some chunks ∧ Forall (fits limit) chunks.
Proof.
  unfold split_text.
  destruct (split_lines_fits (length (split_newline text))
              (split_newline text) 0 [] [])
    as (chunks & current & -> & Hc & Hs).
  - constructor.
  - unfold fits. simpl. lia.
  - simpl. eexists. split; [done|].
    destruct (truthy (strip current)); [|done].
    rewrite Forall_app. split; [done|]. by repeat constructor.
Qed.

(** *** Rebuilding the text from the chunks *)

Lemma rebuilds_snoc_gap (chunks : list str) (text gap : str) :
  rebuilds chunks text → blank gap → rebuilds chunks (text ++ gap).
Proof.
  intros Hr Hgap. induction Hr as [g Hg|g chunk chunks text Hg Hr IH].
  - constructor. by apply blank_app.
  - rewrite <- !app_assoc. by constructor.
Qed.

Lemma rebuilds_app (chunks1 chunks2 : list str) (text1 text2 : str) :
  rebuilds chunks1 text1 → rebuilds chunks2 text2 →
  rebuilds (chunks1 ++ chunks2) (text1 ++ text2).
Proof.
  intros Hr1 Hr2. induction Hr1 as [g Hg|g chunk chunks text Hg Hr IH].
  - simpl. destruct Hr2 as [g2 Hg2|g2 chunk2 chunks2 text2 Hg2 Hr2].
    + constructor. by apply blank_app.
    + rewrite app_assoc. constructor; [by apply blank_app|done].
  - simpl. rewrite <- !app_assoc. by constructor.
Qed.

Lemma rebuilds_strip (s : str) : rebuilds [strip s] s.
Proof.
  destruct (strip_split s) as (before & after & Hb & Ha & Hs).
  rewrite Hs at 2. constructor; [done|]. by constructor.
Qed.

Lemma rebuilds_slices (slices : list str) : rebuilds slices (concat slices).
Proof.
  induction slices as [|slice slices IH]; simpl.
  - constructor. constructor.
  - apply (rebuilds_cons [] slice); [constructor|done].
Qed.

(** After one line the chunks emitted so far, followed by the pending
    chunk, still spell out the text consumed so far. *)
Lemma split_line_rebuilds (n i : nat) (line : str)
    chunks current_chunk chunks' current_chunk' (consumed : str) :
  split_line limit n i line (chunks, current_chunk)
  = Some (chunks', current_chunk') →
  rebuilds chunks consumed →
  ∃ consumed',
    rebuilds chunks' consumed' ∧
    consumed ++ current_chunk ++ line ++ line_end n i
    = consumed' ++ current_chunk'.
Proof.
  unfold split_line. intros Hstep Hr.
  destruct (Z.ltb_spec limit (Z.of_nat (length line))) as [Hlong|Hshort].
  - rewrite forced_slices_pos in Hstep.
    assert (Hline : rebuilds
              (slices_from (length line) (Z.to_nat limit) line)
              (line ++ line_end n i)).
    { apply rebuilds_snoc_gap; [|apply line_end_blank].
      rewrite <- (slices_from_concat (length line) line) at 3 by done.
      apply rebuilds_slices. }
    destruct (truthy current_chunk) eqn:Htruthy; simpl in Hstep;
      injection Hstep as <- <-.
    + exists ((consumed ++ current_chunk) ++ line ++ line_end n i).
      split; [|by rewrite app_nil_r, <- !app_assoc].
      apply rebuilds_app; [|done].
      apply rebuilds_app; [done|apply rebuilds_strip].
    + apply truthy_false in Htruthy as ->.
      exists (consumed ++ line ++ line_end n i).
      split; [by apply rebuilds_app|]. by rewrite app_nil_r.
  - destruct (Z.leb_spec
      (Z.of_nat (length current_chunk + length line + 1)) limit)
      as [Hroom|Hfull]; injection Hstep as <- <-.
    + by exists consumed.
    + exists (consumed ++ current_chunk).
      split; [|by rewrite <- !app_assoc].
      apply rebuilds_app; [done|apply rebuilds_strip].
Qed.

Lemma split_newline_nonempty (s : str) : 0 < length (split_newline s).
Proof.
  induction s as [|c s IH]; simpl; [lia|].
  case_bool_decide; simpl; [lia|].
  destruct (split_newline s); simpl in *; lia.
Qed.

Lemma unsplit_split_newline (s : str) : ∀ n i,
  n = i + length (split_newline s) →
  unsplit n i (split_newline s) = s.
Proof.
  induction s as [|c s IH]; intros n i Hn; simpl in *.
  - unfold line_end. rewrite bool_decide_eq_false_2 by lia. done.
  - pose proof (split_newline_nonempty s) as Hpos.
    case_bool_decide as Hc; simpl in *.
    + unfold line_end. rewrite bool_decide_eq_true_2 by lia.
      simpl. rewrite IH by lia. by rewrite Hc.
    + specialize (IH n i).
      destruct (split_newline s) as [|line lines]; simpl in *; [lia|].
      f_equal. apply IH. lia.
Qed.

Lemma split_lines_rebuilds (n : nat) (lines : list str) :
  ∀ i chunks current_chunk chunks' current_chunk' consumed,
  split_lines limit n i lines (chunks, current_chunk)
  = Some (chunks', current_chunk') →
  rebuilds chunks consumed →
  ∃ consumed',
    rebuilds chunks' consumed' ∧
    consumed ++ current_chunk ++ unsplit n i lines
    = consumed' ++ current_chunk'.
Proof.
  induction lines as [|line rest IH];
    intros i chunks current chunks' current' consumed Hrun Hr;
    cbn [split_lines unsplit] in *.
  - injection Hrun as <- <-. exists consumed. by rewrite app_nil_r.
  - destruct (split_line limit n i line (chunks, current))
      as [[chunks1 current1]|] eqn:Hstep; [|done].
    change (split_lines limit n (S i) rest (chunks1, current1)
            = Some (chunks', current')) in Hrun.
    destruct (split_line_rebuilds _ _ _ _ _ _ _ _ Hstep Hr)
      as (consumed1 & Hr1 & Heq1).
    destruct (IH _ _ _ _ _ _ Hrun Hr1) as (consumed' & Hr' & Heq').
    exists consumed'. split; [done|]. rewrite <- Heq'.
    rewrite (app_assoc consumed1), <- Heq1. by rewrite <- !app_assoc.
Qed.

Lemma split_text_rebuilds (text : str) (chunks : list str) :
  split_text limit text = Some chunks → rebuilds chunks text.
Proof.
  unfold split_text. intros Hsplit.
  destruct (split_lines limit (length (split_newline text)) 0
              (split_newline text) ([], []))
    as [[chunks1 current]|] eqn:Hrun; [|done]. simpl in Hsplit.
  destruct (split_lines_rebuilds _ _ _ _ _ _ _ [] Hrun)
    as (consumed & Hr & Heq); [repeat constructor|].
  rewrite unsplit_split_newline in Heq by done. simpl in Heq. subst text.
  destruct (truthy (strip current)) eqn:Htruthy;
    injection Hsplit as <-.
  - apply rebuilds_app; [done|apply rebuilds_strip].
  - apply rebuilds_snoc_gap; [done|].
    by apply strip_empty_blank, truthy_false.
Qed.

End SplitterFacts.

(** ** The delivery loop *)

Section DeliveryFacts.

Variable w : world.
Variable chat_id : Z.
Variable reply_to_message_id : option Z.

Lemma strip_blank (s : str) : blank s → strip s = [].
Proof. intros Hs. unfold strip. by rewrite lstrip_blank. Qed.

(** Rebalancing only appends, so it never blanks out a chunk: in marked-up
    mode a chunk is first sent rebalanced and marked up. *)
Lemma prepare_chunk_markdown (chunk_text : str) :
  prepare_chunk (Some MARKDOWN) chunk_text
  = (ensure_valid_markdown chunk_text, Some MARKDOWN).
Proof.
  unfold prepare_chunk. rewrite bool_decide_eq_true_2 by done.
  destruct (truthy (strip (ensure_valid_markdown chunk_text))) eqn:Hbal;
    [done|].
  apply truthy_false, strip_empty_blank in Hbal.
  rewrite ensure_valid_markdown_eq in Hbal.
  apply Forall_app in Hbal as [Hblank _].
  by rewrite (strip_blank _ Hblank).
Qed.

Lemma prepare_chunk_text (mode : option ParseMode) (chunk_text : str) :
  (prepare_chunk mode chunk_text).1 = chunk_text
  ∨ (prepare_chunk mode chunk_text).1 = ensure_valid_markdown chunk_text.
Proof.
  unfold prepare_chunk. case_bool_decide; [|by left].
  destruct (_ && _); [by left|by right].
Qed.

Lemma send_chunk_nonempty (mode : option ParseMode) (n i : nat)
    (chunk_text : str) (tr : trace) :
  chunk_text ≠ [] →
  send_chunk w chat_id reply_to_message_id mode n i chunk_text tr
  = attempt_loop w chat_id reply_to_message_id [0; 1] i chunk_text
      (prepare_chunk mode chunk_text) tr
    ++ pacing_events n i.
Proof.
  intros Hne. unfold send_chunk, pacing_events, sleep.
  apply truthy_true in Hne as ->. simpl negb. cbv iota.
  change (seq 0 (max_retries_markdown_fail + 1)) with [0; 1].
  destruct (_ && _); [done|by rewrite app_nil_r].
Qed.

(** The second iteration of the attempt loop is the last: whatever the
    outcome, the chunk is not sent again. *)
Lemma attempt_loop_last (i : nat) (chunk_text text : str)
    (mode : option ParseMode) (tr : trace) :
  attempt_loop w chat_id reply_to_message_id [1] i chunk_text (text, mode) tr
  = tr
    ++ [SendMessage (Some i)
          (chunk_request chat_id reply_to_message_id i text mode)]
    ++ last_attempt_events chat_id reply_to_message_id i
         (transport w tr
            (chunk_request chat_id reply_to_message_id i text mode)).
Proof.
  unfold attempt_loop, send_attempt, send_message, chunk_request,
    last_attempt_events, send_notice, send_message, sleep, notice_event.
  destruct (transport w tr _) as [|retry_after|message| |]; simpl.
  - done.
  - by rewrite <- app_assoc.
  - rewrite andb_false_r. simpl.
    destruct (i =? 0); simpl; by rewrite <- ?app_assoc.
  - destruct (i =? 0); simpl; by rewrite <- ?app_assoc.
  - destruct (_ && _); simpl; by rewrite <- ?app_assoc.
Qed.

(** A rate limit on the first attempt: sleep, then the second attempt with
    the same text and format. *)
Lemma attempt_loop_rate_limited (i : nat) (chunk_text text : str)
    (mode : option ParseMode) (tr : trace) (retry_after : Z) :
  transport w tr (chunk_request chat_id reply_to_message_id i text mode)
  = RaiseRetryAfter retry_after →
  attempt_loop w chat_id reply_to_message_id [0; 1] i chunk_text
    (text, mode) tr
  = attempt_loop w chat_id reply_to_message_id [1] i chunk_text (text, mode)
      (tr ++ [SendMessage (Some i)
                (chunk_request chat_id reply_to_message_id i text mode);
              Sleep (provider_delay retry_after)]).
Proof.
  intros Hout. cbn [attempt_loop].
  unfold send_attempt at 1. unfold send_message at 1.
  fold (chunk_request chat_id reply_to_message_id i text mode).
  rewrite Hout. unfold sleep. by rewrite <- app_assoc.
Qed.

(** A format rejection on the first attempt in marked-up mode: the second
    attempt sends the raw chunk in plain format. *)
Lemma attempt_loop_format_rejected (i : nat) (chunk_text text : str)
    (tr : trace) (message : str) :
  transport w tr
    (chunk_request chat_id reply_to_message_id i text (Some MARKDOWN))
  = RaiseBadRequest message →
  cant_parse_entities message = true →
  attempt_loop w chat_id reply_to_message_id [0; 1] i chunk_text
    (text, Some MARKDOWN) tr
  = attempt_loop w chat_id reply_to_message_id [1] i chunk_text
      (chunk_text, None)
      (tr ++ [SendMessage (Some i)
                (chunk_request chat_id reply_to_message_id i text
                   (Some MARKDOWN))]).
Proof.
  intros Hout Hparse. cbn [attempt_loop].
  unfold send_attempt at 1. unfold send_message at 1.
  fold (chunk_request chat_id reply_to_message_id i text (Some MARKDOWN)).
  rewrite Hout, Hparse. by rewrite bool_decide_eq_true_2.
Qed.

End DeliveryFacts.

(** ** Properties of the delivery loop: failed attempts *)

(** C1, as stated, fails: both attempts at the first chunk fail (a format
    rejection, then a second rejection in plain format), one notice is sent,
    and the engine still goes on to send the second chunk. *)
Lemma delivery_continues_after_failed_chunk :
  snd (send_long_message
         (scripted [RaiseBadRequest (lit "Can't parse entities: bad offset");
                    RaiseBadRequest (lit "Message is too long")])
         4096 7 (Some 5%Z)
         (replicate 4000 "a"%char ++ newline :: replicate 100 "b"%char)
         (Some MARKDOWN) None [])
  = [SendMessage (Some 0)
       (chunk_request 7 (Some 5%Z) 0 (replicate 4000 "a"%char) (Some MARKDOWN));
     SendMessage (Some 0)
       (chunk_request 7 (Some 5%Z) 0 (replicate 4000 "a"%char) None);
     notice_event 7 notice_bad_request;
     Sleep pacing_delay;
     SendMessage (Some 1)
       (chunk_request 7 (Some 5%Z) 1 (replicate 100 "b"%char) (Some MARKDOWN))].
Proof. vm_compute. reflexivity. Qed.

(** C1, amended: a non-empty chunk whose first send, in marked-up mode, is
    rejected for its format is sent once more, raw and in plain format, with
    the same reply reference, and never a third time; when that second send
    fails with a bad request or another Telegram error one notice follows if
    the chunk is the first and none otherwise; the engine then goes on with
    the remaining chunks. *)
Theorem format_rejection_plain_retry (w : world) (chat_id : Z)
    (reply_to_message_id : option Z) (n i : nat) (chunk_text : str)
    (rest : list str) (tr : trace) (message : str) :
  chunk_text ≠ [] →
  transport w tr
    (chunk_request chat_id reply_to_message_id i
       (ensure_valid_markdown chunk_text) (Some MARKDOWN))
  = RaiseBadRequest message →
  cant_parse_entities message = true →
  send_chunks w chat_id reply_to_message_id (Some MARKDOWN) n i
    (chunk_text :: rest) tr
  = send_chunks w chat_id reply_to_message_id (Some MARKDOWN) n (S i) rest
      (tr
       ++ [SendMessage (Some i)
             (chunk_request chat_id reply_to_message_id i
                (ensure_valid_markdown chunk_text) (Some MARKDOWN));
           SendMessage (Some i)
             (chunk_request chat_id reply_to_message_id i chunk_text None)]
       ++ last_attempt_events chat_id reply_to_message_id i
            (transport w
               (tr ++ [SendMessage (Some i)
                         (chunk_request chat_id reply_to_message_id i
                            (ensure_valid_markdown chunk_text)
                            (Some MARKDOWN))])
               (chunk_request chat_id reply_to_message_id i chunk_text None))
       ++ pacing_events n i).
Proof.
  intros Hne Hout Hparse. cbn [send_chunks]. f_equal.
  rewrite send_chunk_nonempty, prepare_chunk_markdown by done.
  rewrite (attempt_loop_format_rejected _ _ _ _ _ _ _ _ Hout Hparse).
  rewrite attempt_loop_last. by rewrite <- !app_assoc.
Qed.

Lemma format_rejection_plain_retry_witness :
  lit "*a" ≠ [] ∧
  send_chunks
    (scripted [RaiseBadRequest (lit "Can't parse entities: bad offset");
               RaiseTelegramError])
    7 (Some 5%Z) (Some MARKDOWN) 2 0 [lit "*a"; lit "b"] []
  = send_chunks
      (scripted [RaiseBadRequest (lit "Can't parse entities: bad offset");
                 RaiseTelegramError])
      7 (Some 5%Z) (Some MARKDOWN) 2 1 [lit "b"]
      [SendMessage (Some 0) (chunk_request 7 (Some 5%Z) 0 (lit "*a*")
                               (Some MARKDOWN));
       SendMessage (Some 0) (chunk_request 7 (Some 5%Z) 0 (lit "*a") None);
       notice_event 7 notice_telegram_error;
       Sleep pacing_delay].
Proof.
  split; [discriminate|].
  exact (format_rejection_plain_retry
           (scripted [RaiseBadRequest (lit "Can't parse entities: bad offset");
                      RaiseTelegramError])
           7 (Some 5%Z) 2 0 (lit "*a") [lit "b"] []
           (lit "Can't parse entities: bad offset")
           ltac:(discriminate) eq_refl eq_refl).
Defined.

(** C6, as stated, fails: a chunk that has used its first attempt on a
    format rejection and is then rate limited sleeps for the delay and is
    not sent again. *)
Lemma rate_limit_after_downgrade_not_retried :
  snd (send_long_message
         (scripted [RaiseBadRequest (lit "Can't parse entities: bad offset");
                    RaiseRetryAfter 5])
         4096 7 (Some 5%Z) (lit "*a") (Some MARKDOWN) None [])
  = [SendMessage (Some 0)
       (chunk_request 7 (Some 5%Z) 0 (lit "*a*") (Some MARKDOWN));
     SendMessage (Some 0) (chunk_request 7 (Some 5%Z) 0 (lit "*a") None);
     Sleep (provider_delay 5)].
Proof. vm_compute. reflexivity. Qed.

(** C6, amended: a rate limit on the first send of a chunk makes the engine
    sleep for the delay named by the provider and send the same chunk once
    more with the same text and format; a chunk has two attempts in all,
    shared with the format downgrade, so a rate limit on the second attempt
    (after a rate-limit retry or after a downgrade) is followed by the sleep
    and by no further send of that chunk. *)
Theorem rate_limit_retry_within_attempt_budget (w : world) (chat_id : Z)
    (reply_to_message_id : option Z) (mode : option ParseMode) (n i : nat)
    (chunk_text : str) (rest : list str) (tr : trace) :
  chunk_text ≠ [] →
  (∀ retry_after,
     transport w tr
       (chunk_request chat_id reply_to_message_id i
          (prepare_chunk mode chunk_text).1 (prepare_chunk mode chunk_text).2)
     = RaiseRetryAfter retry_after →
     send_chunks w chat_id reply_to_message_id mode n i (chunk_text :: rest) tr
     = send_chunks w chat_id reply_to_message_id mode n (S i) rest
         (tr
          ++ [SendMessage (Some i)
                (chunk_request chat_id reply_to_message_id i
                   (prepare_chunk mode chunk_text).1
                   (prepare_chunk mode chunk_text).2);
              Sleep (provider_delay retry_after);
              SendMessage (Some i)
                (chunk_request chat_id reply_to_message_id i
                   (prepare_chunk mode chunk_text).1
                   (prepare_chunk mode chunk_text).2)]
          ++ last_attempt_events chat_id reply_to_message_id i
               (transport w
                  (tr ++ [SendMessage (Some i)
                            (chunk_request chat_id reply_to_message_id i
                               (prepare_chunk mode chunk_text).1
                               (prepare_chunk mode chunk_text).2);
                          Sleep (provider_delay retry_after)])
                  (chunk_request chat_id reply_to_message_id i
                     (prepare_chunk mode chunk_text).1
                     (prepare_chunk mode chunk_text).2))
          ++ pacing_events n i)) ∧
  (∀ message retry_after,
     transport w tr
       (chunk_request chat_id reply_to_message_id i
          (ensure_valid_markdown chunk_text) (Some MARKDOWN))
     = RaiseBadRequest message →
     cant_parse_entities message = true →
     transport w
       (tr ++ [SendMessage (Some i)
                 (chunk_request chat_id reply_to_message_id i
                    (ensure_valid_markdown chunk_text) (Some MARKDOWN))])
       (chunk_request chat_id reply_to_message_id i chunk_text None)
     = RaiseRetryAfter retry_after →
     send_chunks w chat_id reply_to_message_id (Some MARKDOWN) n i
       (chunk_text :: rest) tr
     = send_chunks w chat_id reply_to_message_id (Some MARKDOWN) n (S i) rest
         (tr
          ++ [SendMessage (Some i)
                (chunk_request chat_id reply_to_message_id i
                   (ensure_valid_markdown chunk_text) (Some MARKDOWN));
              SendMessage (Some i)
                (chunk_request chat_id reply_to_message_id i chunk_text None);
              Sleep (provider_delay retry_after)]
          ++ pacing_events n i)).
Proof.
  intros Hne. split.
  - intros retry_after Hout. cbn [send_chunks]. f_equal.
    rewrite send_chunk_nonempty by done.
    destruct (prepare_chunk mode chunk_text) as [text mode0].
    cbn [fst snd] in *.
    rewrite (attempt_loop_rate_limited _ _ _ _ _ _ _ _ _ Hout).
    rewrite attempt_loop_last. by rewrite <- !app_assoc.
  - intros message retry_after Hout Hparse Hlimited.
    cbn [send_chunks]. f_equal.
    rewrite send_chunk_nonempty, prepare_chunk_markdown by done.
    rewrite (attempt_loop_format_rejected _ _ _ _ _ _ _ _ Hout Hparse).
    rewrite attempt_loop_last, Hlimited. by rewrite <- !app_assoc.
Qed.

Lemma rate_limit_retry_within_attempt_budget_witness :
  lit "hi" ≠ [] ∧
  send_chunks (scripted [RaiseRetryAfter 3]) 7 None None 1 0 [lit "hi"] []
  = [SendMessage (Some 0) (chunk_request 7 None 0 (lit "hi") None);
     Sleep (provider_delay 3);
     SendMessage (Some 0) (chunk_request 7 None 0 (lit "hi") None)].
Proof.
  split; [discriminate|].
  exact (proj1 (rate_limit_retry_within_attempt_budget
                  (scripted [RaiseRetryAfter 3]) 7 None None 1 0 (lit "hi")
                  [] [] ltac:(discriminate)) 3%Z eq_refl).
Defined.

(** ** The reply reference *)

Section ReplyDiscipline.

Variable w : world.
Variable chat_id : Z.
Variable reply_to_message_id : option Z.
Variable chunks : list str.

Let disciplined : list event → Prop :=
  Forall (reply_discipline reply_to_message_id chunks).

(** Each call in the list is justified by a hypothesis at hand. *)
Local Ltac discipline :=
  repeat first
    [ apply Forall_nil_2
    | apply Forall_cons_2; [first [eassumption | by eauto | exact I]|] ].

Lemma send_attempt_discipline (i attempt : nat) (chunk_text text : str)
    (mode : option ParseMode) (tr : trace) :
  chunks !! i = Some chunk_text → chunk_text ≠ [] →
  text = chunk_text ∨ text = ensure_valid_markdown chunk_text →
  ∃ evs,
    (send_attempt w chat_id reply_to_message_id i attempt chunk_text
       (text, mode) tr).2 = tr ++ evs ∧
    disciplined evs ∧
    let text' :=
      (send_attempt w chat_id reply_to_message_id i attempt chunk_text
         (text, mode) tr).1.2.1 in
    text' = chunk_text ∨ text' = ensure_valid_markdown chunk_text.
Proof.
  intros Hi Hne Htext.
  assert (Hsend : reply_discipline reply_to_message_id chunks
            (SendMessage (Some i)
               {| req_chat_id := chat_id; req_text := text;
                  req_reply_to_message_id :=
                    if i =? 0 then reply_to_message_id else None;
                  req_parse_mode := mode |})).
  { simpl. split; [done|]. by exists chunk_text. }
  assert (Hnotice : ∀ notice,
            reply_discipline reply_to_message_id chunks
              (SendMessage None
                 {| req_chat_id := chat_id; req_text := notice;
                    req_reply_to_message_id := None;
                    req_parse_mode := None |})) by done.
  unfold send_attempt, send_message, send_notice, send_message, sleep.
  destruct (transport w tr _) as [|retry_after|message| |]; simpl.
  - eexists. split; [done|]. split; [|done]. by discipline.
  - eexists. split; [by rewrite <- app_assoc|]. split; [|done].
    by discipline.
  - destruct (_ && _ && _); simpl.
    + eexists. split; [done|]. split; [by discipline|by left].
    + destruct (i =? 0); simpl.
      * eexists. split; [by rewrite <- app_assoc|]. split; [|done].
        by discipline.
      * eexists. split; [done|]. split; [|done]. by discipline.
  - destruct (i =? 0); simpl.
    + eexists. split; [by rewrite <- app_assoc|]. split; [|done].
      by discipline.
    + eexists. split; [done|]. split; [|done]. by discipline.
  - destruct (_ && _); simpl.
    + eexists. split; [by rewrite <- app_assoc|]. split; [|done].
      by discipline.
    + eexists. split; [done|]. split; [|done]. by discipline.
Qed.

Lemma attempt_loop_discipline (attempts : list nat) (i : nat)
    (chunk_text : str) : ∀ (text : str) (mode : option ParseMode) (tr : trace),
  chunks !! i = Some chunk_text → chunk_text ≠ [] →
  text = chunk_text ∨ text = ensure_valid_markdown chunk_text →
  ∃ evs,
    attempt_loop w chat_id reply_to_message_id attempts i chunk_text
      (text, mode) tr = tr ++ evs ∧
    disciplined evs.
Proof.
  induction attempts as [|attempt attempts IH]; intros text mode tr Hi Hne Ht.
  - exists []. split; [by rewrite app_nil_r|constructor].
  - cbn [attempt_loop].
    destruct (send_attempt_discipline i attempt chunk_text text mode tr
                Hi Hne Ht) as (evs & Htr & Hevs & Htext').
    destruct (send_attempt w chat_id reply_to_message_id i attempt chunk_text
                (text, mode) tr) as [[break [text' mode']] tr'].
    simpl in Htr, Htext'. subst tr'. destruct break.
    + by exists evs.
    + destruct (IH text' mode' (tr ++ evs) Hi Hne Htext')
        as (evs' & -> & Hevs').
      exists (evs ++ evs'). split; [by rewrite app_assoc|].
      by apply Forall_app.
Qed.

Lemma send_chunk_discipline (mode : option ParseMode) (n i : nat)
    (chunk_text : str) (tr : trace) :
  chunks !! i = Some chunk_text →
  ∃ evs,
    send_chunk w chat_id reply_to_message_id mode n i chunk_text tr
    = tr ++ evs ∧
    disciplined evs.
Proof.
  intros Hi. destruct (decide (chunk_text = [])) as [->|Hne].
  - exists []. split; [by rewrite app_nil_r|constructor].
  - rewrite send_chunk_nonempty by done.
    destruct (prepare_chunk mode chunk_text) as [text mode0] eqn:Hprep.
    destruct (attempt_loop_discipline [0; 1] i chunk_text text mode0 tr
                Hi Hne) as (evs & -> & Hevs).
    { pose proof (prepare_chunk_text mode chunk_text) as Ht.
      by rewrite Hprep in Ht. }
    exists (evs ++ pacing_events n i). split; [by rewrite app_assoc|].
    apply Forall_app. split; [done|].
    unfold pacing_events. destruct (_ && _); by repeat constructor.
Qed.

Lemma send_chunks_discipline (mode : option ParseMode) (n : nat)
    (rest : list str) : ∀ (i : nat) (tr : trace),
  drop i chunks = rest →
  ∃ evs,
    send_chunks w chat_id reply_to_message_id mode n i rest tr = tr ++ evs ∧
    disciplined evs.
Proof.
  induction rest as [|chunk_text rest IH]; intros i tr Hdrop.
  - exists []. split; [by rewrite app_nil_r|constructor].
  - cbn [send_chunks].
    assert (Hi : chunks !! i = Some chunk_text).
    { rewrite <- (Nat.add_0_r i), <- lookup_drop. by rewrite Hdrop. }
    destruct (send_chunk_discipline mode n i chunk_text tr Hi)
      as (evs & -> & Hevs).
    destruct (IH (S i) (tr ++ evs)) as (evs' & -> & Hevs').
    { by rewrite <- (Nat.add_1_r i), <- drop_drop, Hdrop. }
    exists (evs ++ evs'). split; [by rewrite app_assoc|].
    by apply Forall_app.
Qed.

(** With a reliable transport every non-empty chunk is sent once, as first
    prepared, and followed by the pause between chunks. *)
Lemma send_chunk_reliable (mode : option ParseMode) (n i : nat)
    (chunk_text : str) (tr : trace) :
  reliable w → chunk_text ≠ [] →
  send_chunk w chat_id reply_to_message_id mode n i chunk_text tr
  = tr
    ++ [SendMessage (Some i)
          (chunk_request chat_id reply_to_message_id i
             (prepare_chunk mode chunk_text).1
             (prepare_chunk mode chunk_text).2)]
    ++ pacing_events n i.
Proof.
  intros Hrel Hne. rewrite send_chunk_nonempty by done.
  destruct (prepare_chunk mode chunk_text) as [text mode0].
  cbn [attempt_loop]. unfold send_attempt, send_message.
  rewrite Hrel. by rewrite <- app_assoc.
Qed.

End ReplyDiscipline.

(** ** A text of one long line *)

Section SingleLine.

Lemma split_newline_single (text : str) :
  newline ∉ text → split_newline text = [text].
Proof.
  induction text as [|c text IH]; intros Hnl; [done|].
  apply not_elem_of_cons in Hnl as [Hc Hnl]. simpl.
  rewrite bool_decide_eq_false_2 by congruence. by rewrite IH.
Qed.

Lemma slices_from_nil (fuel limit : nat) : slices_from fuel limit [] = [].
Proof. by destruct fuel. Qed.

Lemma slices_from_step (fuel limit : nat) (line : str) :
  line ≠ [] → fuel ≠ 0 →
  slices_from fuel limit line
  = take limit line :: slices_from (fuel - 1) limit (drop limit line).
Proof.
  intros Hline Hfuel. destruct fuel as [|fuel]; [done|].
  destruct line; [done|]. simpl. by rewrite Nat.sub_0_r.
Qed.

(** A text without a line break that is longer than the limit is cut into
    slices of the limit. *)
Lemma split_text_single_long_line (limit : Z) (text : str) :
  (0 < limit)%Z → newline ∉ text → (limit < Z.of_nat (length text))%Z →
  split_text limit text
  = Some (slices_from (length text) (Z.to_nat limit) text).
Proof.
  intros Hpos Hnl Hlong. unfold split_text.
  rewrite split_newline_single by done. cbn [split_lines length].
  unfold split_line. destruct (Z.ltb_spec limit (Z.of_nat (length text)));
    [|lia].
  by rewrite forced_slices_pos.
Qed.

(** Between two and three limits long: three slices. *)
Lemma slices_from_three (limit : nat) (text : str) :
  2 * limit < length text → length text <= 3 * limit →
  slices_from (length text) limit text
  = [take limit text; take limit (drop limit text); drop (2 * limit) text].
Proof.
  intros Hlo Hhi.
  assert (Hlen : ∀ s : str, 0 < length s → s ≠ []).
  { intros [|] ?; simpl in *; [lia|done]. }
  rewrite slices_from_step; [|apply Hlen; lia|lia].
  rewrite slices_from_step;
    [|apply Hlen; rewrite length_drop; lia|lia].
  rewrite slices_from_step;
    [|apply Hlen; rewrite !length_drop; lia|lia].
  rewrite !drop_drop.
  rewrite (drop_ge text (limit + limit + limit)) by lia.
  rewrite slices_from_nil.
  replace (limit + limit) with (2 * limit) by lia.
  by rewrite (take_ge (drop (2 * limit) text))
    by (rewrite length_drop; lia).
Qed.

End SingleLine.

(** ** Properties of the delivery loop: the reply reference *)

(** C9, as stated, fails: a text of 9000 characters in four lines of about
    2250 characters is delivered as four chunks, since no two of its lines
    fit in one chunk. *)
Lemma four_chunks_for_9000_characters :
  let text :=
    replicate 2250 "a"%char ++ newline :: replicate 2249 "b"%char
    ++ newline :: replicate 2249 "c"%char
    ++ newline :: replicate 2249 "d"%char in
  length text = Z.to_nat 9000 ∧
  snd (send_long_message (scripted []) 4096 7 (Some 5%Z) text None None [])
  = [SendMessage (Some 0)
       (chunk_request 7 (Some 5%Z) 0 (replicate 2250 "a"%char) None);
     Sleep pacing_delay;
     SendMessage (Some 1)
       (chunk_request 7 (Some 5%Z) 1 (replicate 2249 "b"%char) None);
     Sleep pacing_delay;
     SendMessage (Some 2)
       (chunk_request 7 (Some 5%Z) 2 (replicate 2249 "c"%char) None);
     Sleep pacing_delay;
     SendMessage (Some 3)
       (chunk_request 7 (Some 5%Z) 3 (replicate 2249 "d"%char) None)].
Proof. split; vm_compute; reflexivity. Qed.

(** C9, amended: every send of a chunk carries the caller's reply reference
    exactly when the chunk has ordinal 0, and notices carry none; a text of
    9000 characters without a line break, with channel limit 4096 and margin
    20, is split into exactly three chunks, and a reliable transport is
    handed exactly these three, only the first with the reply reference. *)
Theorem reply_reference_on_first_chunk_only (w : world)
    (TELEGRAM_MAX_MESSAGE_LENGTH chat_id : Z)
    (reply_to_message_id : option Z) (text_to_send : str)
    (parse_mode : option ParseMode)
    (original_text_if_markdown_fails : option str) (tr : trace) :
  (∀ text mode chunks,
     choose_text text_to_send parse_mode original_text_if_markdown_fails
     = Some (text, mode) →
     split_text (limit TELEGRAM_MAX_MESSAGE_LENGTH) text = Some chunks →
     ∃ evs,
       snd (send_long_message w TELEGRAM_MAX_MESSAGE_LENGTH chat_id
              reply_to_message_id text_to_send parse_mode
              original_text_if_markdown_fails tr) = tr ++ evs ∧
       Forall (reply_discipline reply_to_message_id chunks) evs) ∧
  (TELEGRAM_MAX_MESSAGE_LENGTH = 4096%Z →
   Z.of_nat (length text_to_send) = 9000%Z →
   newline ∉ text_to_send →
   let chunk0 := take 4076 text_to_send in
   let chunk1 := take 4076 (drop 4076 text_to_send) in
   let chunk2 := drop (2 * 4076) text_to_send in
   split_text (limit TELEGRAM_MAX_MESSAGE_LENGTH) text_to_send
   = Some [chunk0; chunk1; chunk2] ∧
   (reliable w →
    snd (send_long_message w TELEGRAM_MAX_MESSAGE_LENGTH chat_id
           reply_to_message_id text_to_send parse_mode
           original_text_if_markdown_fails tr)
    = tr
      ++ [SendMessage (Some 0)
            {| req_chat_id := chat_id;
               req_text := (prepare_chunk parse_mode chunk0).1;
               req_reply_to_message_id := reply_to_message_id;
               req_parse_mode := (prepare_chunk parse_mode chunk0).2 |};
          Sleep pacing_delay;
          SendMessage (Some 1)
            {| req_chat_id := chat_id;
               req_text := (prepare_chunk parse_mode chunk1).1;
               req_reply_to_message_id := None;
               req_parse_mode := (prepare_chunk parse_mode chunk1).2 |};
          Sleep pacing_delay;
          SendMessage (Some 2)
            {| req_chat_id := chat_id;
               req_text := (prepare_chunk parse_mode chunk2).1;
               req_reply_to_message_id := None;
               req_parse_mode := (prepare_chunk parse_mode chunk2).2 |}])).
Proof.
  split.
  - intros text mode chunks Hchoose Hsplit. unfold send_long_message.
    rewrite Hchoose, Hsplit. cbn [snd].
    by apply send_chunks_discipline.
  - intros -> Hlen Hnl chunk0 chunk1 chunk2.
    assert (Hsplit : split_text (limit 4096) text_to_send
                     = Some [chunk0; chunk1; chunk2]).
    { rewrite split_text_single_long_line; [|done|done|unfold limit; lia].
      change (Z.to_nat (limit 4096)) with 4076.
      rewrite slices_from_three by lia. done. }
    split; [done|]. intros Hrel. unfold send_long_message, choose_text.
    assert (Hne : ∀ s : str, 0 < length s → s ≠ []).
    { intros [|] ?; simpl in *; [lia|done]. }
    rewrite (proj2 (truthy_true text_to_send)) by (apply Hne; lia).
    rewrite Hsplit. cbn [snd send_chunks length].
    rewrite !send_chunk_reliable; try done.
    + by rewrite <- !app_assoc.
    + apply Hne. subst chunk0. rewrite length_take. lia.
    + apply Hne. subst chunk1. rewrite length_take, length_drop. lia.
    + apply Hne. subst chunk2. rewrite length_drop. lia.
Qed.

Lemma reply_reference_on_first_chunk_only_witness :
  let text := replicate (Z.to_nat 9000) "x"%char in
  Z.of_nat (length text) = 9000%Z ∧ (newline ∉ text) ∧
  reliable (scripted []) ∧
  snd (send_long_message (scripted []) 4096 7 (Some 5%Z) text None None [])
  = [SendMessage (Some 0)
       (chunk_request 7 (Some 5%Z) 0 (replicate 4076 "x"%char) None);
     Sleep pacing_delay;
     SendMessage (Some 1)
       (chunk_request 7 (Some 5%Z) 1 (replicate 4076 "x"%char) None);
     Sleep pacing_delay;
     SendMessage (Some 2)
       (chunk_request 7 (Some 5%Z) 2 (replicate 848 "x"%char) None)].
Proof.
  intros text.
  assert (Hlen : Z.of_nat (length text) = 9000%Z) by (vm_compute; reflexivity).
  assert (Hnl : newline ∉ text).
  { apply (bool_decide_unpack _). vm_compute. exact I. }
  assert (Hrel : reliable (scripted [])).
  { intros tr req. reflexivity. }
  split; [exact Hlen|]. split; [exact Hnl|]. split; [exact Hrel|].
  exact (proj2 (proj2 (reply_reference_on_first_chunk_only
                         (scripted []) 4096 7 (Some 5%Z) text None None [])
                  eq_refl Hlen Hnl) Hrel).
Defined.


(** ** The media-group buffer *)

Section BufferFacts.

Implicit Types groups : gmap Z (gmap str (list img_detail)).

Lemma lookup_group_empty (c : Z) (g : str) : lookup_group ∅ c g = None.
Proof. unfold lookup_group. by rewrite lookup_empty. Qed.

(** Writing back the groups of a chat changes nothing. *)
Lemma lookup_group_insert_same groups (chat_id c : Z) (g : str) :
  lookup_group (<[chat_id := default ∅ (groups !! chat_id)]> groups) c g
  = lookup_group groups c g.
Proof.
  unfold lookup_group. destruct (decide (c = chat_id)) as [->|Hc].
  - rewrite lookup_insert_eq. destruct (groups !! chat_id); simpl; [done|].
    by rewrite lookup_empty.
  - by rewrite lookup_insert_ne.
Qed.

(** Setting one group changes that group only. *)
Lemma lookup_group_insert groups (chat_id c : Z) (gid g : str)
    (imgs : list img_detail) :
  lookup_group
    (<[chat_id := <[gid := imgs]> (default ∅ (groups !! chat_id))]> groups) c g
  = if decide (c = chat_id ∧ g = gid) then Some imgs
    else lookup_group groups c g.
Proof.
  unfold lookup_group. destruct (decide (c = chat_id)) as [->|Hc].
  - rewrite lookup_insert_eq. simpl.
    destruct (decide (g = gid)) as [->|Hg].
    + rewrite lookup_insert_eq. by rewrite decide_True.
    + rewrite lookup_insert_ne by done. rewrite decide_False by tauto.
      destruct (groups !! chat_id); simpl; [done|]. by rewrite lookup_empty.
  - rewrite lookup_insert_ne by done. by rewrite decide_False by tauto.
Qed.

Lemma lookup_group_ensure (chat_id c : Z) (gid g : str) (st : bot_state) :
  lookup_group (ensure_group chat_id gid st) c g
  = if decide (c = chat_id ∧ g = gid)
    then Some (default [] (group_items st chat_id gid))
    else group_items st c g.
Proof.
  unfold ensure_group, group_items.
  assert (Hdef : ∀ c g, lookup_group (default ∅ (media_groups st)) c g
                        = media_groups st ≫= λ groups, lookup_group groups c g).
  { intros c' g'. destruct (media_groups st); simpl; [done|].
    apply lookup_group_empty. }
  destruct (default ∅ (default ∅ (media_groups st) !! chat_id) !! gid)
    as [imgs|] eqn:Hgid.
  - rewrite lookup_group_insert_same, Hdef.
    case_decide as Heq; [|done]. destruct Heq as [-> ->].
    rewrite <- Hdef. unfold lookup_group.
    destruct (default ∅ (media_groups st) !! chat_id); simpl in *.
    + by rewrite Hgid.
    + by rewrite lookup_empty in Hgid.
  - rewrite lookup_group_insert, Hdef.
    case_decide as Heq; [|done]. destruct Heq as [-> ->].
    rewrite <- Hdef. unfold lookup_group.
    destruct (default ∅ (media_groups st) !! chat_id); simpl in *.
    + by rewrite Hgid.
    + done.
Qed.

End BufferFacts.

Section HandlerFacts.

Variable w : world.
Variable TELEGRAM_MAX_MESSAGE_LENGTH : Z.
Variable MAX_IMAGE_INPUT : Z.
Variable DEFAULT_PROMPT_FOR_IMAGE_IF_NO_CAPTION : str.

Implicit Types groups : gmap Z (gmap str (list img_detail)).

Lemma lookup_group_default groups (c : Z) (g : str) (imgs : list img_detail) :
  lookup_group groups c g = Some imgs →
  default ∅ (groups !! c) !! g = Some imgs.
Proof.
  unfold lookup_group. by destruct (groups !! c).
Qed.

(** An arrival touches the group it is for, and no other. *)
Lemma add_to_media_group_items (chat_id : Z) (gid : str) (user_id : Z)
    (img : img_detail) (st : bot_state) (tr : trace) (c : Z) (g : str) :
  group_items
    (add_to_media_group w MAX_IMAGE_INPUT chat_id gid user_id img st tr).1.2
    c g
  = if decide (c = chat_id ∧ g = gid)
    then Some (after_arrival MAX_IMAGE_INPUT img (default [] (group_items st chat_id gid)))
    else group_items st c g.
Proof.
  pose proof (lookup_group_ensure chat_id c gid g st) as Hens.
  pose proof (lookup_group_ensure chat_id chat_id gid gid st) as Htarget.
  rewrite decide_True in Htarget by done.
  apply lookup_group_default in Htarget.
  unfold add_to_media_group, after_arrival. rewrite Htarget. simpl default.
  set (old := default [] (group_items st chat_id gid)) in *.
  destruct (negb (is_duplicate (message_id img) old)) eqn:Hdup; simpl.
  - destruct (Z.of_nat (length old) <? MAX_IMAGE_INPUT)%Z; simpl.
    + unfold group_items. simpl. rewrite lookup_group_insert.
      case_decide; [done|]. rewrite Hens. by rewrite ?decide_False.
    + case_bool_decide; simpl.
      * unfold group_items at 1. simpl. rewrite Hens. by case_decide.
      * destruct (transport w tr _); simpl; unfold group_items at 1; simpl;
          rewrite Hens; by case_decide.
  - unfold group_items at 1. simpl. rewrite Hens. by case_decide.
Qed.

(** A duplicate arrival makes no call to the outside world. *)
Lemma add_to_media_group_duplicate (chat_id : Z) (gid : str) (user_id : Z)
    (img : img_detail) (st : bot_state) (tr : trace)
    (imgs : list img_detail) :
  group_items st chat_id gid = Some imgs →
  is_duplicate (message_id img) imgs = true →
  (add_to_media_group w MAX_IMAGE_INPUT chat_id gid user_id img st tr).1.1
  = true ∧
  (add_to_media_group w MAX_IMAGE_INPUT chat_id gid user_id img st tr).2 = tr.
Proof.
  intros Hitems Hdup.
  pose proof (lookup_group_ensure chat_id chat_id gid gid st) as Htarget.
  rewrite decide_True, Hitems in Htarget by done.
  apply lookup_group_default in Htarget.
  unfold add_to_media_group. rewrite Htarget. simpl default.
  by rewrite Hdup.
Qed.

Lemma is_duplicate_spec (msg_id : Z) (imgs : list img_detail) :
  is_duplicate msg_id imgs = true ↔ msg_id ∈ message_id <$> imgs.
Proof.
  unfold is_duplicate. rewrite existsb_exists, list_elem_of_fmap.
  split.
  - intros (img & Hin & Heq). apply bool_decide_eq_true in Heq.
    exists img. split; [done|]. by apply list_elem_of_In.
  - intros (img & -> & Hin). exists img. split.
    + by apply list_elem_of_In.
    + by apply bool_decide_eq_true.
Qed.

Lemma after_arrival_NoDup (img : img_detail) (old : list img_detail) :
  NoDup (message_id <$> old) → NoDup (message_id <$> after_arrival MAX_IMAGE_INPUT img old).
Proof.
  intros Hold. unfold after_arrival.
  destruct (is_duplicate (message_id img) old) eqn:Hdup; simpl; [done|].
  destruct (_ <? _)%Z; [|done].
  rewrite fmap_app. apply NoDup_app. split; [done|]. split.
  - intros id Hin Hin'. apply list_elem_of_singleton in Hin' as ->.
    apply is_duplicate_spec in Hin. congruence.
  - apply NoDup_singleton.
Qed.

(** Taking a group out: what is taken, and what is left. *)
Lemma pop_media_group_data (chat_id : Z) (gid : str) (st : bot_state) :
  (pop_media_group chat_id gid st).1 = group_items st chat_id gid.
Proof.
  unfold pop_media_group, group_items, lookup_group.
  destruct (media_groups st) as [groups|]; simpl; [|done].
  destruct (groups !! chat_id) as [chat_groups|]; simpl; [|done].
  by destruct (chat_groups !! gid).
Qed.

Lemma pop_media_group_items (chat_id : Z) (gid : str) (st : bot_state)
    (c : Z) (g : str) :
  group_items (pop_media_group chat_id gid st).2 c g
  = if decide (c = chat_id ∧ g = gid) then None else group_items st c g.
Proof.
  unfold pop_media_group, group_items.
  destruct (media_groups st) as [groups|]; simpl; [|by case_decide].
  unfold lookup_group at 2.
  destruct (groups !! chat_id) as [chat_groups|] eqn:Hchat; simpl.
  2:{ case_decide as Heq; [|done]. destruct Heq as [-> ->].
      unfold lookup_group. by rewrite Hchat. }
  destruct (chat_groups !! gid) as [imgs|] eqn:Hgid; simpl.
  2:{ case_decide as Heq; [|done]. destruct Heq as [-> ->].
      unfold lookup_group. rewrite Hchat. done. }
  set (chat_groups' := delete gid chat_groups).
  set (groups' := if bool_decide (chat_groups' = ∅)
                  then delete chat_id groups
                  else <[chat_id := chat_groups']> groups).
  assert (Hleft : lookup_group groups' c g
                  = if decide (c = chat_id ∧ g = gid) then None
                    else lookup_group groups c g).
  { unfold lookup_group, groups'.
    destruct (decide (c = chat_id)) as [->|Hc].
    - rewrite Hchat. simpl. case_bool_decide as Hempty.
      + rewrite lookup_delete_eq. simpl.
        case_decide as Heq; [done|].
        assert (g ≠ gid) as Hg by (intros ->; by apply Heq).
        rewrite <- (lookup_delete_ne chat_groups gid g) by done.
        fold chat_groups'. by rewrite Hempty, lookup_empty.
      + rewrite lookup_insert_eq. simpl. unfold chat_groups'.
        case_decide as Heq.
        * destruct Heq as [_ ->]. apply lookup_delete_eq.
        * apply lookup_delete_ne. intros ->. by apply Heq.
    - case_decide as Heq; [by destruct Heq|].
      case_bool_decide.
      + by rewrite lookup_delete_ne.
      + by rewrite lookup_insert_ne. }
  case_bool_decide as Hnone; simpl.
  - rewrite Hnone, lookup_group_empty in Hleft. exact Hleft.
  - exact Hleft.
Qed.

Lemma pop_media_group_absent (chat_id : Z) (gid : str) (st : bot_state) :
  group_items st chat_id gid = None →
  pop_media_group chat_id gid st
  = (None,
     {| media_groups := media_groups st;
        notified_overflow := notified_overflow st ∖ {[ (chat_id, gid) ]};
        jobs := jobs st |}).
Proof.
  unfold pop_media_group, group_items, lookup_group.
  destruct (media_groups st) as [groups|]; simpl; [|done].
  destruct (groups !! chat_id) as [chat_groups|]; simpl; [|done].
  by intros ->.
Qed.

(** The state the callback leaves is the one left by taking the group
    out. *)
Lemma callback_state (chat_id : Z) (gid : str) (st : bot_state) (tr : trace) :
  (process_media_group_callback w TELEGRAM_MAX_MESSAGE_LENGTH MAX_IMAGE_INPUT
     DEFAULT_PROMPT_FOR_IMAGE_IF_NO_CAPTION chat_id gid st tr).1.2
  = (pop_media_group chat_id gid st).2.
Proof.
  unfold process_media_group_callback.
  destruct (pop_media_group chat_id gid st) as [[[|img imgs]|] st']; simpl;
    [done| |done].
  by destruct (process_items _ _ _ _ _ _ _).
Qed.

Lemma run_step_no_duplicates (s : step) (st : bot_state) (tr : trace) :
  no_duplicates st →
  no_duplicates
    (run_step w TELEGRAM_MAX_MESSAGE_LENGTH MAX_IMAGE_INPUT
       DEFAULT_PROMPT_FOR_IMAGE_IF_NO_CAPTION s st tr).1.
Proof.
  intros Hinv c g imgs. destruct s as [chat_id gid user_id img|chat_id gid];
    unfold run_step.
  - pose proof (add_to_media_group_items chat_id gid user_id img st tr c g)
      as Hitems.
    destruct (add_to_media_group _ _ _ _ _ _ _ _) as [[ok st'] tr'].
    simpl in *. rewrite Hitems. case_decide as Heq.
    + intros [= <-]. apply after_arrival_NoDup.
      destruct (group_items st chat_id gid) as [old|] eqn:Hold; simpl.
      * by apply (Hinv chat_id gid).
      * constructor.
    + apply Hinv.
  - set (st0 := {| media_groups := media_groups st;
                   notified_overflow := notified_overflow st;
                   jobs := filter _ (jobs st) |}).
    pose proof (callback_state chat_id gid st0 tr) as Hst.
    destruct (process_media_group_callback _ _ _ _ _ _ _ _)
      as [[ok st'] tr']. simpl in *. subst st'.
    rewrite pop_media_group_items. case_decide; [done|]. apply Hinv.
Qed.

Lemma run_no_duplicates (steps : list step) : ∀ (st : bot_state) (tr : trace),
  no_duplicates st →
  no_duplicates
    (run w TELEGRAM_MAX_MESSAGE_LENGTH MAX_IMAGE_INPUT
       DEFAULT_PROMPT_FOR_IMAGE_IF_NO_CAPTION steps st tr).1.
Proof.
  induction steps as [|s steps IH]; intros st tr Hinv; [done|].
  cbn [run]. pose proof (run_step_no_duplicates s st tr Hinv) as Hstep.
  destruct (run_step _ _ _ _ _ _ _) as [st' tr']. by apply IH.
Qed.

End HandlerFacts.

(** ** Properties of the chunk splitter *)

(** C2: the claim that no chunk is empty fails on the code for a line
    exactly as long as the limit (4096 - 20): with nothing pending, the
    branch for a full pending chunk emits the empty pending chunk.  The
    bound on the length of the chunks holds ([split_text_fits]). *)
Theorem split_emits_empty_chunk :
  split_text (limit 4096) (replicate 4076 "a"%char)
  = Some [[]; replicate 4076 "a"%char] ∧
  snd (send_long_message (scripted []) 4096 7 (Some 5%Z)
         (replicate 4076 "a"%char) None None [])
  = [SendMessage (Some 1)
       (chunk_request 7 (Some 5%Z) 1 (replicate 4076 "a"%char) None)].
Proof. split; vm_compute; reflexivity. Qed.

(** C5: for a positive limit the splitter returns chunks, and the text is
    these chunks in order with whitespace (the trimmed ends of the chunks
    and the line breaks between them) before, between and after them. *)
Theorem chunks_rebuild_text (limit : Z) (text : str) :
  (0 < limit)%Z →
  ∃ chunks, split_text limit text = Some chunks ∧ rebuilds chunks text.
Proof.
  intros Hpos. destruct (split_text_fits limit Hpos text) as (chunks & Hs & _).
  exists chunks. split; [done|]. by apply (split_text_rebuilds limit Hpos).
Qed.

Lemma chunks_rebuild_text_witness :
  (0 < 4)%Z ∧
  ∃ chunks,
    split_text 4 (lit "ab" ++ newline :: lit "cd" ++ newline :: lit " ef")
    = Some chunks ∧
    rebuilds chunks (lit "ab" ++ newline :: lit "cd" ++ newline :: lit " ef").
Proof.
  split; [lia|].
  exact (chunks_rebuild_text 4
           (lit "ab" ++ newline :: lit "cd" ++ newline :: lit " ef")
           ltac:(lia)).
Defined.

(** ** Properties of the media-group buffer *)

(** C3: the precedence of the claim fails on the code when the first
    triggered item has the empty caption: the search for another caption is
    skipped and the default prompt is used, although the second item has a
    caption.  The example of the claim (only the second of three items
    triggered, with the only caption) holds. *)
Theorem empty_trigger_caption_hides_other_captions (default_prompt : str) :
  choose_prompt default_prompt
    [album_photo 1 (Some []) (Some (lit "/ai"));
     album_photo 2 (Some (lit "describe these")) (Some (lit "/ai"))]
  = default_prompt ∧
  choose_prompt default_prompt
    [album_photo 1 None None;
     album_photo 2 (Some (lit "describe these")) (Some (lit "/ai"));
     album_photo 3 None None]
  = lit "describe these".
Proof. split; reflexivity. Qed.

(** C7: whatever photos have arrived and whatever timers have fired, a
    buffered media group holds at most one entry per message id, and the
    arrival of a message whose id is already in the group is dropped
    silently: the handler returns, makes no call, and the group is as it
    was. *)
Theorem duplicate_arrivals_are_dropped (w : world)
    (TELEGRAM_MAX_MESSAGE_LENGTH MAX_IMAGE_INPUT : Z)
    (DEFAULT_PROMPT_FOR_IMAGE_IF_NO_CAPTION : str)
    (steps : list step) (tr0 : trace) (chat_id : Z) (media_group_id_str : str)
    (imgs : list img_detail) :
  let st :=
    (run w TELEGRAM_MAX_MESSAGE_LENGTH MAX_IMAGE_INPUT
       DEFAULT_PROMPT_FOR_IMAGE_IF_NO_CAPTION steps initial_state tr0).1 in
  group_items st chat_id media_group_id_str = Some imgs →
  NoDup (message_id <$> imgs) ∧
  ∀ (user_id : Z) (img : img_detail) (tr : trace),
    message_id img ∈ message_id <$> imgs →
    let result :=
      add_to_media_group w MAX_IMAGE_INPUT chat_id media_group_id_str
        user_id img st tr in
    result.1.1 = true ∧ result.2 = tr ∧
    group_items result.1.2 chat_id media_group_id_str = Some imgs.
Proof.
  intros st Hitems. split.
  - apply (run_no_duplicates w TELEGRAM_MAX_MESSAGE_LENGTH MAX_IMAGE_INPUT
             DEFAULT_PROMPT_FOR_IMAGE_IF_NO_CAPTION steps initial_state tr0)
      with chat_id media_group_id_str; [|done].
    intros c g imgs' Hnone. discriminate.
  - intros user_id img tr Hdup result.
    apply is_duplicate_spec in Hdup.
    destruct (add_to_media_group_duplicate w MAX_IMAGE_INPUT chat_id
                media_group_id_str user_id img st tr imgs Hitems Hdup)
      as [Hok Htr].
    split; [done|]. split; [done|]. unfold result.
    rewrite add_to_media_group_items, decide_True by done.
    rewrite Hitems. simpl. unfold after_arrival. by rewrite Hdup.
Qed.

Lemma duplicate_arrivals_are_dropped_witness :
  let steps :=
    [Arrive 1 (lit "album") 9 (album_photo 11 (Some (lit "look")) None);
     Arrive 1 (lit "album") 9 (album_photo 11 (Some (lit "look")) None);
     Arrive 1 (lit "album") 9 (album_photo 12 None None)] in
  let imgs :=
    [album_photo 11 (Some (lit "look")) None; album_photo 12 None None] in
  group_items
    (run (scripted []) 4096 10 (lit "Jelaskan gambar ini") steps
       initial_state []).1 1 (lit "album") = Some imgs ∧
  NoDup (message_id <$> imgs).
Proof.
  intros steps imgs.
  assert (Hitems :
    group_items
      (run (scripted []) 4096 10 (lit "Jelaskan gambar ini") steps
         initial_state []).1 1 (lit "album") = Some imgs)
    by (vm_compute; reflexivity).
  split; [exact Hitems|].
  exact (proj1 (duplicate_arrivals_are_dropped (scripted []) 4096 10
                  (lit "Jelaskan gambar ini") steps [] 1 (lit "album") imgs
                  Hitems)).
Defined.

(** C8: the callback first takes the group out of the buffer, so the group
    is gone afterwards, and everything else it does is done with the items
    taken out; when the group is not in the buffer the callback makes no
    call at all and leaves every group as it was; run again after a flush it
    changes nothing. *)
Theorem flush_takes_group_out_once (w : world)
    (TELEGRAM_MAX_MESSAGE_LENGTH MAX_IMAGE_INPUT : Z)
    (DEFAULT_PROMPT_FOR_IMAGE_IF_NO_CAPTION : str)
    (chat_id : Z) (media_group_id_str : str) (st : bot_state) (tr : trace) :
  let callback :=
    process_media_group_callback w TELEGRAM_MAX_MESSAGE_LENGTH
      MAX_IMAGE_INPUT DEFAULT_PROMPT_FOR_IMAGE_IF_NO_CAPTION
      chat_id media_group_id_str in
  let result := callback st tr in
  group_items result.1.2 chat_id media_group_id_str = None ∧
  (∀ imgs,
     group_items st chat_id media_group_id_str = Some imgs → imgs ≠ [] →
     (result.1.1, result.2)
     = process_items w TELEGRAM_MAX_MESSAGE_LENGTH MAX_IMAGE_INPUT
         DEFAULT_PROMPT_FOR_IMAGE_IF_NO_CAPTION chat_id imgs tr) ∧
  (group_items st chat_id media_group_id_str = None →
   result.1.1 = true ∧ result.2 = tr ∧
   ∀ c g, group_items result.1.2 c g = group_items st c g) ∧
  callback result.1.2 result.2 = (true, result.1.2, result.2).
Proof.
  intros callback result.
  assert (Hst : result.1.2 = (pop_media_group chat_id media_group_id_str st).2)
    by apply callback_state.
  assert (Hgone : group_items result.1.2 chat_id media_group_id_str = None).
  { rewrite Hst, pop_media_group_items. by rewrite decide_True. }
  split; [done|]. split; [|split].
  - intros imgs Hitems Hne. unfold result, callback,
      process_media_group_callback.
    pose proof (pop_media_group_data chat_id media_group_id_str st) as Hdata.
    destruct (pop_media_group chat_id media_group_id_str st) as [data st'].
    simpl in Hdata. rewrite Hdata, Hitems.
    destruct imgs as [|img imgs]; [done|].
    by destruct (process_items _ _ _ _ _ _ _).
  - intros Hnone. unfold result, callback, process_media_group_callback.
    rewrite (pop_media_group_absent _ _ _ Hnone). simpl.
    split; [done|]. split; [done|]. intros c g.
    unfold group_items. done.
  - unfold callback at 1. unfold process_media_group_callback.
    rewrite (pop_media_group_absent _ _ _ Hgone).
    replace (notified_overflow result.1.2 ∖ {[(chat_id, media_group_id_str)]})
      with (notified_overflow result.1.2).
    + by destruct (result.1.2).
    + rewrite Hst. unfold pop_media_group.
      destruct (match media_groups st with Some _ => _ | None => _ end).
      simpl. by rewrite difference_twice_L.
Qed.

Lemma flush_takes_group_out_once_witness :
  let st :=
    (run (scripted []) 4096 10 (lit "Jelaskan gambar ini")
       [Arrive 1 (lit "album") 9 (album_photo 11 None None)]
       initial_state []).1 in
  let result :=
    process_media_group_callback (scripted []) 4096 10
      (lit "Jelaskan gambar ini") 1 (lit "album") st [] in
  group_items st 1 (lit "album") = Some [album_photo 11 None None] ∧
  (result.1.1, result.2)
  = process_items (scripted []) 4096 10 (lit "Jelaskan gambar ini") 1
      [album_photo 11 None None] [].
Proof.
  intros st result.
  assert (Hitems :
    group_items st 1 (lit "album") = Some [album_photo 11 None None])
    by (vm_compute; reflexivity).
  split; [exact Hitems|].
  exact (proj1 (proj2 (flush_takes_group_out_once (scripted []) 4096 10
                         (lit "Jelaskan gambar ini") 1 (lit "album") st []))
           [album_photo 11 None None] Hitems ltac:(discriminate)).
Defined.

(** ** Further properties of the markup balancer *)

Section BalancerMore.

Lemma scan_without_delimiters (t : str) : ∀ stack result,
  Forall (fun c => is_delimiter c = false) t →
  fst (scan t stack result) = stack.
Proof.
  induction t as [|c t IH]; intros stack result Hplain; [done|].
  apply Forall_cons in Hplain as [Hc Hplain].
  unfold is_delimiter in Hc. apply bool_decide_eq_false in Hc.
  rewrite scan_no_backtick.
  - unfold single_step. rewrite bool_decide_eq_false_2 by done. by apply IH.
  - intros ->. apply Hc. unfold single_char_symbols, backtick.
    apply list_elem_of_In. simpl. tauto.
Qed.

Lemma toggle_weight (symbol : str) (stack : list str) :
  weight (toggle symbol stack) <= weight stack + length symbol.
Proof.
  unfold toggle, weight, join. destruct stack as [|top below]; simpl.
  - rewrite app_nil_r. lia.
  - case_bool_decide; simpl; rewrite !length_app; lia.
Qed.

Lemma single_step_weight (char : ascii) (stack : list str) :
  weight (single_step char stack) <= weight stack + 1.
Proof.
  unfold single_step. case_bool_decide; [|lia].
  apply (toggle_weight [char]).
Qed.

(** Every open delimiter was read from the text. *)
Lemma scan_weight (t : str) : ∀ stack result,
  weight (fst (scan t stack result)) <= weight stack + length t.
Proof.
  induction t as [|rest3 IH|char rest Hne IH] using scan_ind;
    intros stack result.
  - simpl. lia.
  - rewrite scan_fence. etransitivity; [apply IH|].
    pose proof (toggle_weight fence stack). rewrite length_app.
    simpl in *. lia.
  - rewrite scan_single by done. etransitivity; [apply IH|].
    pose proof (single_step_weight char stack). simpl. lia.
Qed.

End BalancerMore.

(** X1: a text in which none of the characters [*], [`] and [~] occurs is
    returned unchanged by the balancer. *)
Theorem balancer_keeps_text_without_delimiters (t : str) :
  Forall (fun c => is_delimiter c = false) t →
  ensure_valid_markdown t = t.
Proof.
  intros Hplain. rewrite ensure_valid_markdown_eq. unfold unclosed.
  rewrite scan_without_delimiters by done. apply app_nil_r.
Qed.

Lemma balancer_keeps_text_without_delimiters_witness :
  Forall (fun c => is_delimiter c = false) (lit "Halo, apa kabar?") ∧
  ensure_valid_markdown (lit "Halo, apa kabar?") = lit "Halo, apa kabar?".
Proof.
  assert (Hplain : Forall (fun c => is_delimiter c = false)
                     (lit "Halo, apa kabar?")).
  { apply (bool_decide_unpack _). vm_compute. exact I. }
  split; [exact Hplain|].
  exact (balancer_keeps_text_without_delimiters _ Hplain).
Defined.

(** X2: the balancer at most doubles the length of a text: every closer it
    appends answers a delimiter of the input. *)
Theorem balancer_output_at_most_doubles (t : str) :
  length (ensure_valid_markdown t) <= 2 * length t.
Proof.
  rewrite ensure_valid_markdown_eq, length_app.
  pose proof (scan_weight t [] []) as Hw. unfold weight, unclosed in *.
  simpl in Hw. lia.
Qed.

(** ** Further properties of the chunk splitter *)

Section SplitterMore.

Variable limit : Z.

(** While every line still fits, nothing is emitted and the pending chunk is
    the text read so far. *)
Lemma split_lines_room (n : nat) (lines : list str) :
  ∀ (i : nat) (current_chunk : str),
  (Z.of_nat (length current_chunk + length (unsplit n i lines)) + 1
   <= limit)%Z →
  split_lines limit n i lines ([], current_chunk)
  = Some ([], current_chunk ++ unsplit n i lines).
Proof.
  induction lines as [|line rest IH]; intros i current Hroom;
    cbn [split_lines unsplit] in *.
  - by rewrite app_nil_r.
  - rewrite !length_app in Hroom. unfold split_line.
    destruct (Z.ltb_spec limit (Z.of_nat (length line))); [lia|].
    destruct (Z.leb_spec (Z.of_nat (length current + length line + 1)) limit);
      [|lia].
    cbn [mbind option_bind]. rewrite IH.
    + by rewrite <- !app_assoc.
    + rewrite !length_app. lia.
Qed.

Lemma slices_from_lengths (fuel step : nat) : ∀ (line : str) (k : nat) slice,
  0 < step →
  slices_from fuel step line !! k = Some slice →
  slice ≠ [] ∧
  (k + 1 < length (slices_from fuel step line) → length slice = step).
Proof.
  induction fuel as [|fuel IH]; intros line k slice Hstep Hk; [done|].
  destruct line as [|c line]; [done|]. cbn [slices_from] in *.
  destruct k as [|k]; simpl in Hk.
  - injection Hk as <-. split.
    + destruct step; [lia|done].
    + intros Hmore. rewrite length_take. simpl in Hmore.
      destruct fuel as [|fuel]; simpl in Hmore; [lia|].
      destruct (drop step (c :: line)) as [|d rest] eqn:Hdrop;
        simpl in Hmore; [lia|].
      assert (length (drop step (c :: line)) = S (length rest))
        by (by rewrite Hdrop).
      rewrite length_drop in *. lia.
  - destruct (IH _ _ _ Hstep Hk) as [Hne Hlen]. split; [done|].
    intros Hmore. apply Hlen. simpl in Hmore. lia.
Qed.

(** A line without content makes no chunk raise; a line with content does
    when the limit is zero. *)
Lemma split_lines_zero (n : nat) (lines : list str) :
  ∀ (i : nat) (st : list str * str),
  limit = 0%Z → (∃ line, line ∈ lines ∧ line ≠ []) →
  split_lines limit n i lines st = None.
Proof.
  intros i st -> (line & Hin & Hne). revert i st.
  induction lines as [|first rest IH]; intros i [chunks current].
  - by apply elem_of_nil in Hin.
  - cbn [split_lines]. destruct first as [|c first].
    + apply elem_of_cons in Hin as [->|Hin]; [done|].
      unfold split_line. simpl.
      destruct (Z.leb_spec (Z.of_nat (length current + 0 + 1)) 0); [lia|].
      cbn [mbind option_bind]. by apply IH.
    + unfold split_line. simpl length.
      destruct (Z.ltb_spec 0 (Z.of_nat (S (length first)))); [|lia].
      by destruct (truthy current).
Qed.

Lemma split_newline_content (text : str) :
  (∃ c, c ∈ text ∧ c ≠ newline) →
  ∃ line, line ∈ split_newline text ∧ line ≠ [].
Proof.
  intros (c & Hin & Hc). induction text as [|d text IH].
  - by apply elem_of_nil in Hin.
  - simpl. case_bool_decide as Hd.
    + apply elem_of_cons in Hin as [->|Hin]; [done|].
      destruct (IH Hin) as (line & Hline & Hne).
      exists line. split; [by right|done].
    + pose proof (split_newline_nonempty text) as Hpos.
      destruct (split_newline text) as [|line lines]; simpl in Hpos; [lia|].
      exists (d :: line). split; [by left|done].
Qed.

Lemma split_lines_negative (n : nat) (lines : list str) : ∀ (i : nat),
  (limit < 0)%Z → split_lines limit n i lines ([], []) = Some ([], []).
Proof.
  intros i Hneg. revert i.
  induction lines as [|line rest IH]; intros i; [done|].
  cbn [split_lines]. unfold split_line, forced_slices.
  destruct (Z.ltb_spec limit (Z.of_nat (length line))); [|lia].
  destruct (Z.eqb_spec limit 0); [lia|].
  destruct (Z.ltb_spec limit 0); [|lia].
  simpl. apply IH.
Qed.

End SplitterMore.

(** X3: for a positive limit the splitter raises nothing and every chunk it
    returns is at most as long as the limit. *)
Theorem chunks_within_limit (limit : Z) (text : str) :
  (0 < limit)%Z →
  ∃ chunks,
    split_text limit text = Some chunks ∧
    Forall (fun chunk => (Z.of_nat (length chunk) <= limit)%Z) chunks.
Proof. intros Hpos. exact (split_text_fits limit Hpos text). Qed.

Lemma chunks_within_limit_witness :
  (0 < 4)%Z ∧
  ∃ chunks,
    split_text 4 (lit "abcdefghij") = Some chunks ∧
    Forall (fun chunk => (Z.of_nat (length chunk) <= 4)%Z) chunks.
Proof.
  split; [lia|].
  exact (chunks_within_limit 4 (lit "abcdefghij") ltac:(lia)).
Defined.

(** X4: a text that, with one character to spare, is within the limit is
    not split: the only chunk is the text with its surrounding whitespace
    removed, and there is no chunk at all when that leaves nothing. *)
Theorem short_text_is_one_chunk (limit : Z) (text : str) :
  (Z.of_nat (length text) + 1 <= limit)%Z →
  split_text limit text
  = Some (if truthy (strip text) then [strip text] else []).
Proof.
  intros Hshort. unfold split_text.
  pose proof (unsplit_split_newline text (length (split_newline text)) 0
                eq_refl) as Hun.
  rewrite (split_lines_room limit); rewrite Hun; [|simpl; lia].
  simpl. by destruct (truthy (strip text)).
Qed.

Lemma short_text_is_one_chunk_witness :
  (Z.of_nat (length (lit " hi")) + 1 <= 4076)%Z ∧
  split_text 4076 (lit " hi") = Some [lit "hi"].
Proof.
  split; [vm_compute; discriminate|].
  exact (short_text_is_one_chunk 4076 (lit " hi")
           ltac:(vm_compute; discriminate)).
Defined.

(** X5: a text without a line break that is longer than a positive limit is
    cut into consecutive slices: they concatenate to the text, none is
    empty, and every slice but the last has exactly the length of the
    limit. *)
Theorem long_line_is_sliced (limit : Z) (text : str) :
  (0 < limit)%Z → newline ∉ text → (limit < Z.of_nat (length text))%Z →
  ∃ slices,
    split_text limit text = Some slices ∧
    concat slices = text ∧
    ∀ k slice, slices !! k = Some slice →
      slice ≠ [] ∧
      (Z.of_nat (length slice) <= limit)%Z ∧
      (k + 1 < length slices → Z.of_nat (length slice) = limit).
Proof.
  intros Hpos Hnl Hlong.
  exists (slices_from (length text) (Z.to_nat limit) text).
  split; [by apply split_text_single_long_line|].
  split; [by apply slices_from_concat|].
  intros k slice Hk.
  assert (Hstep : 0 < Z.to_nat limit) by lia.
  destruct (slices_from_lengths _ _ _ _ _ Hstep Hk) as [Hne Hlen].
  split; [done|]. split.
  - pose proof (slices_from_fits limit Hpos (length text) text) as Hfits.
    rewrite Forall_lookup in Hfits. exact (Hfits k slice Hk).
  - intros Hmore. rewrite (Hlen Hmore). lia.
Qed.

Lemma long_line_is_sliced_witness :
  (0 < 20)%Z ∧ (newline ∉ replicate 25 "a"%char) ∧
  (20 < Z.of_nat (length (replicate 25 "a"%char)))%Z ∧
  ∃ slices,
    split_text 20 (replicate 25 "a"%char) = Some slices ∧
    concat slices = replicate 25 "a"%char ∧
    ∀ k slice, slices !! k = Some slice →
      slice ≠ [] ∧
      (Z.of_nat (length slice) <= 20)%Z ∧
      (k + 1 < length slices → Z.of_nat (length slice) = 20%Z).
Proof.
  assert (Hnl : newline ∉ replicate 25 "a"%char).
  { apply (bool_decide_unpack _). vm_compute. exact I. }
  split; [lia|]. split; [exact Hnl|]. split; [vm_compute; reflexivity|].
  exact (long_line_is_sliced 20 (replicate 25 "a"%char) ltac:(lia) Hnl
           ltac:(vm_compute; reflexivity)).
Defined.

(** X6: the limit is the configured length less 20.  When the configured
    length is exactly 20, delivering a text that has a character other than
    a line break raises (the slicing step is zero) before anything is sent;
    when it is below 20, every text is dropped without a call. *)
Theorem degenerate_length_setting (w : world)
    (TELEGRAM_MAX_MESSAGE_LENGTH chat_id : Z)
    (reply_to_message_id : option Z) (text_to_send : str)
    (parse_mode : option ParseMode)
    (original_text_if_markdown_fails : option str) (tr : trace) :
  (TELEGRAM_MAX_MESSAGE_LENGTH = 20%Z →
   (∃ c, c ∈ text_to_send ∧ c ≠ newline) →
   send_long_message w TELEGRAM_MAX_MESSAGE_LENGTH chat_id
     reply_to_message_id text_to_send parse_mode
     original_text_if_markdown_fails tr = (false, tr)) ∧
  ((TELEGRAM_MAX_MESSAGE_LENGTH < 20)%Z →
   send_long_message w TELEGRAM_MAX_MESSAGE_LENGTH chat_id
     reply_to_message_id text_to_send parse_mode
     original_text_if_markdown_fails tr = (true, tr)).
Proof.
  split.
  - intros -> Hcontent. unfold send_long_message, choose_text.
    destruct text_to_send as [|c text]; [by destruct Hcontent as (? & ?%elem_of_nil & _)|].
    cbn [truthy]. unfold split_text.
    rewrite (split_lines_zero (limit 20)); [done|done|].
    by apply split_newline_content.
  - intros Hlow. unfold send_long_message.
    destruct (choose_text _ _ _) as [[text mode]|]; [|done].
    unfold split_text.
    rewrite split_lines_negative by (unfold limit; lia). done.
Qed.

Lemma degenerate_length_setting_witness :
  (∃ c, c ∈ lit "hi" ∧ c ≠ newline) ∧
  send_long_message (scripted []) 20 7 None (lit "hi") None None []
  = (false, []).
Proof.
  assert (Hcontent : ∃ c, c ∈ lit "hi" ∧ c ≠ newline).
  { exists "h"%char. split; [by left|discriminate]. }
  split; [exact Hcontent|].
  exact (proj1 (degenerate_length_setting (scripted []) 20 7 None (lit "hi")
                  None None []) eq_refl Hcontent).
Defined.

(** ** Further properties of the delivery loop *)

Section Counting.

Context {A : Type}.

Lemma count_app (test : A → bool) (l1 l2 : list A) :
  count test (l1 ++ l2) = count test l1 + count test l2.
Proof. unfold count. by rewrite List.filter_app, length_app. Qed.

Lemma count_cons (test : A → bool) (x : A) (l : list A) :
  count test (x :: l) = (if test x then 1 else 0) + count test l.
Proof. unfold count. simpl. by destruct (test x). Qed.

Lemma count_le_length (test : A → bool) (l : list A) :
  count test l <= length l.
Proof. unfold count. apply List.filter_length_le. Qed.

End Counting.

Lemma sent_texts_app (evs1 evs2 : list event) :
  sent_texts (evs1 ++ evs2) = sent_texts evs1 ++ sent_texts evs2.
Proof. apply omap_app. Qed.

Lemma added_app (tr evs : trace) : added tr (tr ++ evs) = evs.
Proof. unfold added. by rewrite drop_app_length. Qed.

Section DeliveryMore.

Variable w : world.
Variable chat_id : Z.
Variable reply_to_message_id : option Z.
Variable mode : option ParseMode.

Lemma pacing_events_quiet (n i : nat) :
  count is_notice (pacing_events n i) = 0 ∧
  (∀ j, count (is_send_of j) (pacing_events n i) = 0) ∧
  sent_texts (pacing_events n i) = [] ∧
  count is_provider_sleep (pacing_events n i) = 0.
Proof. unfold pacing_events. by destruct (_ && _). Qed.

Lemma last_attempt_events_counts (i : nat) (outcome : send_outcome) :
  count is_notice (last_attempt_events chat_id reply_to_message_id i outcome)
  <= (if i =? 0 then 1 else 0) ∧
  ∀ j, count (is_send_of j)
         (last_attempt_events chat_id reply_to_message_id i outcome) = 0.
Proof.
  unfold last_attempt_events, count.
  destruct outcome; destruct (i =? 0); simpl; try case_bool_decide; simpl;
    (split; [lia|done]).
Qed.

(** Counts the calls of an explicit list of events, given what is known of
    its tails. *)
Local Ltac solve_counts Hself Hother Hpn Hps Hts :=
  repeat split; try intros ? ?;
  repeat (rewrite count_app || rewrite count_cons);
  rewrite ?Hself, ?Hother, ?Hpn, ?Hps, ?Hts by done; simpl;
  repeat (match goal with
          | |- context [?a && _] => destruct a; simpl
          | |- context [if ?b then _ else _] => destruct b; simpl
          end);
  lia.

(** The calls made for one non-empty chunk: one or two sends of that chunk,
    no send of another, and at most one notice, none unless the chunk is
    the first. *)
Lemma send_chunk_counts (n i : nat) (chunk_text : str) (tr : trace) :
  chunk_text ≠ [] →
  ∃ evs,
    send_chunk w chat_id reply_to_message_id mode n i chunk_text tr
    = tr ++ evs ∧
    count is_notice evs <= (if i =? 0 then 1 else 0) ∧
    1 <= count (is_send_of i) evs <= 2 ∧
    ∀ j, j ≠ i → count (is_send_of j) evs = 0.
Proof.
  intros Hne. rewrite send_chunk_nonempty by done.
  destruct (prepare_chunk mode chunk_text) as [text mode0].
  destruct (pacing_events_quiet n i) as (Hpn & Hps & _ & _).
  assert (Hself : ∀ req, is_send_of i (SendMessage (Some i) req) = true)
    by (intros; simpl; apply Nat.eqb_refl).
  assert (Hother : ∀ j req, j ≠ i →
            is_send_of j (SendMessage (Some i) req) = false)
    by (intros; simpl; by apply Nat.eqb_neq).
  assert (Hts : True) by done.
  set (first := chunk_request chat_id reply_to_message_id i text mode0).
  destruct (transport w tr first) as [|retry_after|message| |] eqn:Hout.
  - exists ([SendMessage (Some i) first] ++ pacing_events n i).
    split; [|solve_counts Hself Hother Hpn Hps Hts].
    cbn [attempt_loop]. unfold send_attempt, send_message.
    fold (chunk_request chat_id reply_to_message_id i text mode0).
    fold first. rewrite Hout. by rewrite <- app_assoc.
  - rewrite (attempt_loop_rate_limited _ _ _ _ _ _ _ _ _ Hout).
    rewrite attempt_loop_last. fold first.
    set (tail := last_attempt_events _ _ _ _). clear Hts.
    destruct (last_attempt_events_counts i
                (transport w
                   (tr ++ [SendMessage (Some i) first;
                           Sleep (provider_delay retry_after)]) first))
      as [Htn Hts]. fold tail in Htn, Hts.
    exists ([SendMessage (Some i) first; Sleep (provider_delay retry_after)]
            ++ [SendMessage (Some i) first] ++ tail ++ pacing_events n i).
    split; [by rewrite <- !app_assoc|]. solve_counts Hself Hother Hpn Hps Hts.
  - destruct (cant_parse_entities message
              && bool_decide (mode0 = Some MARKDOWN)) eqn:Hcond.
    + apply andb_true_iff in Hcond as [Hparse Hmode].
      apply bool_decide_eq_true in Hmode. subst mode0.
      rewrite (attempt_loop_format_rejected _ _ _ _ _ _ _ _ Hout Hparse).
      rewrite attempt_loop_last. fold first.
      set (plain := chunk_request chat_id reply_to_message_id i chunk_text
                      None).
      set (tail := last_attempt_events _ _ _ _). clear Hts.
      destruct (last_attempt_events_counts i
                  (transport w (tr ++ [SendMessage (Some i) first]) plain))
        as [Htn Hts]. fold tail in Htn, Hts.
      exists ([SendMessage (Some i) first] ++ [SendMessage (Some i) plain]
              ++ tail ++ pacing_events n i).
      split; [by rewrite <- !app_assoc|]. solve_counts Hself Hother Hpn Hps Hts.
    + exists ([SendMessage (Some i) first]
              ++ (if i =? 0
                  then [notice_event chat_id notice_bad_request] else [])
              ++ pacing_events n i).
      split; [|solve_counts Hself Hother Hpn Hps Hts].
      cbn [attempt_loop]. unfold send_attempt, send_message.
      fold (chunk_request chat_id reply_to_message_id i text mode0).
      fold first. rewrite Hout, Hcond. unfold send_notice, send_message.
      simpl. destruct (i =? 0); by rewrite <- ?app_assoc.
  - exists ([SendMessage (Some i) first]
            ++ (if i =? 0
                then [notice_event chat_id notice_telegram_error] else [])
            ++ pacing_events n i).
    split; [|solve_counts Hself Hother Hpn Hps Hts].
    cbn [attempt_loop]. unfold send_attempt, send_message.
    fold (chunk_request chat_id reply_to_message_id i text mode0).
    fold first. rewrite Hout. unfold send_notice, send_message.
    simpl. destruct (i =? 0); by rewrite <- ?app_assoc.
  - exists ([SendMessage (Some i) first]
            ++ (if (i =? 0) && bool_decide (reply_to_message_id = None)
                then [notice_event chat_id notice_unexpected] else [])
            ++ pacing_events n i).
    split; [|solve_counts Hself Hother Hpn Hps Hts].
    cbn [attempt_loop]. unfold send_attempt, send_message.
    fold (chunk_request chat_id reply_to_message_id i text mode0).
    fold first. rewrite Hout. unfold send_notice, send_message.
    simpl. destruct (_ && _); by rewrite <- ?app_assoc.
Qed.

Lemma send_chunks_counts (n : nat) (rest : list str) : ∀ (i : nat) (tr : trace),
  ∃ evs,
    send_chunks w chat_id reply_to_message_id mode n i rest tr = tr ++ evs ∧
    count is_notice evs <= (if i =? 0 then 1 else 0) ∧
    (∀ j, count (is_send_of j) evs <= 2) ∧
    (∀ j, j < i → count (is_send_of j) evs = 0).
Proof.
  induction rest as [|chunk_text rest IH]; intros i tr.
  - exists []. rewrite app_nil_r. unfold count.
    repeat split; simpl; intros; try destruct (i =? 0); lia.
  - cbn [send_chunks].
    assert (Hchunk : ∃ evs,
      send_chunk w chat_id reply_to_message_id mode n i chunk_text tr
      = tr ++ evs ∧
      count is_notice evs <= (if i =? 0 then 1 else 0) ∧
      count (is_send_of i) evs <= 2 ∧
      ∀ j, j ≠ i → count (is_send_of j) evs = 0).
    { destruct (decide (chunk_text = [])) as [->|Hne].
      - exists []. rewrite app_nil_r. unfold count.
        repeat split; simpl; intros; try destruct (i =? 0); lia.
      - destruct (send_chunk_counts n i chunk_text tr Hne)
          as (evs & Heq & Hn & [_ Hs] & Ho). by exists evs. }
    destruct Hchunk as (evs & -> & Hn & Hs & Ho).
    destruct (IH (S i) (tr ++ evs)) as (evs' & -> & Hn' & Hs' & Hb').
    exists (evs ++ evs'). split; [by rewrite app_assoc|].
    rewrite count_app. simpl in Hn'. split; [lia|]. split.
    + intros j. rewrite count_app.
      destruct (decide (j = i)) as [->|Hj].
      * rewrite (Hb' i) by lia. lia.
      * rewrite (Ho j Hj). apply Hs'.
    + intros j Hj. rewrite count_app, (Ho j), (Hb' j) by lia. done.
Qed.

End DeliveryMore.

Section DeliveryEvents.

Variable w : world.
Variable chat_id : Z.
Variable reply_to_message_id : option Z.
Variable mode : option ParseMode.
Variable chunks : list str.

Let allowed : list event → Prop :=
  Forall (delivery_event chat_id reply_to_message_id mode chunks).

(** Each call in the list is justified by a hypothesis at hand. *)
Local Ltac each_event :=
  repeat first
    [ apply Forall_nil_2
    | apply Forall_cons_2; [first [eassumption | by eauto | exact I]|] ].

Lemma send_attempt_events (i attempt : nat) (chunk_text text : str)
    (mode0 : option ParseMode) (tr : trace) :
  chunks !! i = Some chunk_text → chunk_text ≠ [] →
  (text, mode0) = prepare_chunk mode chunk_text
  ∨ (text, mode0) = (chunk_text, None) →
  ∃ evs,
    (send_attempt w chat_id reply_to_message_id i attempt chunk_text
       (text, mode0) tr).2 = tr ++ evs ∧
    allowed evs ∧
    let st :=
      (send_attempt w chat_id reply_to_message_id i attempt chunk_text
         (text, mode0) tr).1.2 in
    st = prepare_chunk mode chunk_text ∨ st = (chunk_text, None).
Proof.
  intros Hi Hne Hst.
  assert (Hsend : delivery_event chat_id reply_to_message_id mode chunks
            (SendMessage (Some i)
               {| req_chat_id := chat_id; req_text := text;
                  req_reply_to_message_id :=
                    if i =? 0 then reply_to_message_id else None;
                  req_parse_mode := mode0 |})).
  { exists chunk_text. split; [done|]. split; [done|].
    destruct Hst as [Hst|Hst]; [left|right].
    - by rewrite <- Hst.
    - by injection Hst as -> ->. }
  assert (Hnotice : ∀ text, text ∈ [notice_bad_request;
                                     notice_telegram_error;
                                     notice_unexpected] →
            delivery_event chat_id reply_to_message_id mode chunks
              (SendMessage None
                 {| req_chat_id := chat_id; req_text := text;
                    req_reply_to_message_id := None;
                    req_parse_mode := None |})).
  { intros notice Hin. by exists notice. }
  assert (H1 := Hnotice notice_bad_request ltac:(repeat constructor)).
  assert (H2 := Hnotice notice_telegram_error ltac:(repeat constructor)).
  assert (H3 := Hnotice notice_unexpected ltac:(repeat constructor)).
  assert (Hsleep : ∀ d, delivery_event chat_id reply_to_message_id mode
                          chunks (Sleep d)) by done.
  unfold send_attempt, send_message, send_notice, send_message, sleep.
  destruct (transport w tr _) as [|retry_after|message| |]; simpl.
  - eexists. split; [done|]. split; [|done]. by each_event.
  - eexists. split; [by rewrite <- app_assoc|]. split; [|done].
    by each_event.
  - destruct (_ && _ && _); simpl.
    + eexists. split; [done|]. split; [by each_event|by right].
    + destruct (i =? 0); simpl.
      * eexists. split; [by rewrite <- app_assoc|]. split; [|done].
        by each_event.
      * eexists. split; [done|]. split; [|done]. by each_event.
  - destruct (i =? 0); simpl.
    + eexists. split; [by rewrite <- app_assoc|]. split; [|done].
      by each_event.
    + eexists. split; [done|]. split; [|done]. by each_event.
  - destruct (_ && _); simpl.
    + eexists. split; [by rewrite <- app_assoc|]. split; [|done].
      by each_event.
    + eexists. split; [done|]. split; [|done]. by each_event.
Qed.

Lemma attempt_loop_events (attempts : list nat) (i : nat)
    (chunk_text : str) : ∀ (text : str) (mode0 : option ParseMode) (tr : trace),
  chunks !! i = Some chunk_text → chunk_text ≠ [] →
  (text, mode0) = prepare_chunk mode chunk_text
  ∨ (text, mode0) = (chunk_text, None) →
  ∃ evs,
    attempt_loop w chat_id reply_to_message_id attempts i chunk_text
      (text, mode0) tr = tr ++ evs ∧
    allowed evs.
Proof.
  induction attempts as [|attempt attempts IH];
    intros text mode0 tr Hi Hne Hst.
  - exists []. split; [by rewrite app_nil_r|constructor].
  - cbn [attempt_loop].
    destruct (send_attempt_events i attempt chunk_text text mode0 tr
                Hi Hne Hst) as (evs & Htr & Hevs & Hst').
    destruct (send_attempt w chat_id reply_to_message_id i attempt chunk_text
                (text, mode0) tr) as [[break [text' mode']] tr'].
    simpl in Htr, Hst'. subst tr'. destruct break.
    + by exists evs.
    + destruct (IH text' mode' (tr ++ evs) Hi Hne)
        as (evs' & -> & Hevs').
      { destruct Hst' as [<-|<-]; [by left|by right]. }
      exists (evs ++ evs'). split; [by rewrite app_assoc|].
      by apply Forall_app.
Qed.

Lemma send_chunk_events (n i : nat) (chunk_text : str) (tr : trace) :
  chunks !! i = Some chunk_text →
  ∃ evs,
    send_chunk w chat_id reply_to_message_id mode n i chunk_text tr
    = tr ++ evs ∧
    allowed evs.
Proof.
  intros Hi. destruct (decide (chunk_text = [])) as [->|Hne].
  - exists []. split; [by rewrite app_nil_r|constructor].
  - rewrite send_chunk_nonempty by done.
    destruct (prepare_chunk mode chunk_text) as [text mode0] eqn:Hprep.
    destruct (attempt_loop_events [0; 1] i chunk_text text mode0 tr
                Hi Hne) as (evs & -> & Hevs); [by left|].
    exists (evs ++ pacing_events n i). split; [by rewrite app_assoc|].
    apply Forall_app. split; [done|].
    unfold pacing_events. destruct (_ && _); by repeat constructor.
Qed.

Lemma send_chunks_events (n : nat) (rest : list str) : ∀ (i : nat) (tr : trace),
  drop i chunks = rest →
  ∃ evs,
    send_chunks w chat_id reply_to_message_id mode n i rest tr = tr ++ evs ∧
    allowed evs.
Proof.
  induction rest as [|chunk_text rest IH]; intros i tr Hdrop.
  - exists []. split; [by rewrite app_nil_r|constructor].
  - cbn [send_chunks].
    assert (Hi : chunks !! i = Some chunk_text).
    { rewrite <- (Nat.add_0_r i), <- lookup_drop. by rewrite Hdrop. }
    destruct (send_chunk_events n i chunk_text tr Hi) as (evs & -> & Hevs).
    destruct (IH (S i) (tr ++ evs)) as (evs' & -> & Hevs').
    { by rewrite <- (Nat.add_1_r i), <- drop_drop, Hdrop. }
    exists (evs ++ evs'). split; [by rewrite app_assoc|].
    by apply Forall_app.
Qed.

(** With a reliable transport the texts sent are those of the non-empty
    chunks, in order, and there is neither a notice nor a sleep asked for by
    the provider. *)
Lemma send_chunks_reliable (n : nat) (rest : list str) :
  reliable w → ∀ (i : nat) (tr : trace),
  ∃ evs,
    send_chunks w chat_id reply_to_message_id mode n i rest tr = tr ++ evs ∧
    sent_texts evs
    = (fun chunk_text => (prepare_chunk mode chunk_text).1)
        <$> List.filter truthy rest ∧
    count is_notice evs = 0 ∧ count is_provider_sleep evs = 0.
Proof.
  intros Hrel. induction rest as [|chunk_text rest IH]; intros i tr.
  - exists []. by rewrite app_nil_r.
  - cbn [send_chunks List.filter].
    destruct (pacing_events_quiet n i) as (Hpn & _ & Hpt & Hps).
    destruct (decide (chunk_text = [])) as [->|Hne].
    + unfold send_chunk. simpl. apply IH.
    + rewrite (send_chunk_reliable w chat_id reply_to_message_id mode n i
                 chunk_text tr Hrel Hne).
      destruct (IH (S i)
                  (tr ++ [SendMessage (Some i)
                            (chunk_request chat_id reply_to_message_id i
                               (prepare_chunk mode chunk_text).1
                               (prepare_chunk mode chunk_text).2)]
                      ++ pacing_events n i))
        as (evs & -> & Htexts & Hn & Hs).
      eexists. split; [by rewrite <- !app_assoc|].
      apply truthy_true in Hne as ->.
      rewrite !sent_texts_app, Htexts, Hpt.
      rewrite !count_app, Hn, Hs, Hpn, Hps. done.
Qed.

End DeliveryEvents.

(** X7: one call of [send_long_message] sends at most one error notice. *)
Theorem at_most_one_error_notice (w : world)
    (TELEGRAM_MAX_MESSAGE_LENGTH chat_id : Z)
    (reply_to_message_id : option Z) (text_to_send : str)
    (parse_mode : option ParseMode)
    (original_text_if_markdown_fails : option str) (tr : trace) :
  count is_notice
    (added tr
       (send_long_message w TELEGRAM_MAX_MESSAGE_LENGTH chat_id
          reply_to_message_id text_to_send parse_mode
          original_text_if_markdown_fails tr).2) <= 1.
Proof.
  unfold send_long_message.
  assert (Hnone : count is_notice (added tr tr) <= 1).
  { unfold added. rewrite drop_all. unfold count. simpl. lia. }
  destruct (choose_text _ _ _) as [[text mode]|]; [|done].
  destruct (split_text _ _) as [chunks|]; [|done]. cbn [snd].
  destruct (send_chunks_counts w chat_id reply_to_message_id mode
              (length chunks) chunks 0 tr) as (evs & -> & Hn & _).
  by rewrite added_app.
Qed.

(** X8: one call of [send_long_message] hands each chunk to the transport
    at most twice. *)
Theorem each_chunk_sent_at_most_twice (w : world)
    (TELEGRAM_MAX_MESSAGE_LENGTH chat_id : Z)
    (reply_to_message_id : option Z) (text_to_send : str)
    (parse_mode : option ParseMode)
    (original_text_if_markdown_fails : option str) (tr : trace) (i : nat) :
  count (is_send_of i)
    (added tr
       (send_long_message w TELEGRAM_MAX_MESSAGE_LENGTH chat_id
          reply_to_message_id text_to_send parse_mode
          original_text_if_markdown_fails tr).2) <= 2.
Proof.
  unfold send_long_message.
  assert (Hnone : count (is_send_of i) (added tr tr) <= 2).
  { unfold added. rewrite drop_all. unfold count. simpl. lia. }
  destruct (choose_text _ _ _) as [[text mode]|]; [|done].
  destruct (split_text _ _) as [chunks|]; [|done]. cbn [snd].
  destruct (send_chunks_counts w chat_id reply_to_message_id mode
              (length chunks) chunks 0 tr) as (evs & -> & _ & Hs & _).
  rewrite added_app. apply Hs.
Qed.

(** X9: when the transport delivers every message, the texts sent are
    exactly the non-empty chunks of the text, each once and in order (in
    marked-up mode each rebalanced), and no notice is sent and no delay of
    the provider slept. *)
Theorem reliable_delivery_sends_each_chunk_once (w : world)
    (TELEGRAM_MAX_MESSAGE_LENGTH chat_id : Z)
    (reply_to_message_id : option Z) (text_to_send : str)
    (parse_mode : option ParseMode)
    (original_text_if_markdown_fails : option str) (tr : trace)
    (text : str) (mode : option ParseMode) (chunks : list str) :
  reliable w →
  choose_text text_to_send parse_mode original_text_if_markdown_fails
  = Some (text, mode) →
  split_text (limit TELEGRAM_MAX_MESSAGE_LENGTH) text = Some chunks →
  let evs :=
    added tr
      (send_long_message w TELEGRAM_MAX_MESSAGE_LENGTH chat_id
         reply_to_message_id text_to_send parse_mode
         original_text_if_markdown_fails tr).2 in
  sent_texts evs
  = (fun chunk_text => (prepare_chunk mode chunk_text).1)
      <$> List.filter truthy chunks ∧
  count is_notice evs = 0 ∧ count is_provider_sleep evs = 0.
Proof.
  intros Hrel Hchoose Hsplit evs. unfold evs, send_long_message.
  rewrite Hchoose, Hsplit. cbn [snd].
  destruct (send_chunks_reliable w chat_id reply_to_message_id mode
              (length chunks) chunks Hrel 0 tr) as (evs' & -> & Hrest).
  by rewrite added_app.
Qed.

Lemma reliable_delivery_sends_each_chunk_once_witness :
  reliable (scripted []) ∧
  choose_text (lit "*a") (Some MARKDOWN) None = Some (lit "*a", Some MARKDOWN) ∧
  split_text (limit 4096) (lit "*a") = Some [lit "*a"] ∧
  sent_texts
    (added []
       (send_long_message (scripted []) 4096 7 None (lit "*a")
          (Some MARKDOWN) None []).2) = [lit "*a*"].
Proof.
  assert (Hrel : reliable (scripted [])) by (intros tr req; reflexivity).
  split; [exact Hrel|]. split; [reflexivity|]. split; [reflexivity|].
  exact (proj1 (reliable_delivery_sends_each_chunk_once (scripted []) 4096 7
                  None (lit "*a") (Some MARKDOWN) None [] (lit "*a")
                  (Some MARKDOWN) [lit "*a"] Hrel eq_refl eq_refl)).
Defined.

(** X10: every call the delivery loop makes is a send of a non-empty chunk,
    one of the three error notices, or a sleep.  A chunk is sent either with
    the text and format it was first prepared with, or as the raw chunk in
    plain format: the loop sends no other text, and no text in a format
    other than the prepared one or plain. *)
Theorem delivery_makes_only_chunk_sends (w : world)
    (TELEGRAM_MAX_MESSAGE_LENGTH chat_id : Z)
    (reply_to_message_id : option Z) (text_to_send : str)
    (parse_mode : option ParseMode)
    (original_text_if_markdown_fails : option str) (tr : trace)
    (text : str) (mode : option ParseMode) (chunks : list str) :
  choose_text text_to_send parse_mode original_text_if_markdown_fails
  = Some (text, mode) →
  split_text (limit TELEGRAM_MAX_MESSAGE_LENGTH) text = Some chunks →
  Forall (delivery_event chat_id reply_to_message_id mode chunks)
    (added tr
       (send_long_message w TELEGRAM_MAX_MESSAGE_LENGTH chat_id
          reply_to_message_id text_to_send parse_mode
          original_text_if_markdown_fails tr).2).
Proof.
  intros Hchoose Hsplit. unfold send_long_message.
  rewrite Hchoose, Hsplit. cbn [snd].
  destruct (send_chunks_events w chat_id reply_to_message_id mode chunks
              (length chunks) chunks 0 tr eq_refl) as (evs & -> & Hevs).
  by rewrite added_app.
Qed.

Lemma delivery_makes_only_chunk_sends_witness :
  choose_text (lit "*a") (Some MARKDOWN) None = Some (lit "*a", Some MARKDOWN) ∧
  split_text (limit 4096) (lit "*a") = Some [lit "*a"] ∧
  Forall (delivery_event 7 None (Some MARKDOWN) [lit "*a"])
    (added []
       (send_long_message (scripted [RaiseTelegramError]) 4096 7 None
          (lit "*a") (Some MARKDOWN) None []).2).
Proof.
  split; [reflexivity|]. split; [reflexivity|].
  exact (delivery_makes_only_chunk_sends (scripted [RaiseTelegramError]) 4096
           7 None (lit "*a") (Some MARKDOWN) None [] (lit "*a")
           (Some MARKDOWN) [lit "*a"] eq_refl eq_refl).
Defined.

(** ** Further properties of the media-group buffer *)

Section BufferMore.

Variable w : world.
Variable TELEGRAM_MAX_MESSAGE_LENGTH : Z.
Variable MAX_IMAGE_INPUT : Z.
Variable DEFAULT_PROMPT_FOR_IMAGE_IF_NO_CAPTION : str.

(** A property of the lists of the buffer that an arrival keeps is kept by
    every run. *)
Lemma run_groups_invariant (P : list img_detail → Prop) :
  P [] →
  (∀ img old, P old → P (after_arrival MAX_IMAGE_INPUT img old)) →
  ∀ (steps : list step) (st : bot_state) (tr : trace),
  (∀ c g imgs, group_items st c g = Some imgs → P imgs) →
  ∀ c g imgs,
    group_items
      (run w TELEGRAM_MAX_MESSAGE_LENGTH MAX_IMAGE_INPUT
         DEFAULT_PROMPT_FOR_IMAGE_IF_NO_CAPTION steps st tr).1 c g
    = Some imgs → P imgs.
Proof.
  intros Hnil Harrive steps.
  induction steps as [|s steps IH]; intros st tr Hinv; [done|].
  cbn [run].
  destruct (run_step w TELEGRAM_MAX_MESSAGE_LENGTH MAX_IMAGE_INPUT
              DEFAULT_PROMPT_FOR_IMAGE_IF_NO_CAPTION s st tr)
    as [st' tr'] eqn:Hstep.
  apply IH. intros c g imgs.
  replace st' with
    (run_step w TELEGRAM_MAX_MESSAGE_LENGTH MAX_IMAGE_INPUT
       DEFAULT_PROMPT_FOR_IMAGE_IF_NO_CAPTION s st tr).1 by (by rewrite Hstep).
  clear Hstep. destruct s as [chat_id gid user_id img|chat_id gid];
    unfold run_step.
  - pose proof (add_to_media_group_items w MAX_IMAGE_INPUT chat_id gid
                  user_id img st tr c g) as Hitems.
    destruct (add_to_media_group _ _ _ _ _ _ _ _) as [[ok st1] tr1].
    simpl in *. rewrite Hitems. case_decide as Heq.
    + intros [= <-]. apply Harrive.
      destruct (group_items st chat_id gid) as [old|] eqn:Hold; simpl.
      * by apply (Hinv chat_id gid).
      * done.
    + apply Hinv.
  - set (st0 := {| media_groups := media_groups st;
                   notified_overflow := notified_overflow st;
                   jobs := filter _ (jobs st) |}).
    pose proof (callback_state w TELEGRAM_MAX_MESSAGE_LENGTH MAX_IMAGE_INPUT
                  DEFAULT_PROMPT_FOR_IMAGE_IF_NO_CAPTION chat_id gid st0 tr)
      as Hst.
    destruct (process_media_group_callback _ _ _ _ _ _ _ _)
      as [[ok st1] tr1]. simpl in *. subst st1.
    rewrite pop_media_group_items. case_decide; [done|]. apply Hinv.
Qed.

Lemma names_filter_NoDup (keep : job → Prop) `{∀ j, Decision (keep j)}
    (queue : list job) :
  NoDup (job_name <$> queue) → NoDup (job_name <$> filter keep queue).
Proof.
  induction queue as [|j queue IH]; intros Hnd; [done|].
  rewrite fmap_cons in Hnd. apply NoDup_cons in Hnd as [Hj Hnd].
  rewrite filter_cons. case_decide; [|by apply IH].
  rewrite fmap_cons. apply NoDup_cons. split; [|by apply IH].
  intros Hin. apply Hj. apply list_elem_of_fmap in Hin as (j' & -> & Hin).
  apply list_elem_of_filter in Hin as [_ Hin].
  apply list_elem_of_fmap. by exists j'.
Qed.

Lemma reschedule_names (chat_id : Z) (gid : str) (user_id : Z)
    (queue : list job) :
  NoDup (job_name <$> queue) →
  NoDup (job_name <$> reschedule chat_id gid user_id queue) ∧
  (chat_id, gid) ∈ job_name <$> reschedule chat_id gid user_id queue.
Proof.
  intros Hnd. unfold reschedule. rewrite fmap_app. simpl. split.
  - apply NoDup_app. split; [by apply names_filter_NoDup|]. split.
    + intros name Hin Hin'. apply list_elem_of_singleton in Hin' as ->.
      apply list_elem_of_fmap in Hin as (j & Hj & Hin).
      apply list_elem_of_filter in Hin as [Hkeep _]. by apply Hkeep.
    + apply NoDup_singleton.
  - apply elem_of_app. right. by apply list_elem_of_singleton.
Qed.

(** A handler that returns has rescheduled the job of its group; one that
    raises has left the queue alone. *)
Lemma add_to_media_group_jobs (chat_id : Z) (gid : str) (user_id : Z)
    (img : img_detail) (st : bot_state) (tr : trace) :
  jobs (add_to_media_group w MAX_IMAGE_INPUT chat_id gid user_id img st tr).1.2
  = if (add_to_media_group w MAX_IMAGE_INPUT chat_id gid user_id img st
          tr).1.1
    then reschedule chat_id gid user_id (jobs st)
    else jobs st.
Proof.
  unfold add_to_media_group.
  destruct (negb _ && _); [done|]. destruct (negb _); [|done].
  case_bool_decide; [done|]. by destruct (transport w tr _).
Qed.

Lemma callback_jobs (chat_id : Z) (gid : str) (st : bot_state) (tr : trace) :
  jobs (process_media_group_callback w TELEGRAM_MAX_MESSAGE_LENGTH
          MAX_IMAGE_INPUT DEFAULT_PROMPT_FOR_IMAGE_IF_NO_CAPTION chat_id gid
          st tr).1.2 = jobs st.
Proof.
  rewrite callback_state. unfold pop_media_group.
  by destruct (match media_groups st with Some _ => _ | None => _ end).
Qed.

Lemma run_jobs_NoDup (steps : list step) : ∀ (st : bot_state) (tr : trace),
  NoDup (job_name <$> jobs st) →
  NoDup (job_name <$>
           jobs (run w TELEGRAM_MAX_MESSAGE_LENGTH MAX_IMAGE_INPUT
                   DEFAULT_PROMPT_FOR_IMAGE_IF_NO_CAPTION steps st tr).1).
Proof.
  induction steps as [|s steps IH]; intros st tr Hnd; [done|].
  cbn [run].
  destruct (run_step w TELEGRAM_MAX_MESSAGE_LENGTH MAX_IMAGE_INPUT
              DEFAULT_PROMPT_FOR_IMAGE_IF_NO_CAPTION s st tr)
    as [st' tr'] eqn:Hstep.
  apply IH.
  replace st' with
    (run_step w TELEGRAM_MAX_MESSAGE_LENGTH MAX_IMAGE_INPUT
       DEFAULT_PROMPT_FOR_IMAGE_IF_NO_CAPTION s st tr).1 by (by rewrite Hstep).
  clear Hstep. destruct s as [chat_id gid user_id img|chat_id gid];
    unfold run_step.
  - pose proof (add_to_media_group_jobs chat_id gid user_id img st tr)
      as Hjobs.
    destruct (add_to_media_group _ _ _ _ _ _ _ _) as [[ok st1] tr1].
    simpl in *. rewrite Hjobs. destruct ok; [|done].
    by apply reschedule_names.
  - set (st0 := {| media_groups := media_groups st;
                   notified_overflow := notified_overflow st;
                   jobs := filter _ (jobs st) |}).
    pose proof (callback_jobs chat_id gid st0 tr) as Hjobs.
    destruct (process_media_group_callback _ _ _ _ _ _ _ _)
      as [[ok st1] tr1]. simpl in *. rewrite Hjobs.
    by apply names_filter_NoDup.
Qed.

End BufferMore.

(** X11: however photos arrive and timers fire, no buffered media group
    ever holds more than [MAX_IMAGE_INPUT] entries (none at all when that
    setting is not positive). *)
Theorem group_size_capped (w : world)
    (TELEGRAM_MAX_MESSAGE_LENGTH MAX_IMAGE_INPUT : Z)
    (DEFAULT_PROMPT_FOR_IMAGE_IF_NO_CAPTION : str)
    (steps : list step) (tr0 : trace) (chat_id : Z) (media_group_id_str : str)
    (imgs : list img_detail) :
  group_items
    (run w TELEGRAM_MAX_MESSAGE_LENGTH MAX_IMAGE_INPUT
       DEFAULT_PROMPT_FOR_IMAGE_IF_NO_CAPTION steps initial_state tr0).1
    chat_id media_group_id_str = Some imgs →
  (Z.of_nat (length imgs) <= Z.max 0 MAX_IMAGE_INPUT)%Z.
Proof.
  apply (run_groups_invariant w TELEGRAM_MAX_MESSAGE_LENGTH MAX_IMAGE_INPUT
           DEFAULT_PROMPT_FOR_IMAGE_IF_NO_CAPTION
           (fun imgs => (Z.of_nat (length imgs) <= Z.max 0 MAX_IMAGE_INPUT)%Z)).
  - simpl. lia.
  - intros img old Hold. unfold after_arrival.
    destruct (negb _); simpl; [|done].
    destruct (Z.ltb_spec (Z.of_nat (length old)) MAX_IMAGE_INPUT); [|done].
    rewrite length_app. simpl. lia.
  - intros c g imgs' Hnone. discriminate.
Qed.

Lemma group_size_capped_witness :
  let steps :=
    [Arrive 1 (lit "album") 9 (album_photo 11 None None);
     Arrive 1 (lit "album") 9 (album_photo 12 None None);
     Arrive 1 (lit "album") 9 (album_photo 13 None None)] in
  let imgs := [album_photo 11 None None; album_photo 12 None None] in
  group_items
    (run (scripted []) 4096 2 (lit "Jelaskan gambar ini") steps
       initial_state []).1 1 (lit "album") = Some imgs ∧
  (Z.of_nat (length imgs) <= Z.max 0 2)%Z.
Proof.
  intros steps imgs.
  assert (Hitems :
    group_items
      (run (scripted []) 4096 2 (lit "Jelaskan gambar ini") steps
         initial_state []).1 1 (lit "album") = Some imgs)
    by (vm_compute; reflexivity).
  split; [exact Hitems|].
  exact (group_size_capped (scripted []) 4096 2 (lit "Jelaskan gambar ini")
           steps [] 1 (lit "album") imgs Hitems).
Defined.

(** X12: the arrival of a photo changes no other media group, and in its
    own group it keeps the buffered entries in place: the group is as it
    was, or has the new entry appended at its end. *)
Theorem arrival_only_appends_to_its_group (w : world) (MAX_IMAGE_INPUT : Z)
    (chat_id : Z) (media_group_id_str : str) (user_id : Z)
    (img : img_detail) (st : bot_state) (tr : trace) :
  let st' :=
    (add_to_media_group w MAX_IMAGE_INPUT chat_id media_group_id_str user_id
       img st tr).1.2 in
  let old := default [] (group_items st chat_id media_group_id_str) in
  (group_items st' chat_id media_group_id_str = Some old
   ∨ group_items st' chat_id media_group_id_str = Some (old ++ [img])) ∧
  ∀ c g, ¬ (c = chat_id ∧ g = media_group_id_str) →
    group_items st' c g = group_items st c g.
Proof.
  intros st' old. split.
  - unfold st'. rewrite add_to_media_group_items, decide_True by done.
    fold old. unfold after_arrival. destruct (_ && _); [by right|by left].
  - intros c g Hother. unfold st'.
    by rewrite add_to_media_group_items, decide_False.
Qed.

(** X13: however photos arrive and timers fire, the job queue never holds
    two jobs for the same media group, and after the handler has returned
    for a photo the job of its group is pending. *)
Theorem one_pending_job_per_group (w : world)
    (TELEGRAM_MAX_MESSAGE_LENGTH MAX_IMAGE_INPUT : Z)
    (DEFAULT_PROMPT_FOR_IMAGE_IF_NO_CAPTION : str)
    (steps : list step) (tr0 : trace) :
  let st :=
    (run w TELEGRAM_MAX_MESSAGE_LENGTH MAX_IMAGE_INPUT
       DEFAULT_PROMPT_FOR_IMAGE_IF_NO_CAPTION steps initial_state tr0).1 in
  NoDup (job_name <$> jobs st) ∧
  ∀ chat_id media_group_id_str user_id img tr,
    let result :=
      add_to_media_group w MAX_IMAGE_INPUT chat_id media_group_id_str
        user_id img st tr in
    result.1.1 = true →
    NoDup (job_name <$> jobs result.1.2) ∧
    (chat_id, media_group_id_str) ∈ job_name <$> jobs result.1.2.
Proof.
  intros st.
  assert (Hnd : NoDup (job_name <$> jobs st)).
  { apply run_jobs_NoDup. constructor. }
  split; [done|].
  intros chat_id gid user_id img tr result Hok. unfold result.
  rewrite add_to_media_group_jobs. fold result. rewrite Hok.
  by apply reschedule_names.
Qed.

Lemma one_pending_job_per_group_witness :
  let st :=
    (run (scripted []) 4096 10 (lit "Jelaskan gambar ini")
       [Arrive 1 (lit "album") 9 (album_photo 11 None None)]
       initial_state []).1 in
  let result :=
    add_to_media_group (scripted []) 10 1 (lit "album") 9
      (album_photo 12 None None) st [] in
  result.1.1 = true ∧
  NoDup (job_name <$> jobs result.1.2) ∧
  ((1%Z, lit "album") ∈ job_name <$> jobs result.1.2).
Proof.
  intros st result.
  assert (Hok : result.1.1 = true) by (vm_compute; reflexivity).
  split; [exact Hok|].
  exact (proj2 (one_pending_job_per_group (scripted []) 4096 10
                  (lit "Jelaskan gambar ini")
                  [Arrive 1 (lit "album") 9 (album_photo 11 None None)] [])
           1%Z (lit "album") 9%Z (album_photo 12 None None) [] Hok).
Defined.

(** X14: a photo that arrives for a media group that is already full (and
    is not a duplicate) is not buffered.  The user is told once: the
    handler sends the notice, as a reply to that photo, only while the group
    has no overflow flag, and sets the flag when the notice is delivered;
    with the flag set it makes no call. *)
Theorem overflow_notice_once (w : world) (MAX_IMAGE_INPUT : Z)
    (chat_id : Z) (media_group_id_str : str) (user_id : Z)
    (img : img_detail) (st : bot_state) (tr : trace)
    (imgs : list img_detail) :
  group_items st chat_id media_group_id_str = Some imgs →
  (MAX_IMAGE_INPUT <= Z.of_nat (length imgs))%Z →
  is_duplicate (message_id img) imgs = false →
  let result :=
    add_to_media_group w MAX_IMAGE_INPUT chat_id media_group_id_str user_id
      img st tr in
  let notice :=
    {| req_chat_id := chat_id; req_text := overflow_notice MAX_IMAGE_INPUT;
       req_reply_to_message_id := Some (message_id img);
       req_parse_mode := None |} in
  group_items result.1.2 chat_id media_group_id_str = Some imgs ∧
  ((chat_id, media_group_id_str) ∈ notified_overflow st →
   result.1.1 = true ∧ result.2 = tr) ∧
  ((chat_id, media_group_id_str) ∉ notified_overflow st →
   result.2 = tr ++ [SendMessage None notice] ∧
   (transport w tr notice = Delivered →
    result.1.1 = true ∧
    (chat_id, media_group_id_str) ∈ notified_overflow result.1.2)).
Proof.
  intros Hitems Hfull Hdup result notice. split.
  - unfold result. rewrite add_to_media_group_items, decide_True by done.
    rewrite Hitems. simpl. unfold after_arrival.
    destruct (Z.ltb_spec (Z.of_nat (length imgs)) MAX_IMAGE_INPUT); [lia|].
    by rewrite andb_false_r.
  - pose proof (lookup_group_ensure chat_id chat_id media_group_id_str
                  media_group_id_str st) as Htarget.
    rewrite decide_True, Hitems in Htarget by done.
    apply lookup_group_default in Htarget.
    unfold result, add_to_media_group. rewrite Htarget. simpl default.
    rewrite Hdup. simpl negb.
    destruct (Z.ltb_spec (Z.of_nat (length imgs)) MAX_IMAGE_INPUT); [lia|].
    cbn [andb]. fold notice. split.
    + intros Hflag. by rewrite bool_decide_eq_true_2.
    + intros Hflag. rewrite bool_decide_eq_false_2 by done.
      destruct (transport w tr notice) eqn:Hout; simpl;
        (split; [done|]); intros; try done.
      split; [done|]. apply elem_of_union. left.
      by apply elem_of_singleton.
Qed.

Lemma overflow_notice_once_witness :
  let st :=
    (run (scripted []) 4096 1 (lit "Jelaskan gambar ini")
       [Arrive 1 (lit "album") 9 (album_photo 11 None None)]
       initial_state []).1 in
  let result :=
    add_to_media_group (scripted []) 1 1 (lit "album") 9
      (album_photo 12 None None) st [] in
  group_items st 1 (lit "album") = Some [album_photo 11 None None] ∧
  group_items result.1.2 1 (lit "album") = Some [album_photo 11 None None].
Proof.
  intros st result.
  assert (Hitems :
    group_items st 1 (lit "album") = Some [album_photo 11 None None])
    by (vm_compute; reflexivity).
  split; [exact Hitems|].
  exact (proj1 (overflow_notice_once (scripted []) 1 1 (lit "album") 9
                  (album_photo 12 None None) st []
                  [album_photo 11 None None] Hitems
                  ltac:(vm_compute; discriminate) eq_refl)).
Defined.

(** X15: the prompt of a media group.  When the first entry that used a
    trigger or replied to the bot has a non-empty caption, that caption is
    the prompt; when no entry did, or that entry has no caption at all, the
    prompt is the first non-empty caption of the group in arrival order;
    and whenever the configured default is non-empty, so is the prompt. *)
Theorem prompt_precedence (default_prompt : str) (imgs : list img_detail) :
  (∀ img caption,
     List.find triggered imgs = Some img →
     caption_for_ai img = Some caption → caption ≠ [] →
     choose_prompt default_prompt imgs = caption) ∧
  (∀ img caption,
     (List.find triggered imgs = None
      ∨ ∃ first, List.find triggered imgs = Some first
                 ∧ caption_for_ai first = None) →
     List.find (fun img => truthy_opt (caption_for_ai img)) imgs = Some img →
     caption_for_ai img = Some caption →
     choose_prompt default_prompt imgs = caption) ∧
  (default_prompt ≠ [] → choose_prompt default_prompt imgs ≠ []).
Proof.
  unfold choose_prompt. split; [|split].
  - intros img caption -> -> Hne. by apply truthy_true in Hne as ->.
  - intros img caption Hfirst Hfind Hcaption.
    assert (Htruthy : truthy caption = true).
    { apply List.find_some in Hfind as [_ Ht]. by rewrite Hcaption in Ht. }
    destruct Hfirst as [->|(first & -> & ->)];
      by rewrite Hfind, Hcaption, Htruthy.
  - intros Hdefault.
    destruct (match List.find triggered imgs with
              | Some img => caption_for_ai img
              | None => None
              end) as [prompt|].
    + destruct (truthy prompt) eqn:Ht; [by apply truthy_true|done].
    + destruct (List.find _ imgs) as [img|]; [|done].
      destruct (caption_for_ai img) as [prompt|]; [|done].
      destruct (truthy prompt) eqn:Ht; [by apply truthy_true|done].
Qed.

Lemma prompt_precedence_witness :
  List.find triggered
    [album_photo 1 None None;
     album_photo 2 (Some (lit "describe these")) (Some (lit "/ai"))]
  = Some (album_photo 2 (Some (lit "describe these")) (Some (lit "/ai"))) ∧
  lit "describe these" ≠ [] ∧
  choose_prompt (lit "Jelaskan gambar ini")
    [album_photo 1 None None;
     album_photo 2 (Some (lit "describe these")) (Some (lit "/ai"))]
  = lit "describe these".
Proof.
  split; [reflexivity|]. split; [discriminate|].
  exact (proj1 (prompt_precedence (lit "Jelaskan gambar ini")
                  [album_photo 1 None None;
                   album_photo 2 (Some (lit "describe these"))
                     (Some (lit "/ai"))])
           _ (lit "describe these") eq_refl eq_refl ltac:(discriminate)).
Defined.

(** X16: the callback of one media group leaves every other group of the
    buffer, every other overflow flag and the job queue as they were, and
    clears the overflow flag of its own group. *)
Theorem flush_touches_only_its_group (w : world)
    (TELEGRAM_MAX_MESSAGE_LENGTH MAX_IMAGE_INPUT : Z)
    (DEFAULT_PROMPT_FOR_IMAGE_IF_NO_CAPTION : str)
    (chat_id : Z) (media_group_id_str : str) (st : bot_state) (tr : trace) :
  let st' :=
    (process_media_group_callback w TELEGRAM_MAX_MESSAGE_LENGTH
       MAX_IMAGE_INPUT DEFAULT_PROMPT_FOR_IMAGE_IF_NO_CAPTION chat_id
       media_group_id_str st tr).1.2 in
  (∀ c g, ¬ (c = chat_id ∧ g = media_group_id_str) →
     group_items st' c g = group_items st c g) ∧
  notified_overflow st'
  = notified_overflow st ∖ {[ (chat_id, media_group_id_str) ]} ∧
  jobs st' = jobs st.
Proof.
  intros st'. unfold st'. rewrite callback_state. split; [|split].
  - intros c g Hother. by rewrite pop_media_group_items, decide_False.
  - unfold pop_media_group.
    by destruct (match media_groups st with Some _ => _ | None => _ end).
  - unfold pop_media_group.
    by destruct (match media_groups st with Some _ => _ | None => _ end).
Qed.

(** ** The callback of a media group *)

Section CallbackFacts.

Variable w : world.
Variable TELEGRAM_MAX_MESSAGE_LENGTH : Z.
Variable MAX_IMAGE_INPUT : Z.
Variable DEFAULT_PROMPT_FOR_IMAGE_IF_NO_CAPTION : str.

(** The download loop adds image parts only, one per successful download,
    asks for at most one file per entry, and stops at the cap. *)
Lemma download_images_shape (imgs : list img_detail) :
  ∀ (prompt_parts : list prompt_part) (counted : Z) (tr : trace),
  ∃ images getfiles,
    download_images w MAX_IMAGE_INPUT imgs prompt_parts counted tr
    = (prompt_parts ++ images, (counted + Z.of_nat (length images))%Z,
       tr ++ getfiles) ∧
    Forall (fun part => is_image_part part = true) images ∧
    Forall (fun ev => is_get_file ev = true) getfiles ∧
    length images <= length imgs ∧
    (counted + Z.of_nat (length images) <= Z.max counted MAX_IMAGE_INPUT)%Z ∧
    (no_download w → images = []).
Proof.
  induction imgs as [|img imgs IH]; intros parts counted tr.
  - exists [], []. cbn [download_images]. rewrite !app_nil_r.
    simpl length. rewrite Z.add_0_r.
    split; [done|]. split; [constructor|]. split; [constructor|].
    split; [lia|]. split; [lia|done].
  - cbn [download_images].
    destruct (Z.leb_spec MAX_IMAGE_INPUT counted) as [Hfull|Hroom].
    + exists [], []. rewrite !app_nil_r.
      simpl length. rewrite Z.add_0_r.
      split; [done|]. split; [constructor|]. split; [constructor|].
      split; [lia|]. split; [lia|done].
    + destruct (download w tr (file_id img)) as [image_bytes|] eqn:Hdl.
      * destruct (IH (parts ++ [ImagePart image_bytes]) (counted + 1)%Z
                    (tr ++ [GetFile (file_id img)]))
          as (images & getfiles & -> & Himg & Hget & Hlen & Hcap & _).
        exists (ImagePart image_bytes :: images),
               (GetFile (file_id img) :: getfiles).
        split; [f_equal; [f_equal|]; rewrite <- ?app_assoc; simpl;
                  try done; lia|].
        split; [by constructor|]. split; [by constructor|].
        split; [simpl; lia|]. split; [simpl length; lia|].
        intros Hno. by rewrite Hno in Hdl.
      * destruct (IH parts counted (tr ++ [GetFile (file_id img)]))
          as (images & getfiles & -> & Himg & Hget & Hlen & Hcap & Hno).
        exists images, (GetFile (file_id img) :: getfiles).
        split; [by rewrite <- app_assoc|]. split; [done|].
        split; [by constructor|]. split; [simpl; lia|]. done.
Qed.

(** A message sent with a reply reference and, when that is refused, sent
    again without: one or two sends of the same text. *)
Lemma send_or_resend_shape (caught : send_outcome → bool) (chat_id : Z)
    (text : str) (reply_to : option Z) (tr : trace) :
  ∃ evs,
    (send_or_resend w caught chat_id text reply_to tr).2 = tr ++ evs ∧
    Forall (reply_event reply_to) evs ∧
    (sent_texts evs = [text] ∨ sent_texts evs = [text; text]).
Proof.
  unfold send_or_resend.
  set (req := {| req_chat_id := chat_id; req_text := text;
                 req_reply_to_message_id := reply_to;
                 req_parse_mode := None |}).
  set (req' := {| req_chat_id := chat_id; req_text := text;
                  req_reply_to_message_id := None;
                  req_parse_mode := None |}).
  assert (H1 : reply_event reply_to (SendMessage None req)) by (by left).
  assert (H2 : reply_event reply_to (SendMessage None req')) by (by right).
  assert (Hone : ∃ evs, tr ++ [SendMessage None req] = tr ++ evs ∧
            Forall (reply_event reply_to) evs ∧
            (sent_texts evs = [text] ∨ sent_texts evs = [text; text])).
  { exists [SendMessage None req]. split; [done|].
    split; [by repeat constructor|by left]. }
  assert (Htwo : ∃ evs,
            (tr ++ [SendMessage None req]) ++ [SendMessage None req']
            = tr ++ evs ∧
            Forall (reply_event reply_to) evs ∧
            (sent_texts evs = [text] ∨ sent_texts evs = [text; text])).
  { exists [SendMessage None req; SendMessage None req'].
    split; [by rewrite <- app_assoc|].
    split; [by repeat constructor|by right]. }
  destruct (transport w tr req); simpl; try done;
    destruct (caught _); simpl; try done;
    by destruct (transport w _ req').
Qed.

Lemma delivery_event_reply (chat_id : Z) (reply_to : option Z)
    (mode : option ParseMode) (chunks : list str) (ev : event) :
  delivery_event chat_id reply_to mode chunks ev → reply_event reply_to ev.
Proof.
  destruct ev as [[i|] req|d| | |]; simpl; try done.
  - intros (chunk_text & _ & _ & [-> | ->]); simpl;
      destruct (i =? 0); first [by left | by right].
  - intros (text & _ & [= ->]). by right.
Qed.

Lemma send_long_message_replies (chat_id : Z) (reply_to : option Z)
    (text_to_send : str) (parse_mode : option ParseMode)
    (original : option str) (tr : trace) :
  ∃ evs,
    (send_long_message w TELEGRAM_MAX_MESSAGE_LENGTH chat_id reply_to
       text_to_send parse_mode original tr).2 = tr ++ evs ∧
    Forall (reply_event reply_to) evs.
Proof.
  unfold send_long_message.
  assert (Hnone : ∃ evs, tr = tr ++ evs ∧ Forall (reply_event reply_to) evs).
  { exists []. split; [by rewrite app_nil_r|constructor]. }
  destruct (choose_text _ _ _) as [[text mode]|]; [|done].
  destruct (split_text _ _) as [chunks|]; [|done]. cbn [snd].
  destruct (send_chunks_events w chat_id reply_to mode chunks
              (length chunks) chunks 0 tr eq_refl) as (evs & -> & Hevs).
  exists evs. split; [done|].
  eapply Forall_impl; [exact Hevs|]. apply delivery_event_reply.
Qed.

(** What the callback does with the items it took out: it announces that it
    is typing and, unless that raises, asks for the files, calls the AI
    backend once if at least one image was downloaded, and then only answers
    the user. *)
Lemma process_items_shape (chat_id : Z) (imgs : list img_detail)
    (tr : trace) :
  ∃ images getfiles replies,
    (process_items w TELEGRAM_MAX_MESSAGE_LENGTH MAX_IMAGE_INPUT
       DEFAULT_PROMPT_FOR_IMAGE_IF_NO_CAPTION chat_id imgs tr).2
    = tr ++ [SendChatAction chat_id] ++ getfiles
      ++ match images with
         | [] => []
         | _ =>
             [Generate chat_id
                (TextPart
                   (choose_prompt DEFAULT_PROMPT_FOR_IMAGE_IF_NO_CAPTION imgs)
                 :: images)
                (choose_prompt DEFAULT_PROMPT_FOR_IMAGE_IF_NO_CAPTION imgs)]
         end
      ++ replies ∧
    Forall (fun part => is_image_part part = true) images ∧
    length images <= length imgs ∧
    (Z.of_nat (length images) <= Z.max 0 MAX_IMAGE_INPUT)%Z ∧
    Forall (fun ev => is_get_file ev = true) getfiles ∧
    Forall (reply_event (message_id <$> head imgs)) replies ∧
    (images = [] → chat_action w tr chat_id = true →
     sent_texts replies = [apology_no_image]
     ∨ sent_texts replies = [apology_no_image; apology_no_image]) ∧
    (no_download w → images = []) ∧
    (chat_action w tr chat_id = false →
     images = [] ∧ getfiles = [] ∧ replies = []).
Proof.
  unfold process_items.
  destruct (chat_action w tr chat_id) eqn:Haction; cbn [negb];
    [|exists [], [], []; repeat split; done || (simpl; lia)].
  set (prompt := choose_prompt DEFAULT_PROMPT_FOR_IMAGE_IF_NO_CAPTION imgs).
  set (first := message_id <$> head imgs).
  destruct (download_images_shape imgs [TextPart prompt] 0%Z
              (tr ++ [SendChatAction chat_id]))
    as (images & getfiles & -> & Himg & Hget & Hlen & Hcap & Hno).
  exists images, getfiles. cbv beta iota zeta.
  destruct images as [|image images].
  - destruct (Z.eqb_spec (0 + Z.of_nat (length (@nil prompt_part))) 0)
      as [_|Hnz]; [|simpl in Hnz; lia].
    destruct (send_or_resend_shape any_exception chat_id apology_no_image
                first ((tr ++ [SendChatAction chat_id]) ++ getfiles))
      as (replies & -> & Hreplies & Htexts).
    exists replies. split; [by rewrite <- !app_assoc|].
    repeat split; done || (simpl; lia).
  - destruct (Z.eqb_spec (0 + Z.of_nat (length (image :: images))) 0)
      as [Hzero|_]; [simpl in Hzero; lia|].
    set (tr1 := ((tr ++ [SendChatAction chat_id]) ++ getfiles)
                ++ [Generate chat_id ([TextPart prompt] ++ image :: images)
                      prompt]).
    assert (Hsend : ∀ text, ∃ evs,
              (send_or_resend w is_bad_request chat_id text first tr1).2
              = tr1 ++ evs ∧ Forall (reply_event first) evs).
    { intros text.
      destruct (send_or_resend_shape is_bad_request chat_id text first tr1)
        as (evs & Heq & Hevs & _). by exists evs. }
    assert (Hrest : ∀ (r : bool * trace),
              (∃ evs, r.2 = tr1 ++ evs ∧ Forall (reply_event first) evs) →
              ∃ replies,
                (let '(ok, tr2) := r in
                 if ok then (true, tr2)
                 else send_or_resend w is_bad_request chat_id
                        apology_internal first tr2).2
                = tr1 ++ replies ∧ Forall (reply_event first) replies).
    { intros [ok tr2] (evs & Heq & Hevs). simpl in Heq. subst tr2.
      destruct ok; [by exists evs|].
      destruct (send_or_resend_shape is_bad_request chat_id apology_internal
                  first (tr1 ++ evs)) as (evs' & -> & Hevs' & _).
      exists (evs ++ evs'). split; [by rewrite app_assoc|].
      by apply Forall_app. }
    match goal with
    | |- context [let '(ok, tr2) := ?r in _] =>
        destruct (Hrest r) as (replies & Heq & Hreplies)
    end.
    { destruct (generate w _ chat_id _ prompt) as [[reply|]|].
      - destruct (truthy reply); [|apply Hsend].
        apply send_long_message_replies.
      - apply Hsend.
      - exists []. split; [by rewrite app_nil_r|constructor]. }
    exists replies. split.
    { rewrite Heq. unfold tr1. by rewrite <- !app_assoc. }
    repeat split; done || (simpl in *; lia).
Qed.

End CallbackFacts.

Lemma count_none {A : Type} (test : A → bool) (P : A → Prop) (l : list A) :
  (∀ x, P x → test x = false) → Forall P l → count test l = 0.
Proof.
  intros Htest Hl. unfold count.
  induction Hl as [|x l Hx _ IH]; simpl; [done|]. by rewrite (Htest x Hx).
Qed.

Lemma sent_texts_getfiles (getfiles : list event) :
  Forall (fun ev => is_get_file ev = true) getfiles → sent_texts getfiles = [].
Proof.
  induction 1 as [|ev getfiles Hev _ IH]; [done|].
  destruct ev; try discriminate. exact IH.
Qed.

(** X17: when the callback of a media group calls the AI backend, it is for
    the chat of the group, with the chosen prompt as the first part and
    after it only images: at least one, at most one per buffered entry, and
    never more than [MAX_IMAGE_INPUT]. *)
Theorem ai_call_respects_image_cap (w : world)
    (TELEGRAM_MAX_MESSAGE_LENGTH MAX_IMAGE_INPUT : Z)
    (DEFAULT_PROMPT_FOR_IMAGE_IF_NO_CAPTION : str)
    (chat_id : Z) (imgs : list img_detail) (tr : trace)
    (c : Z) (parts : list prompt_part) (prompt : str) :
  Generate c parts prompt
  ∈ added tr
      (process_items w TELEGRAM_MAX_MESSAGE_LENGTH MAX_IMAGE_INPUT
         DEFAULT_PROMPT_FOR_IMAGE_IF_NO_CAPTION chat_id imgs tr).2 →
  c = chat_id ∧
  prompt = choose_prompt DEFAULT_PROMPT_FOR_IMAGE_IF_NO_CAPTION imgs ∧
  ∃ images,
    parts = TextPart prompt :: images ∧
    Forall (fun part => is_image_part part = true) images ∧
    1 <= length images <= length imgs ∧
    (Z.of_nat (length images) <= MAX_IMAGE_INPUT)%Z.
Proof.
  destruct (process_items_shape w TELEGRAM_MAX_MESSAGE_LENGTH MAX_IMAGE_INPUT
              DEFAULT_PROMPT_FOR_IMAGE_IF_NO_CAPTION chat_id imgs tr)
    as (images & getfiles & replies & -> & Himg & Hlen & Hcap & Hget
        & Hreplies & _).
  rewrite added_app. intros Hin.
  apply elem_of_app in Hin as [Hin|Hin].
  { apply list_elem_of_singleton in Hin. discriminate. }
  apply elem_of_app in Hin as [Hin|Hin].
  { rewrite Forall_forall in Hget. by apply Hget in Hin. }
  apply elem_of_app in Hin as [Hin|Hin].
  - destruct images as [|image images]; [by apply elem_of_nil in Hin|].
    apply list_elem_of_singleton in Hin. injection Hin as -> -> ->.
    split; [done|]. split; [done|]. exists (image :: images).
    split; [done|]. split; [done|]. simpl length in *. lia.
  - rewrite Forall_forall in Hreplies. by apply Hreplies in Hin.
Qed.

Lemma ai_call_respects_image_cap_witness :
  Generate 1 [TextPart (lit "look"); ImagePart (lit "jpeg")] (lit "look")
  ∈ added []
      (process_items (answering (Some (lit "ok"))) 4096 10
         (lit "Jelaskan gambar ini") 1
         [album_photo 11 (Some (lit "look")) None] []).2 ∧
  (Z.of_nat (length [ImagePart (lit "jpeg")]) <= 10)%Z.
Proof.
  assert (Hin :
    Generate 1 [TextPart (lit "look"); ImagePart (lit "jpeg")] (lit "look")
    ∈ added []
        (process_items (answering (Some (lit "ok"))) 4096 10
           (lit "Jelaskan gambar ini") 1
           [album_photo 11 (Some (lit "look")) None] []).2).
  { apply list_elem_of_In. vm_compute. right. right. left. reflexivity. }
  split; [exact Hin|].
  destruct (ai_call_respects_image_cap _ _ _ _ _ _ _ _ _ _ Hin)
    as (_ & _ & images & Hparts & _ & _ & Hcap).
  injection Hparts as <-. exact Hcap.
Defined.

(** X18: the callback of a media group calls the AI backend at most once,
    and not at all when no image could be downloaded.  In that case, when
    the chat action that opens the callback has returned, it sends the user
    the apology for the album, once or twice.  When the chat action raises,
    the callback ends with it: no download, no call of the backend, no
    message. *)
Theorem at_most_one_ai_call (w : world)
    (TELEGRAM_MAX_MESSAGE_LENGTH MAX_IMAGE_INPUT : Z)
    (DEFAULT_PROMPT_FOR_IMAGE_IF_NO_CAPTION : str)
    (chat_id : Z) (imgs : list img_detail) (tr : trace) :
  let evs :=
    added tr
      (process_items w TELEGRAM_MAX_MESSAGE_LENGTH MAX_IMAGE_INPUT
         DEFAULT_PROMPT_FOR_IMAGE_IF_NO_CAPTION chat_id imgs tr).2 in
  count is_generate evs <= 1 ∧
  (no_download w →
   count is_generate evs = 0 ∧
   (chat_action w tr chat_id = true →
    sent_texts evs = [apology_no_image]
    ∨ sent_texts evs = [apology_no_image; apology_no_image])) ∧
  (chat_action w tr chat_id = false → evs = [SendChatAction chat_id]).
Proof.
  intros evs. unfold evs.
  destruct (process_items_shape w TELEGRAM_MAX_MESSAGE_LENGTH MAX_IMAGE_INPUT
              DEFAULT_PROMPT_FOR_IMAGE_IF_NO_CAPTION chat_id imgs tr)
    as (images & getfiles & replies & -> & Himg & Hlen & Hcap & Hget
        & Hreplies & Hnone & Hno & Hraise).
  rewrite added_app.
  assert (Hg : count is_generate getfiles = 0).
  { apply (count_none is_generate (fun ev => is_get_file ev = true));
      [by intros []|exact Hget]. }
  assert (Hr : count is_generate replies = 0).
  { apply (count_none is_generate (reply_event (message_id <$> head imgs)));
      [by intros []|exact Hreplies]. }
  split; [|split].
  - rewrite !count_app, Hg, Hr. destruct images; unfold count; simpl; lia.
  - intros Hdl. rewrite (Hno Hdl) in *.
    rewrite !count_app, Hg, Hr. split; [done|]. intros Haction.
    rewrite !sent_texts_app, (sent_texts_getfiles _ Hget). simpl.
    by apply Hnone.
  - intros Haction. by destruct (Hraise Haction) as (-> & -> & ->).
Qed.

Lemma at_most_one_ai_call_witness :
  no_download (scripted []) ∧
  chat_action (scripted []) [] 1 = true ∧
  sent_texts
    (added []
       (process_items (scripted []) 4096 10 (lit "Jelaskan gambar ini") 1
          [album_photo 11 None None] []).2) = [apology_no_image].
Proof.
  assert (Hno : no_download (scripted [])) by (intros tr fid; reflexivity).
  split; [exact Hno|]. split; [reflexivity|].
  destruct (proj2 (proj1 (proj2 (at_most_one_ai_call (scripted []) 4096 10
                                   (lit "Jelaskan gambar ini") 1
                                   [album_photo 11 None None] [])) Hno)
              eq_refl) as [Htexts|Htexts].
  - exact Htexts.
  - exfalso. revert Htexts. vm_compute. discriminate.
Defined.

(** X19: every message the callback of a media group sends is a reply to
    the first entry of the group, or a reply to no message. *)
Theorem callback_replies_thread_to_first_item (w : world)
    (TELEGRAM_MAX_MESSAGE_LENGTH MAX_IMAGE_INPUT : Z)
    (DEFAULT_PROMPT_FOR_IMAGE_IF_NO_CAPTION : str)
    (chat_id : Z) (imgs : list img_detail) (tr : trace)
    (ordinal : option nat) (req : send_request) :
  SendMessage ordinal req
  ∈ added tr
      (process_items w TELEGRAM_MAX_MESSAGE_LENGTH MAX_IMAGE_INPUT
         DEFAULT_PROMPT_FOR_IMAGE_IF_NO_CAPTION chat_id imgs tr).2 →
  req_reply_to_message_id req = message_id <$> head imgs
  ∨ req_reply_to_message_id req = None.
Proof.
  destruct (process_items_shape w TELEGRAM_MAX_MESSAGE_LENGTH MAX_IMAGE_INPUT
              DEFAULT_PROMPT_FOR_IMAGE_IF_NO_CAPTION chat_id imgs tr)
    as (images & getfiles & replies & -> & Himg & Hlen & Hcap & Hget
        & Hreplies & _).
  rewrite added_app. intros Hin.
  apply elem_of_app in Hin as [Hin|Hin].
  { apply list_elem_of_singleton in Hin. discriminate. }
  apply elem_of_app in Hin as [Hin|Hin].
  { rewrite Forall_forall in Hget. by apply Hget in Hin. }
  apply elem_of_app in Hin as [Hin|Hin].
  - destruct images; [by apply elem_of_nil in Hin|].
    apply list_elem_of_singleton in Hin. discriminate.
  - rewrite Forall_forall in Hreplies. by apply Hreplies in Hin.
Qed.

Lemma callback_replies_thread_to_first_item_witness :
  let req :=
    {| req_chat_id := 1; req_text := apology_no_image;
       req_reply_to_message_id := Some 11%Z; req_parse_mode := None |} in
  SendMessage None req
  ∈ added []
      (process_items (scripted []) 4096 10 (lit "Jelaskan gambar ini") 1
         [album_photo 11 None None] []).2 ∧
  (req_reply_to_message_id req = Some 11%Z
   ∨ req_reply_to_message_id req = None).
Proof.
  intros req.
  assert (Hin :
    SendMessage None req
    ∈ added []
        (process_items (scripted []) 4096 10 (lit "Jelaskan gambar ini") 1
           [album_photo 11 None None] []).2).
  { apply list_elem_of_In. vm_compute. right. right. left. reflexivity. }
  split; [exact Hin|].
  exact (callback_replies_thread_to_first_item _ _ _ _ _ _ _ _ _ Hin).
Defined.

(** ** Routing of text messages and photos *)

Section RoutingFacts.

Lemma length_lower (s : str) : length (lower s) = length s.
Proof. apply length_map. Qed.

Lemma lower_app (s1 s2 : str) : lower (s1 ++ s2) = lower s1 ++ lower s2.
Proof. apply map_app. Qed.

Lemma startswith_length (s prefix : str) :
  startswith s prefix = true → length prefix <= length s.
Proof.
  revert s. induction prefix as [|p prefix IH]; intros [|c s]; simpl;
    [done|intros; lia|done|].
  intros [_ H]%andb_prop. apply IH in H. lia.
Qed.

Lemma startswith_app (s prefix rest : str) :
  startswith s prefix = true → startswith (s ++ rest) prefix = true.
Proof.
  revert s. induction prefix as [|p prefix IH]; intros [|c s]; simpl;
    [by destruct rest|done|done|].
  intros [Hc H]%andb_prop. by rewrite Hc, IH.
Qed.

Lemma startswith_self (s : str) : startswith s s = true.
Proof.
  induction s as [|c s IH]; simpl; [done|].
  by rewrite bool_decide_eq_true_2, IH.
Qed.

Variable user_message msg_lower : str.

(** One iteration of the loop of [handle_message] ends it exactly when the
    trigger addresses the message; the text handed on is empty when the
    message is as long as the lowered trigger, and otherwise what follows
    that many characters of the message, stripped. *)
Lemma match_trigger_cons (trigger_command_config : str)
    (commands : list str) :
  match_trigger (trigger_command_config :: commands) user_message msg_lower
  = if addresses msg_lower (lower trigger_command_config)
    then Some (if length msg_lower =? length (lower trigger_command_config)
               then []
               else strip (drop (length (lower trigger_command_config))
                             user_message),
               trigger_command_config)
    else match_trigger commands user_message msg_lower.
Proof.
  cbn [match_trigger]. unfold addresses. cbv zeta.
  destruct (startswith msg_lower (lower trigger_command_config)) eqn:Hstart;
    [|done].
  apply startswith_length in Hstart. cbn [andb].
  destruct (Nat.eqb_spec (length msg_lower)
              (length (lower trigger_command_config)))
    as [Heq|Hne]; cbn [orb]; [done|].
  destruct (isspace_at msg_lower (length (lower trigger_command_config)));
    [|by rewrite andb_false_r].
  by rewrite (proj2 (Nat.ltb_lt _ _)) by lia.
Qed.

Lemma match_trigger_first (commands : list str) (text trigger : str) :
  match_trigger commands user_message msg_lower = Some (text, trigger) ↔
  ∃ earlier later,
    commands = earlier ++ trigger :: later ∧
    Forall (fun t => addresses msg_lower (lower t) = false) earlier ∧
    addresses msg_lower (lower trigger) = true ∧
    text = if length msg_lower =? length (lower trigger) then []
           else strip (drop (length (lower trigger)) user_message).
Proof.
  induction commands as [|t commands IH].
  { split; [done|]. intros (earlier & later & Heq & _). by destruct earlier. }
  rewrite match_trigger_cons.
  destruct (addresses msg_lower (lower t)) eqn:Ht.
  - split.
    + intros [= <- <-]. exists [], commands. by repeat split.
    + intros (earlier & later & Heq & Hearlier & Htrigger & ->).
      destruct earlier as [|t' earlier].
      * by injection Heq as -> ->.
      * injection Heq as -> ->. apply Forall_cons in Hearlier as [Hno _].
        congruence.
  - rewrite IH. split.
    + intros (earlier & later & -> & Hearlier & Htrigger & ->).
      exists (t :: earlier), later. repeat split; [|done].
      by apply Forall_cons_2.
    + intros (earlier & later & Heq & Hearlier & Htrigger & ->).
      destruct earlier as [|t' earlier].
      * injection Heq as -> ->. congruence.
      * injection Heq as -> ->. apply Forall_cons in Hearlier as [_ Hrest].
        by exists earlier, later.
Qed.

Lemma match_trigger_is_Some (commands : list str) :
  is_Some (match_trigger commands user_message msg_lower) ↔
  Exists (fun t => addresses msg_lower (lower t) = true) commands.
Proof.
  induction commands as [|t commands IH].
  { split; [by intros [? ?]|by intros ?%Exists_nil]. }
  rewrite match_trigger_cons, Exists_cons.
  destruct (addresses msg_lower (lower t)) eqn:Ht.
  - split; [by left|by eexists].
  - rewrite IH. split; [by right|]. by intros [?|?].
Qed.

(** The loop of [handle_photo_message] answers only where the loop of
    [handle_message] answers, and then with the same trigger and text. *)
Lemma match_photo_trigger_text (commands : list str)
    (caption : option str) (trigger : option str) :
  length msg_lower = length user_message →
  match_photo_trigger commands user_message msg_lower
  = (true, caption, trigger) →
  ∃ text t,
    caption = Some text ∧ trigger = Some t ∧
    match_trigger commands user_message msg_lower = Some (text, t).
Proof.
  intros lower_length.
  induction commands as [|t commands IH]; [done|].
  rewrite match_trigger_cons. cbn [match_photo_trigger]. cbv zeta.
  unfold addresses.
  destruct (startswith msg_lower (lower t)) eqn:Hstart; [|exact IH].
  cbn [andb].
  destruct (Nat.eqb_spec (length msg_lower) (length (lower t))) as [Heq|Hne];
    cbn [orb].
  - intros [= <- <-]. eexists _, _. split; [done|]. split; [done|].
    by rewrite drop_ge by lia.
  - destruct (isspace_at msg_lower (length (lower t))); [|done].
    intros [= <- <-]. by eexists _, _.
Qed.

End RoutingFacts.

Lemma route_message_trigger (GROUP_TRIGGER_COMMANDS : list str)
    (chat_type : ChatType) (replies_to_bot should_respond : bool)
    (user_message text trigger : str) :
  route_message GROUP_TRIGGER_COMMANDS chat_type replies_to_bot user_message
  = (should_respond, text, Some trigger) →
  should_respond = true ∧ in_group chat_type = true ∧
  match_trigger GROUP_TRIGGER_COMMANDS user_message (lower user_message)
  = Some (text, trigger).
Proof.
  unfold route_message.
  destruct (bool_decide (chat_type = PRIVATE)); [done|].
  destruct (in_group chat_type); [|done].
  destruct replies_to_bot; [done|].
  destruct (match_trigger GROUP_TRIGGER_COMMANDS user_message
              (lower user_message)) as [[text' t]|]; [|done].
  by intros [= <- <- <-].
Qed.



(** X21: when a group message is answered because of a trigger command, the
    command is the first of the configured commands that the message
    begins with in the sense of X20.  The text handed on is empty when the
    lowered message is as long as the lowered command; otherwise it is the
    message without as many leading characters as the lowered command has,
    stripped of surrounding whitespace. *)
Theorem first_trigger_is_cut_from_message (GROUP_TRIGGER_COMMANDS : list str)
    (chat_type : ChatType) (replies_to_bot : bool)
    (user_message text trigger : str) :
  route_message GROUP_TRIGGER_COMMANDS chat_type replies_to_bot user_message
  = (true, text, Some trigger) →
  text = (if length (lower user_message) =? length (lower trigger) then []
          else strip (drop (length (lower trigger)) user_message)) ∧
  ∃ earlier later,
    GROUP_TRIGGER_COMMANDS = earlier ++ trigger :: later ∧
    Forall (fun t => addresses (lower user_message) (lower t) = false)
      earlier ∧
    addresses (lower user_message) (lower trigger) = true.
Proof.
  intros (_ & _ & Hmatch)%route_message_trigger.
  apply (match_trigger_first user_message (lower user_message)) in Hmatch
    as (earlier & later & Heq & Hearlier & Htrigger & Htext).
  split; [done|]. by exists earlier, later.
Qed.

Lemma first_trigger_is_cut_from_message_witness :
  route_message [lit "/ai"; lit "Bot"] GROUP false (lit "BOT  apa kabar? ")
  = (true, lit "apa kabar?", Some (lit "Bot")) ∧
  lit "apa kabar?"
  = strip (drop (length (lower (lit "Bot"))) (lit "BOT  apa kabar? ")).
Proof.
  assert (Hroute :
    route_message [lit "/ai"; lit "Bot"] GROUP false (lit "BOT  apa kabar? ")
    = (true, lit "apa kabar?", Some (lit "Bot"))) by reflexivity.
  split; [exact Hroute|].
  exact (proj1 (first_trigger_is_cut_from_message _ _ _ _ _ _ Hroute)).
Defined.

Lemma handle_message_decision_cases (GROUP_TRIGGER_COMMANDS : list str)
    (chat_type : ChatType) (replies_to_bot : bool)
    (user_message : option str) :
  match handle_message_decision GROUP_TRIGGER_COMMANDS chat_type
          replies_to_bot user_message with
  | NoReply => True
  | AskForQuestion trigger_command_used =>
      in_group chat_type = true ∧ trigger_command_used ≠ [] ∧
      trigger_command_used ∈ GROUP_TRIGGER_COMMANDS
  | EmptyIgnored =>
      in_group chat_type = true ∧ [] ∈ GROUP_TRIGGER_COMMANDS
  | AskGemini actual_message_to_process => actual_message_to_process ≠ []
  end.
Proof.
  destruct user_message as [user_message|]; [|done].
  unfold handle_message_decision.
  destruct (truthy user_message) eqn:Hmsg; [|done]. cbn [negb].
  apply truthy_true in Hmsg.
  destruct (route_message GROUP_TRIGGER_COMMANDS chat_type replies_to_bot
              user_message) as [[should_respond text] used] eqn:Hroute.
  destruct should_respond; [|done]. cbn [negb].
  assert (Hused : match used with
                  | Some t => in_group chat_type = true
                              ∧ t ∈ GROUP_TRIGGER_COMMANDS
                  | None => text = user_message
                  end).
  { destruct used as [t|].
    - apply route_message_trigger in Hroute as (_ & Hgroup & Hmatch).
      split; [done|].
      apply (match_trigger_first user_message (lower user_message))
        in Hmatch as (earlier & later & -> & _).
      apply elem_of_app. right. apply list_elem_of_here.
    - revert Hroute. unfold route_message.
      repeat case_match; congruence. }
  destruct (truthy text) eqn:Htext.
  { cbn [negb andb]. by apply truthy_true. }
  apply truthy_false in Htext. subst text. cbn [negb andb].
  destruct used as [t|]; [|congruence].
  destruct Hused as [Hgroup Hin]. rewrite Hgroup. cbn [truthy_opt andb].
  destruct (truthy t) eqn:Ht; cbn [negb default].
  - apply truthy_true in Ht. done.
  - apply truthy_false in Ht. by subst t.
Qed.

(** X22: what [handle_message] decides.  The AI backend is asked only with
    a text that is not empty; the request for a question names a configured,
    non-empty trigger command of a group message; and a message is dropped
    silently after the bot chose to respond only when the empty string is
    among the trigger commands. *)
Theorem text_message_outcomes (GROUP_TRIGGER_COMMANDS : list str)
    (chat_type : ChatType) (replies_to_bot : bool)
    (user_message : option str) :
  match handle_message_decision GROUP_TRIGGER_COMMANDS chat_type
          replies_to_bot user_message with
  | NoReply => True
  | AskForQuestion trigger_command_used =>
      in_group chat_type = true ∧ trigger_command_used ≠ [] ∧
      trigger_command_used ∈ GROUP_TRIGGER_COMMANDS
  | EmptyIgnored =>
      in_group chat_type = true ∧ [] ∈ GROUP_TRIGGER_COMMANDS
  | AskGemini actual_message_to_process => actual_message_to_process ≠ []
  end.
Proof.
  apply handle_message_decision_cases.
Qed.

(** X23: a captioned photo that is answered because of a trigger command
    would be answered as a text message with the same text, with the same
    command and the same text handed on. *)
Theorem caption_trigger_is_a_text_trigger (GROUP_TRIGGER_COMMANDS : list str)
    (chat_type : ChatType) (replies_to_bot : bool)
    (caption text trigger : str) :
  route_photo GROUP_TRIGGER_COMMANDS chat_type replies_to_bot (Some caption)
  = (true, Some text, Some trigger) →
  route_message GROUP_TRIGGER_COMMANDS chat_type replies_to_bot caption
  = (true, text, Some trigger).
Proof.
  unfold route_photo, route_message.
  destruct (bool_decide (chat_type = PRIVATE)); [done|].
  destruct (in_group chat_type); [|done].
  destruct replies_to_bot; [done|].
  destruct (truthy caption); [|done].
  intros Hphoto.
  apply (match_photo_trigger_text caption (lower caption) _ _ _
           (length_lower caption)) in Hphoto
    as (text' & t & [= <-] & [= <-] & ->).
  done.
Qed.

Lemma caption_trigger_is_a_text_trigger_witness :
  route_photo [lit "/ai"; lit "Bot"] GROUP false (Some (lit "/AI apa ini?"))
  = (true, Some (lit "apa ini?"), Some (lit "/ai")) ∧
  route_message [lit "/ai"; lit "Bot"] GROUP false (lit "/AI apa ini?")
  = (true, lit "apa ini?", Some (lit "/ai")).
Proof.
  assert (Hphoto :
    route_photo [lit "/ai"; lit "Bot"] GROUP false
      (Some (lit "/AI apa ini?"))
    = (true, Some (lit "apa ini?"), Some (lit "/ai"))) by reflexivity.
  split; [exact Hphoto|].
  exact (caption_trigger_is_a_text_trigger _ _ _ _ _ _ Hphoto).
Defined.

(** X24: the converse of X23 fails.  When a trigger command is a proper
    prefix of a later one (as [/ai] is of [/aibot]), a group message that
    begins with the longer command and a space is answered as a text
    message, but a photo with the same caption is not: the loop over the
    commands of the photo handler stops at the first command the caption
    begins with. *)
Theorem longer_trigger_shadowed_in_captions
    (GROUP_TRIGGER_COMMANDS : list str) (chat_type : ChatType)
    (short long tail : str) :
  in_group chat_type = true →
  long ∈ GROUP_TRIGGER_COMMANDS →
  startswith (lower long) (lower short) = true →
  length short < length long →
  isspace_at (lower long) (length short) = false →
  let caption := long ++ " "%char :: tail in
  (route_photo (short :: GROUP_TRIGGER_COMMANDS) chat_type false
     (Some caption)).1.1 = false ∧
  (route_message (short :: GROUP_TRIGGER_COMMANDS) chat_type false
     caption).1.1 = true.
Proof.
  intros Hgroup Hin Hprefix Hlen Hspace caption.
  assert (Hnot_private : bool_decide (chat_type = PRIVATE) = false).
  { apply bool_decide_eq_false_2. by intros ->. }
  assert (Hlower : lower caption = lower long ++ lower (" "%char :: tail)).
  { apply lower_app. }
  split.
  - unfold route_photo. rewrite Hnot_private, Hgroup.
    assert (Htruthy : truthy caption = true).
    { apply truthy_true. unfold caption. by destruct long. }
    rewrite Htruthy. cbn [match_photo_trigger]. cbv zeta.
    rewrite Hlower, (startswith_app _ _ _ Hprefix).
    rewrite !length_lower.
    assert (Hat : isspace_at (lower long ++ lower (" "%char :: tail))
                    (length short) = false).
    { unfold isspace_at in *.
      by rewrite lookup_app_l by (rewrite length_lower; lia). }
    rewrite Hat, orb_false_r.
    rewrite <- Hlower, length_lower.
    destruct (Nat.eqb_spec (length caption) (length short)) as [Heq|]; [|done].
    unfold caption in Heq. rewrite length_app in Heq. simpl in Heq. lia.
  - unfold route_message. rewrite Hnot_private, Hgroup.
    assert (Hsome : is_Some (match_trigger (short :: GROUP_TRIGGER_COMMANDS)
                               caption (lower caption))).
    { apply (match_trigger_is_Some caption (lower caption)).
      apply Exists_cons. right. apply Exists_exists. exists long.
      split; [done|]. unfold addresses.
      rewrite Hlower, (startswith_app _ _ _ (startswith_self _)).
      unfold isspace_at.
      rewrite lookup_app_r, Nat.sub_diag by lia. simpl.
      by rewrite orb_true_r. }
    destruct Hsome as [[text t] ->]. done.
Qed.

Lemma longer_trigger_shadowed_in_captions_witness :
  (route_photo [lit "/ai"; lit "/aibot"] GROUP false
     (Some (lit "/aibot apa ini?"))).1.1 = false ∧
  (route_message [lit "/ai"; lit "/aibot"] GROUP false
     (lit "/aibot apa ini?")).1.1 = true.
Proof.
  apply (longer_trigger_shadowed_in_captions [lit "/aibot"] GROUP
           (lit "/ai") (lit "/aibot") (lit "apa ini?")).
  - reflexivity.
  - apply list_elem_of_here.
  - reflexivity.
  - simpl. lia.
  - reflexivity.
Defined.

(** ** The photo handler *)

Lemma added_self (tr : trace) : added tr tr = [].
Proof. unfold added. by rewrite drop_all. Qed.

Lemma quotes_quote (msg : photo_message) (replies : list (str * option ParseMode)) :
  Forall (quotes msg) (map (quote msg) replies).
Proof. apply Forall_map, Forall_forall. by intros [text mode] _. Qed.

Lemma sent_texts_quote (msg : photo_message)
    (replies : list (str * option ParseMode)) :
  sent_texts (map (quote msg) replies) = replies.*1.
Proof.
  induction replies as [|[text mode] replies IH]; [done|].
  simpl. f_equal. exact IH.
Qed.

Lemma count_quote (msg : photo_message) (test : event → bool)
    (replies : list (str * option ParseMode)) :
  (∀ ordinal req, test (SendMessage ordinal req) = false) →
  count test (map (quote msg) replies) = 0.
Proof.
  intros Htest. unfold count.
  induction replies as [|[text mode] replies IH]; simpl; [done|].
  unfold quote at 1. by rewrite Htest.
Qed.

Section PhotoFacts.

Variable w : world.
Variable DEFAULT_PROMPT_FOR_IMAGE_IF_NO_CAPTION : str.

(** When the chat action raises, the handler of a single photo ends with
    it. *)
Lemma handle_single_photo_raises (msg : photo_message)
    (actual_caption_to_process : option str) (tr : trace) :
  chat_action w tr (photo_chat_id msg) = false →
  handle_single_photo w DEFAULT_PROMPT_FOR_IMAGE_IF_NO_CAPTION msg
    actual_caption_to_process tr
  = (false, tr ++ [SendChatAction (photo_chat_id msg)]).
Proof. intros Haction. unfold handle_single_photo. by rewrite Haction. Qed.

(** The calls of the handler of a single photo when the chat action
    returns: the chat action, the download, at most one call of the AI
    backend, and one or two replies to the photo. *)
Lemma handle_single_photo_shape (msg : photo_message)
    (actual_caption_to_process : option str) (tr : trace) :
  chat_action w tr (photo_chat_id msg) = true →
  let text_prompt :=
    single_photo_prompt DEFAULT_PROMPT_FOR_IMAGE_IF_NO_CAPTION
      actual_caption_to_process in
  ∃ gen replies,
    (handle_single_photo w DEFAULT_PROMPT_FOR_IMAGE_IF_NO_CAPTION msg
       actual_caption_to_process tr).2
    = tr ++ [SendChatAction (photo_chat_id msg);
             GetFile (photo_file_id msg)]
         ++ gen ++ map (quote msg) replies ∧
    (length replies = 1 ∨ length replies = 2) ∧
    (gen = []
     ∨ ∃ image_bytes,
         gen = [Generate (photo_chat_id msg)
                  ((if truthy text_prompt then [TextPart text_prompt]
                    else []) ++ [ImagePart image_bytes]) text_prompt]) ∧
    (download w (tr ++ [SendChatAction (photo_chat_id msg)])
       (photo_file_id msg) = None →
     gen = [] ∧ replies = [(apology_single_error, None)]).
Proof.
  intros Haction text_prompt. unfold handle_single_photo, reply_quoting.
  rewrite Haction. cbn [negb]. cbv zeta. fold text_prompt.
  repeat case_match; simplify_eq/=;
    solve [ (exists [] + eexists [_]);
            (eexists [(_, _)] + eexists [(_, _); (_, _)]);
            (split; [by rewrite <- ?app_assoc|]);
            (split; [by left + by right|]);
            (split; [by left + (right; by eexists)|]);
            done ].
Qed.

End PhotoFacts.

(** X25: the handler of a single photo.  Every message it sends goes to
    the chat of the photo as a reply to it; it sends at most two and calls
    the AI backend at most once.  When the chat action that opens it has
    returned, it answers: it sends at least one message, and when the
    download fails it makes no call of the backend and the one message sent
    is the error apology.  When the chat action raises, the handler ends
    with it: no download, no call of the backend, no message. *)
Theorem single_photo_answered_after_chat_action (w : world)
    (DEFAULT_PROMPT_FOR_IMAGE_IF_NO_CAPTION : str) (msg : photo_message)
    (actual_caption_to_process : option str) (tr : trace) :
  let evs :=
    added tr
      (handle_single_photo w DEFAULT_PROMPT_FOR_IMAGE_IF_NO_CAPTION msg
         actual_caption_to_process tr).2 in
  length (sent_texts evs) <= 2 ∧
  Forall (quotes msg) evs ∧
  count is_generate evs <= 1 ∧
  (chat_action w tr (photo_chat_id msg) = true →
   1 <= length (sent_texts evs) ∧
   (download w (tr ++ [SendChatAction (photo_chat_id msg)])
      (photo_file_id msg) = None →
    count is_generate evs = 0 ∧ sent_texts evs = [apology_single_error])) ∧
  (chat_action w tr (photo_chat_id msg) = false →
   evs = [SendChatAction (photo_chat_id msg)]).
Proof.
  intros evs. unfold evs.
  destruct (chat_action w tr (photo_chat_id msg)) eqn:Haction.
  2:{ rewrite handle_single_photo_raises by done. cbn [snd].
      rewrite added_app. unfold count. simpl.
      repeat split; done || lia || by repeat apply Forall_cons_2. }
  destruct (handle_single_photo_shape w DEFAULT_PROMPT_FOR_IMAGE_IF_NO_CAPTION
              msg actual_caption_to_process tr Haction)
    as (gen & replies & -> & Hlen & Hgen & Hnone).
  rewrite added_app.
  assert (Hgen_texts : sent_texts gen = []).
  { by destruct Hgen as [->|[image_bytes ->]]. }
  assert (Htexts :
    sent_texts ([SendChatAction (photo_chat_id msg);
                 GetFile (photo_file_id msg)]
                ++ gen ++ map (quote msg) replies) = replies.*1).
  { by rewrite !sent_texts_app, Hgen_texts, sent_texts_quote. }
  assert (Hcount :
    count is_generate ([SendChatAction (photo_chat_id msg);
                        GetFile (photo_file_id msg)]
                       ++ gen ++ map (quote msg) replies)
    = count is_generate gen).
  { rewrite !count_app, count_quote by done. unfold count. simpl. lia. }
  rewrite Htexts, Hcount, length_fmap.
  split; [lia|]. split; [|split; [|split; [|done]]].
  - apply Forall_app. split; [by repeat apply Forall_cons_2|].
    apply Forall_app. split; [|apply quotes_quote].
    destruct Hgen as [->|[image_bytes ->]]; by repeat apply Forall_cons_2.
  - destruct Hgen as [->|[image_bytes ->]]; unfold count; simpl; lia.
  - intros _. split; [lia|].
    intros Hdl. destruct (Hnone Hdl) as [-> ->]. done.
Qed.

Lemma single_photo_answered_after_chat_action_witness :
  let msg :=
    {| photo_chat_id := 1; photo_chat_type := PRIVATE; photo_user_id := 9;
       photo_message_id := 11; photo_file_id := lit "photo";
       photo_caption := None; photo_media_group_id := None;
       photo_replies_to_bot := false |} in
  chat_action (scripted []) [] 1 = true ∧
  download (scripted []) [SendChatAction 1] (lit "photo") = None ∧
  sent_texts
    (added []
       (handle_single_photo (scripted []) (lit "Jelaskan gambar ini") msg
          None []).2) = [apology_single_error].
Proof.
  intros msg. split; [reflexivity|]. split; [reflexivity|].
  destruct (single_photo_answered_after_chat_action (scripted [])
              (lit "Jelaskan gambar ini") msg None [])
    as (_ & _ & _ & Hreturns & _).
  exact (proj2 (proj2 (Hreturns eq_refl) eq_refl)).
Defined.

(** X26: when the handler of a single photo calls the AI backend, it is for
    the chat of the photo, with the caption as the prompt, or the default
    prompt when there is no caption or an empty one.  With a default prompt
    that is not empty the prompt is never empty, and the parts are the
    prompt and one image. *)
Theorem single_photo_prompt_never_empty (w : world)
    (DEFAULT_PROMPT_FOR_IMAGE_IF_NO_CAPTION : str) (msg : photo_message)
    (actual_caption_to_process : option str) (tr : trace)
    (c : Z) (parts : list prompt_part) (prompt : str) :
  DEFAULT_PROMPT_FOR_IMAGE_IF_NO_CAPTION ≠ [] →
  Generate c parts prompt
  ∈ added tr
      (handle_single_photo w DEFAULT_PROMPT_FOR_IMAGE_IF_NO_CAPTION msg
         actual_caption_to_process tr).2 →
  c = photo_chat_id msg ∧ prompt ≠ [] ∧
  (prompt = DEFAULT_PROMPT_FOR_IMAGE_IF_NO_CAPTION
   ∨ actual_caption_to_process = Some prompt) ∧
  ∃ image_bytes, parts = [TextPart prompt; ImagePart image_bytes].
Proof.
  intros Hdefault.
  destruct (chat_action w tr (photo_chat_id msg)) eqn:Haction.
  2:{ rewrite handle_single_photo_raises by done. cbn [snd].
      rewrite added_app. by intros ?%list_elem_of_singleton. }
  destruct (handle_single_photo_shape w DEFAULT_PROMPT_FOR_IMAGE_IF_NO_CAPTION
              msg actual_caption_to_process tr Haction)
    as (gen & replies & -> & _ & Hgen & _).
  rewrite added_app. intros Hin.
  apply elem_of_app in Hin as [Hin|Hin].
  { apply elem_of_cons in Hin as [?|Hin]; [done|].
    by apply list_elem_of_singleton in Hin. }
  apply elem_of_app in Hin as [Hin|Hin].
  - destruct Hgen as [->|[image_bytes ->]]; [by apply elem_of_nil in Hin|].
    apply list_elem_of_singleton in Hin. injection Hin as -> -> ->.
    assert (Hprompt :
      single_photo_prompt DEFAULT_PROMPT_FOR_IMAGE_IF_NO_CAPTION
        actual_caption_to_process ≠ [] ∧
      (single_photo_prompt DEFAULT_PROMPT_FOR_IMAGE_IF_NO_CAPTION
         actual_caption_to_process = DEFAULT_PROMPT_FOR_IMAGE_IF_NO_CAPTION
       ∨ actual_caption_to_process
         = Some (single_photo_prompt DEFAULT_PROMPT_FOR_IMAGE_IF_NO_CAPTION
                   actual_caption_to_process))).
    { unfold single_photo_prompt.
      destruct actual_caption_to_process as [text|]; [|by split; [|left]].
      destruct (truthy text) eqn:Htext; [|by split; [|left]].
      apply truthy_true in Htext. by split; [|right]. }
    destruct Hprompt as [Hne Hwhich].
    split; [done|]. split; [done|]. split; [done|].
    exists image_bytes. apply truthy_true in Hne. by rewrite Hne.
  - apply list_elem_of_fmap in Hin as ([text mode] & Heq & _). done.
Qed.

Lemma single_photo_prompt_never_empty_witness :
  let msg :=
    {| photo_chat_id := 1; photo_chat_type := PRIVATE; photo_user_id := 9;
       photo_message_id := 11; photo_file_id := lit "photo";
       photo_caption := None; photo_media_group_id := None;
       photo_replies_to_bot := false |} in
  Generate 1 [TextPart (lit "Jelaskan gambar ini"); ImagePart (lit "jpeg")]
    (lit "Jelaskan gambar ini")
  ∈ added []
      (handle_single_photo (answering (Some (lit "ok")))
         (lit "Jelaskan gambar ini") msg None []).2 ∧
  lit "Jelaskan gambar ini" ≠ [].
Proof.
  intros msg.
  assert (Hin :
    Generate 1 [TextPart (lit "Jelaskan gambar ini"); ImagePart (lit "jpeg")]
      (lit "Jelaskan gambar ini")
    ∈ added []
        (handle_single_photo (answering (Some (lit "ok")))
           (lit "Jelaskan gambar ini") msg None []).2).
  { apply list_elem_of_In. vm_compute. right. right. left. reflexivity. }
  split; [exact Hin|].
  assert (Hdefault : lit "Jelaskan gambar ini" ≠ []) by discriminate.
  exact (proj1 (proj2 (single_photo_prompt_never_empty _ _ _ _ _ _ _ _
                         Hdefault Hin))).
Defined.

Lemma add_to_media_group_trace (w : world) (MAX_IMAGE_INPUT : Z)
    (chat_id : Z) (media_group_id_str : str) (user_id : Z)
    (img : img_detail) (st : bot_state) (tr : trace) :
  let notice :=
    {| req_chat_id := chat_id; req_text := overflow_notice MAX_IMAGE_INPUT;
       req_reply_to_message_id := Some (message_id img);
       req_parse_mode := None |} in
  (add_to_media_group w MAX_IMAGE_INPUT chat_id media_group_id_str user_id
     img st tr).2 = tr
  ∨ (add_to_media_group w MAX_IMAGE_INPUT chat_id media_group_id_str user_id
       img st tr).2 = tr ++ [SendMessage None notice].
Proof.
  intros notice. unfold add_to_media_group. cbv zeta.
  repeat case_match; simpl; auto.
Qed.

(** X27: a photo of a media group (a photo whose media group id is
    neither [None] nor empty, the test of line 329) is only buffered when it
    arrives: the photo handler makes no chat action, no download and no call
    of the AI backend for it.  The only call it may make is the overflow
    notice, sent to the chat of the photo as a reply to it. *)
Theorem album_photo_is_only_buffered (w : world)
    (GROUP_TRIGGER_COMMANDS : list str) (IMAGE_UNDERSTANDING_ENABLED : bool)
    (MAX_IMAGE_INPUT : Z) (DEFAULT_PROMPT_FOR_IMAGE_IF_NO_CAPTION : str)
    (msg : photo_message) (st : bot_state) (tr : trace) :
  truthy_opt (photo_media_group_id msg) = true →
  let evs :=
    added tr
      (handle_photo_message w GROUP_TRIGGER_COMMANDS
         IMAGE_UNDERSTANDING_ENABLED MAX_IMAGE_INPUT
         DEFAULT_PROMPT_FOR_IMAGE_IF_NO_CAPTION msg st tr).2 in
  evs = [] ∨ evs = [quote msg (overflow_notice MAX_IMAGE_INPUT, None)].
Proof.
  intros Hgroup evs. unfold evs, handle_photo_message.
  destruct IMAGE_UNDERSTANDING_ENABLED; cbn [negb];
    [|left; apply added_self].
  destruct (route_photo GROUP_TRIGGER_COMMANDS (photo_chat_type msg)
              (photo_replies_to_bot msg) (photo_caption msg))
    as [[should_respond caption] trigger].
  destruct should_respond; cbn [negb]; [|left; apply added_self].
  rewrite Hgroup. cbv zeta.
  match goal with
  | |- context [add_to_media_group ?w ?m ?c ?g ?u ?i ?s ?t] =>
      destruct (add_to_media_group_trace w m c g u i s t) as [->| ->]
  end.
  - left. apply added_self.
  - right. by rewrite added_app.
Qed.

Lemma album_photo_is_only_buffered_witness :
  let msg :=
    {| photo_chat_id := 1; photo_chat_type := PRIVATE; photo_user_id := 9;
       photo_message_id := 12; photo_file_id := lit "photo";
       photo_caption := None; photo_media_group_id := Some (lit "album");
       photo_replies_to_bot := false |} in
  let st :=
    (add_to_media_group (answering None) 1 1 (lit "album") 9
       (album_photo 11 None None) initial_state []).1.2 in
  truthy_opt (photo_media_group_id msg) = true ∧
  added []
    (handle_photo_message (answering None) [] true 1
       (lit "Jelaskan gambar ini") msg st []).2
  = [quote msg (overflow_notice 1, None)].
Proof.
  intros msg st. split; [reflexivity|].
  destruct (album_photo_is_only_buffered (answering None) [] true 1
              (lit "Jelaskan gambar ini") msg st [] eq_refl)
    as [Hnone|Hnotice].
  - exfalso. revert Hnone. vm_compute. discriminate.
  - exact Hnotice.
Defined.

(** ** The text handler *)

Lemma sent_texts_answer (quote_by_default : ChatType → bool)
    (msg : text_message) (replies : list (str * option ParseMode)) :
  sent_texts (map (answer quote_by_default msg) replies) = replies.*1.
Proof.
  induction replies as [|[text mode] replies IH]; [done|].
  simpl. f_equal. exact IH.
Qed.

Lemma count_answer (quote_by_default : ChatType → bool)
    (msg : text_message) (test : event → bool)
    (replies : list (str * option ParseMode)) :
  (∀ ordinal req, test (SendMessage ordinal req) = false) →
  count test (map (answer quote_by_default msg) replies) = 0.
Proof.
  intros Htest. unfold count.
  induction replies as [|[text mode] replies IH]; simpl; [done|].
  unfold answer at 1. by rewrite Htest.
Qed.

Section TextFacts.

Variable w : world.
Variable GROUP_TRIGGER_COMMANDS : list str.
Variable quote_by_default : ChatType → bool.

Lemma send_reply_shape (msg : text_message) (gemini_reply_raw : str)
    (tr : trace) :
  ∃ replies,
    (send_reply w quote_by_default msg gemini_reply_raw tr).2
    = tr ++ map (answer quote_by_default msg) replies ∧
    replies ∈ reply_conversations gemini_reply_raw.
Proof.
  unfold send_reply, last_reply, reply_text, answer. cbv zeta.
  repeat case_match; simplify_eq/=;
    solve [ (eexists [(_, _)] + eexists [(_, _); (_, _)]
             + eexists [(_, _); (_, _); (_, _)]);
            (split; [by rewrite <- ?app_assoc|]);
            unfold reply_conversations; cbv zeta;
            repeat (apply list_elem_of_here || apply list_elem_of_further) ].
Qed.

(** The calls of [handle_message]: none; or the request for a question; or
    a chat action that raises; or the chat action and the call of the AI
    backend with the text to process, followed by the replies. *)
Lemma handle_message_shape (msg : text_message) (tr : trace) :
  ∃ calls replies,
    (handle_message w GROUP_TRIGGER_COMMANDS quote_by_default msg tr).2
    = tr ++ calls ++ map (answer quote_by_default msg) replies ∧
    ((calls = [] ∧
      (replies = []
       ∨ ∃ trigger, trigger ∈ GROUP_TRIGGER_COMMANDS ∧
           replies = [(ask_for_question trigger, Some MARKDOWN)]))
     ∨ (calls = [SendChatAction (text_chat_id msg)] ∧ replies = [])
     ∨ ∃ text, text ≠ [] ∧
         calls = [SendChatAction (text_chat_id msg);
                  Generate (text_chat_id msg) [TextPart text] text] ∧
         (replies = [] ∨ replies = [(sorry_internal, None)]
          ∨ ∃ raw, raw ≠ [] ∧ replies ∈ reply_conversations raw)).
Proof.
  unfold handle_message.
  pose proof (handle_message_decision_cases GROUP_TRIGGER_COMMANDS
                (text_chat_type msg) (text_replies_to_bot msg)
                (text_text msg)) as Hcases.
  destruct (handle_message_decision GROUP_TRIGGER_COMMANDS
              (text_chat_type msg) (text_replies_to_bot msg) (text_text msg))
    as [|trigger| |text].
  - exists [], []. split; [by rewrite !app_nil_r|]. left. by split; [|left].
  - destruct Hcases as (_ & _ & Hin).
    exists [], [(ask_for_question trigger, Some MARKDOWN)].
    split; [done|]. left. split; [done|]. right. by exists trigger.
  - exists [], []. split; [by rewrite !app_nil_r|]. left. by split; [|left].
  - unfold ask_gemini. cbv zeta.
    destruct (chat_action w tr (text_chat_id msg)); cbn [negb].
    2:{ exists [SendChatAction (text_chat_id msg)], [].
        split; [by rewrite !app_nil_r|]. right. by left. }
    pose proof Hcases as Htruthy. apply truthy_true in Htruthy.
    rewrite Htruthy.
    set (calls := [SendChatAction (text_chat_id msg);
                   Generate (text_chat_id msg) [TextPart text] text]).
    assert (Hcalls :
      (tr ++ [SendChatAction (text_chat_id msg)])
      ++ [Generate (text_chat_id msg) [TextPart text] text] = tr ++ calls).
    { by rewrite <- app_assoc. }
    rewrite Hcalls.
    assert (Hinternal :
      ∃ replies,
        (last_reply w quote_by_default msg sorry_internal None
           (tr ++ calls)).2
        = tr ++ calls ++ map (answer quote_by_default msg) replies ∧
        replies = [(sorry_internal, None)]).
    { exists [(sorry_internal, None)]. split; [|done].
      unfold last_reply, reply_text. cbn [fst snd]. by rewrite <- app_assoc. }
    destruct (generate w (tr ++ [SendChatAction (text_chat_id msg)])
                (text_chat_id msg) [TextPart text] text) as [[raw|]|].
    + destruct (truthy raw) eqn:Hraw.
      * destruct (send_reply_shape msg raw (tr ++ calls))
          as (replies & -> & Hin).
        exists calls, replies. split; [by rewrite <- app_assoc|].
        right. right. exists text. split; [done|]. split; [done|].
        right. right. exists raw. split; [by apply truthy_true|done].
      * destruct Hinternal as (replies & -> & ->).
        exists calls, [(sorry_internal, None)]. split; [done|].
        right. right. exists text. split; [done|]. split; [done|].
        right. by left.
    + destruct Hinternal as (replies & -> & ->).
      exists calls, [(sorry_internal, None)]. split; [done|].
      right. right. exists text. split; [done|]. split; [done|].
      right. by left.
    + exists calls, []. split; [by rewrite !app_nil_r|].
      right. right. exists text. split; [done|]. split; [done|]. by left.
Qed.

End TextFacts.

(** X28: the messages [handle_message] sends.  It sends nothing; or the
    request for a question after a bare trigger command; or, after the call
    of the AI backend, the apology for an empty reply; or the reply of the
    backend through the balancer in Markdown, which is followed only by the
    raw reply as plain text (and then possibly an apology), or by an
    apology.  Never more than three messages. *)
Theorem text_reply_conversations (w : world)
    (GROUP_TRIGGER_COMMANDS : list str)
    (quote_by_default : ChatType → bool) (msg : text_message)
    (tr : trace) :
  let texts :=
    sent_texts
      (added tr
         (handle_message w GROUP_TRIGGER_COMMANDS quote_by_default msg
            tr).2) in
  length texts <= 3 ∧
  (texts = []
   ∨ (∃ trigger, trigger ∈ GROUP_TRIGGER_COMMANDS ∧
        texts = [ask_for_question trigger])
   ∨ texts = [sorry_internal]
   ∨ ∃ raw, raw ≠ [] ∧
       texts ∈ [ [ensure_valid_markdown raw];
                 [ensure_valid_markdown raw; raw];
                 [ensure_valid_markdown raw; raw; sorry_fallback];
                 [ensure_valid_markdown raw; sorry_send];
                 [ensure_valid_markdown raw; sorry_unexpected] ]).
Proof.
  intros texts. unfold texts.
  destruct (handle_message_shape w GROUP_TRIGGER_COMMANDS quote_by_default
              msg tr) as (calls & replies & -> & Hshape).
  rewrite added_app, sent_texts_app, sent_texts_answer.
  assert (Hcalls : sent_texts calls = []).
  { by destruct Hshape as [[-> _]|[[-> _]|(text & _ & -> & _)]]. }
  rewrite Hcalls. cbn [app].
  assert (Hconv : ∀ raw, replies ∈ reply_conversations raw →
            length replies.*1 <= 3 ∧
            replies.*1 ∈ [ [ensure_valid_markdown raw];
                           [ensure_valid_markdown raw; raw];
                           [ensure_valid_markdown raw; raw; sorry_fallback];
                           [ensure_valid_markdown raw; sorry_send];
                           [ensure_valid_markdown raw; sorry_unexpected] ]).
  { intros raw Hin. unfold reply_conversations in Hin. cbv zeta in Hin.
    repeat (apply elem_of_cons in Hin as [->|Hin];
            [split; [simpl; lia|];
             repeat (apply list_elem_of_here || apply list_elem_of_further)|]).
    by apply elem_of_nil in Hin. }
  destruct Hshape as [[_ [->|(trigger & Hin & ->)]]
                     |[[_ ->]
                      |(text & _ & _ & [->|[->|(raw & Hraw & Hin)]])]].
  - split; [simpl; lia|]. by left.
  - split; [simpl; lia|]. right. left. by exists trigger.
  - split; [simpl; lia|]. by left.
  - split; [simpl; lia|]. by left.
  - split; [simpl; lia|]. right. right. by left.
  - destruct (Hconv raw Hin) as [Hlen Hmem]. split; [done|].
    right. right. right. by exists raw.
Qed.

(** X29: [handle_message] calls the AI backend at most once, for the chat
    of the message, with a text that is not empty as the only part of the
    prompt; and every message it sends goes to that chat, as a reply to the
    message or not, the same for all of them. *)
Theorem text_handler_calls (w : world) (GROUP_TRIGGER_COMMANDS : list str)
    (quote_by_default : ChatType → bool) (msg : text_message)
    (tr : trace) :
  let evs :=
    added tr
      (handle_message w GROUP_TRIGGER_COMMANDS quote_by_default msg tr).2 in
  count is_generate evs <= 1 ∧
  Forall (fun ev =>
            match ev with
            | Generate chat_id prompt_parts text_prompt_for_history =>
                chat_id = text_chat_id msg ∧
                text_prompt_for_history ≠ [] ∧
                prompt_parts = [TextPart text_prompt_for_history]
            | SendMessage ordinal req =>
                req_chat_id req = text_chat_id msg ∧
                req_reply_to_message_id req
                = (if quote_by_default (text_chat_type msg)
                   then Some (text_message_id msg) else None)
            | SendChatAction chat_id => chat_id = text_chat_id msg
            | _ => False
            end) evs.
Proof.
  intros evs. unfold evs.
  destruct (handle_message_shape w GROUP_TRIGGER_COMMANDS quote_by_default
              msg tr) as (calls & replies & -> & Hshape).
  rewrite added_app. split.
  - rewrite count_app, count_answer by done.
    destruct Hshape as [[-> _]|[[-> _]|(text & _ & -> & _)]];
      unfold count; simpl; lia.
  - apply Forall_app. split.
    + destruct Hshape as [[-> _]|[[-> _]|(text & Htext & -> & _)]];
        [apply Forall_nil_2|by apply Forall_cons_2|].
      apply Forall_cons_2; [done|]. apply Forall_cons_2; [done|].
      apply Forall_nil_2.
    + apply Forall_map, Forall_forall. by intros [text mode] _.
Qed.
